(** * Response detection and source extraction of [page-utils.ts]

    A shallow embedding of [src/utils/page-utils.ts] (with the error
    helpers of [browser-errors.ts]): the text helpers, the candidate
    extractor, the polling loop of [waitForLatestAnswer], the element
    counter and the in-page source harvester, followed by the properties
    the specification states about them.

    JavaScript strings are sequences of UTF-16 code units, kept here as
    lists of integers; [charCodeAt], [length], [trim], [includes] and the
    regular expressions of the source work on those code units. *)

From Stdlib Require Import ZArith Lia Bool List Ascii String.
From stdpp Require Import base decidable list gmap.

Import ListNotations.
Local Open Scope Z_scope.

(** ** JavaScript strings *)

Abbreviation jsstring := (list Z).

(** The code units of an ASCII literal. *)
Definition js (s : string) : jsstring :=
  List.map (fun a => Z.of_N (N_of_ascii a)) (list_ascii_of_string s).

(** Truthiness of a string: [if (s)] holds for every string but the empty one. *)
Definition truthy (s : jsstring) : bool :=
  match s with [] => false | _ :: _ => true end.

(** [a || b] on strings. *)
Definition orElse (a b : jsstring) : jsstring := if truthy a then a else b.

(** The class [\s] of a JavaScript regular expression, which is also the set
    of code units [String.prototype.trim] removes (white space and line
    terminators). *)
Definition isSpace (c : Z) : bool :=
  ((9 <=? c) && (c <=? 13)) || (c =? 32) || (c =? 160) || (c =? 5760)
  || ((8192 <=? c) && (c <=? 8202)) || (c =? 8232) || (c =? 8233)
  || (c =? 8239) || (c =? 8287) || (c =? 12288) || (c =? 65279).

(** The class [\d]. *)
Definition isDigit (c : Z) : bool := (48 <=? c) && (c <=? 57).

Fixpoint dropSpaces (s : jsstring) : jsstring :=
  match s with
  | [] => []
  | c :: r => if isSpace c then dropSpaces r else s
  end.

(** [String.prototype.trim]. *)
Definition trim (s : jsstring) : jsstring :=
  rev (dropSpaces (rev (dropSpaces s))).

(** [value.replace(/\s+/g, " ")]: every maximal run of white space becomes
    one space; [inRun] tells that the previous code unit was white space. *)
Fixpoint collapseSpaces (inRun : bool) (s : jsstring) : jsstring :=
  match s with
  | [] => []
  | c :: r =>
      if isSpace c
      then (if inRun then collapseSpaces true r else 32 :: collapseSpaces true r)
      else c :: collapseSpaces false r
  end.

(** [normalizeText]: [value.replace(/\s+/g, " ").trim()]. *)
Definition normalizeText (value : jsstring) : jsstring :=
  trim (collapseSpaces false value).

(** ** Hashing *)

(** [ToInt32]: the wrap-around of the bit operators of JavaScript. *)
Definition toInt32 (z : Z) : Z := (z + 2 ^ 31) mod 2 ^ 32 - 2 ^ 31.

(** One round of the loop of [hashString]:
    [hash = (hash << 5) - hash + char; hash = hash & hash]. *)
Definition hashStep (hash char : Z) : Z :=
  let hash := toInt32 (Z.shiftl (toInt32 hash) 5) - hash + char in
  Z.land (toInt32 hash) (toInt32 hash).

(** [hashString]: the loop runs over the code units from left to right,
    starting from 0. *)
Definition hashString (str : jsstring) : Z := fold_left hashStep str 0.

(** The fingerprint every call site takes of a text: [hashString(text.trim())]. *)
Definition textHash (text : jsstring) : Z := hashString (trim text).

(** ** Comparing answers *)

Fixpoint startsWith (s p : jsstring) {struct p} : bool :=
  match p, s with
  | [], _ => true
  | _ :: _, [] => false
  | x :: p', y :: s' => (x =? y) && startsWith s' p'
  end.

(** [s.includes(p)]. *)
Fixpoint includes (s p : jsstring) : bool :=
  startsWith s p || match s with [] => false | _ :: s' => includes s' p end.

Definition strEq (a b : jsstring) : bool := bool_decide (a = b).

(** [a.length] as an integer. *)
Definition jsLength (s : jsstring) : Z := Z.of_nat (length s).

Definition isLikelySameAnswer (candidate expected : jsstring) : bool :=
  let a := normalizeText candidate in
  let b := normalizeText expected in
  if negb (truthy a) || negb (truthy b) then false
  else if strEq a b then true
  else if (80 <=? jsLength a) && (80 <=? jsLength b)
       then includes a b || includes b a
       else false.

(** ** Errors

    A value thrown by the browser driver carries its message; the verdict of
    [isRecoverableBrowserError] (a case-insensitive search of the message for
    the patterns of a closed, crashed, disconnected or unresponsive browser)
    is kept next to it.  The errors the module builds itself are listed by
    the place that builds them. *)

Inductive Thrown : Type :=
| PageFailure (recoverable : bool) (message : string)
    (* raised by a page operation *)
| Contextual (context : string) (cause : Thrown)
    (* new Error(`${context}: ${browserErrorMessage(error)}`) *)
| HealthTimeout (timeoutMs : Z)
    (* new Error(`health check timed out after ${timeoutMs}ms`) *)
| Unresponsive (cause : Thrown)
    (* new Error(`Browser page unresponsive: ${browserErrorMessage(error)}`) *)
| PollGuard (pollCount : nat).
    (* new Error(`Polling guard triggered after ${pollCount} polls before
       timeout; browser page may be unresponsive`) *)

(** The pattern is searched anywhere in the message, so a context prefix
    keeps the verdict of the message it wraps; the messages of the health
    check and of the polling guard contain "health check timed out" and
    "unresponsive". *)
Fixpoint isRecoverableBrowserError (error : Thrown) : bool :=
  match error with
  | PageFailure recoverable _ => recoverable
  | Contextual _ cause => isRecoverableBrowserError cause
  | HealthTimeout _ => true
  | Unresponsive _ => true
  | PollGuard _ => true
  end.

(** [throwIfRecoverableBrowserError]: [Some] is the error it throws, [None]
    a normal return. *)
Definition throwIfRecoverableBrowserError (error : Thrown) (context : string)
  : option Thrown :=
  if isRecoverableBrowserError error then Some (Contextual context error) else None.

(** The outcome of an awaited page operation. *)
Inductive Result (A : Type) : Type :=
| Ok (value : A)
| Throws (error : Thrown).
Arguments Ok {A} value.
Arguments Throws {A} error.

(** ** The page, as the module sees it *)

(** A [.to-user-container] element: what [container.$(".message-text-content")]
    gives and, for a text element, what [innerText()] gives. *)
Inductive Container : Type :=
| ContainerFails (error : Thrown)
| NoTextElement
| TextElement (innerText : Result jsstring).

(** An element handle returned by [page.$$(selector)].  [closest] is the
    outcome of the [evaluateHandle] call: it throws, or finds no ancestor
    ([asElement()] is null), or finds one, given by what its [innerText()]
    returns. *)
Record Element : Type := {
  isVisible : Result bool;
  closest : Result (option (Result jsstring));
  elementText : Result jsstring
}.

(** A node of the live document, as the in-page scan reads it. *)
Record DocElement : Type := {
  nodeId : nat;
  isConnected : bool;
  rectEmpty : bool;      (* rect.width === 0 || rect.height === 0 *)
  styleHidden : bool;    (* visibility hidden, display none or opacity 0 *)
  docInnerText : jsstring;
  docTextContent : jsstring
}.

Record Page : Type := {
  toUserContainers : Result (list Container);   (* page.$$(".to-user-container") *)
  queryAll : string -> Result (list Element);   (* page.$$(selector) *)
  evaluateScan : Result (string -> list DocElement)
    (* page.evaluate(...): it throws, or runs the scan on the document,
       given by what document.querySelectorAll returns *)
}.

Definition RESPONSE_SELECTORS : list string :=
  [ ".to-user-container .message-text-content";
    "[data-message-author='bot']";
    "[data-message-author='assistant']";
    "[data-message-role='assistant']";
    "[data-author='assistant']";
    "[data-renderer*='assistant']";
    "[data-automation-id='response-text']";
    "[data-automation-id='assistant-response']";
    "[data-automation-id='chat-response']";
    "[data-testid*='assistant']";
    "[data-testid*='response']";
    "[aria-live='polite']";
    "[role='listitem'][data-message-author]" ]%string.

Definition MIN_POLL_INTERVAL_MS : Z := 100.
Definition POLL_GUARD_MULTIPLIER : Z := 5.
Definition MIN_POLL_GUARD : Z := 120.
Definition FAST_POLL_DRIFT_THRESHOLD_MS : Z := 50.
Definition MAX_FAST_POLL_STREAK : nat := 5.
Definition HEALTH_CHECK_INTERVAL_POLLS : nat := 10.
Definition HEALTH_CHECK_TIMEOUT_MS : Z := 2000.
Definition MAX_EXTRACTED_SOURCES : nat := 30.

(** ** countResponseElements *)

(** The inner loop: an element whose [isVisible()] throws is skipped. *)
Fixpoint countVisible (count : nat) (elements : list Element) : nat :=
  match elements with
  | [] => count
  | el :: rest =>
      match isVisible el with
      | Ok true => countVisible (S count) rest
      | Ok false | Throws _ => countVisible count rest
      end
  end.

(** The outer loop over the selectors, with its [break]. *)
Fixpoint countLoop (page : Page) (count : nat) (selectors : list string) : nat :=
  match selectors with
  | [] => count
  | selector :: rest =>
      match queryAll page selector with
      | Throws _ => countLoop page count rest
      | Ok elements =>
          if (0 <? length elements)%nat
          then let count := countVisible count elements in
               if (0 <? count)%nat then count else countLoop page count rest
          else countLoop page count rest
      end
  end.

Definition countResponseElements (page : Page) : nat :=
  countLoop page 0%nat RESPONSE_SELECTORS.

(** ** extractLatestText

    The extractor is written together with the list of page operations it
    performs, so that what it reads (and what it leaves unread) can be
    stated. *)

Inductive PageOp : Type :=
| QueryAll (selector : string)                      (* page.$$(selector) *)
| QueryTextElement (idx : nat)                      (* containers[idx].$(".message-text-content") *)
| ReadInnerText (idx : nat)                         (* textElement.innerText() *)
| ResolveClosest (selector : string) (idx : nat)    (* element.evaluateHandle(el => el.closest(...)) *)
| ReadElementText (selector : string) (idx : nat)   (* container.innerText() in the fallback *)
| EvaluateScan.                                     (* page.evaluate(...) *)

Definition Traced (A : Type) : Type := (list PageOp * A)%type.

(** Perform [ops], then go on as [k]. *)
Definition after {A : Type} (ops : list PageOp) (k : Traced A) : Traced A :=
  (ops ++ fst k, snd k).

(** How a scanning loop ends: it returns a text, it leaves through a thrown
    error, or it runs to its end. *)
Inductive Scan : Type :=
| Found (text : jsstring)
| Aborted (error : Thrown)
| Exhausted.

(** [text && text.trim()] *)
Definition nonBlank (text : jsstring) : bool := truthy text && truthy (trim text).

Definition knows (knownHashes : gset Z) (hash : Z) : bool :=
  bool_decide (hash ∈ knownHashes).

(** The loop over the primary containers, from index [idx] on. *)
Fixpoint scanContainers (knownHashes : gset Z) (idx : nat)
    (containers : list Container) : Traced Scan :=
  match containers with
  | [] => ([], Exhausted)
  | container :: rest =>
      let next := scanContainers knownHashes (S idx) rest in
      let catch (ops : list PageOp) (error : Thrown) : Traced Scan :=
        match throwIfRecoverableBrowserError error
                "Browser page unavailable while reading response container" with
        | Some thrown => (ops, Aborted thrown)
        | None => after ops next
        end in
      match container with
      | ContainerFails error => catch [QueryTextElement idx] error
      | NoTextElement => after [QueryTextElement idx] next
      | TextElement (Throws error) =>
          catch [QueryTextElement idx; ReadInnerText idx] error
      | TextElement (Ok text) =>
          let ops := [QueryTextElement idx; ReadInnerText idx] in
          if nonBlank text
          then if negb (knows knownHashes (textHash text))
               then (ops, Found (trim text))
               else after ops next
          else after ops next
      end
  end.

(** How the primary path ends: with the result of the whole extraction, with
    a thrown error, or by falling through to the fallback selectors. *)
Inductive Primary : Type :=
| PrimaryResult (text : option jsstring)
| PrimaryThrows (error : Thrown)
| FallThrough.

Definition primaryCatch (error : Thrown) : Primary :=
  match throwIfRecoverableBrowserError error
          "Browser page unavailable in primary extraction" with
  | Some thrown => PrimaryThrows thrown
  | None => FallThrough
  end.

Definition primarySelector : string := ".to-user-container".

Definition primaryExtraction (page : Page) (knownHashes : gset Z) : Traced Primary :=
  after [QueryAll primarySelector]
    match toUserContainers page with
    | Throws error => ([], primaryCatch error)
    | Ok containers =>
        let totalContainers := length containers in
        if (totalContainers <=? size knownHashes)%nat
        then ([], PrimaryResult None)
        else if (0 <? length containers)%nat
        then let scan := scanContainers knownHashes 0 containers in
             (fst scan,
              match snd scan with
              | Found text => PrimaryResult (Some text)
              | Exhausted => PrimaryResult None
              | Aborted error => primaryCatch error
              end)
        else ([], FallThrough)
    end.

(** The loop over the elements of one fallback selector. *)
Fixpoint scanElements (knownHashes : gset Z) (selector : string) (idx : nat)
    (elements : list Element) : Traced Scan :=
  match elements with
  | [] => ([], Exhausted)
  | element :: rest =>
      let next := scanElements knownHashes selector (S idx) rest in
      let catch (ops : list PageOp) (error : Thrown) : Traced Scan :=
        match throwIfRecoverableBrowserError error
                "Browser page unavailable while reading fallback response element" with
        | Some thrown => (ops, Aborted thrown)
        | None => after ops next
        end in
      let read (container : Result jsstring) : Traced Scan :=
        let ops := [ResolveClosest selector idx; ReadElementText selector idx] in
        match container with
        | Throws error => catch ops error
        | Ok text =>
            if nonBlank text && negb (knows knownHashes (textHash text))
            then (ops, Found (trim text))
            else after ops next
        end in
      match closest element with
      | Throws error =>
          match throwIfRecoverableBrowserError error
                  "Browser page unavailable while resolving response container" with
          | Some thrown => catch [ResolveClosest selector idx] thrown
          | None => read (elementText element)
          end
      | Ok None => read (elementText element)
      | Ok (Some ancestorText) => read ancestorText
      end
  end.

(** The loop over the fallback selectors. *)
Fixpoint scanSelectors (page : Page) (knownHashes : gset Z)
    (selectors : list string) : Traced Scan :=
  match selectors with
  | [] => ([], Exhausted)
  | selector :: rest =>
      let next := scanSelectors page knownHashes rest in
      let catch (ops : list PageOp) (error : Thrown) : Traced Scan :=
        match throwIfRecoverableBrowserError error
                ("Browser page unavailable while querying fallback selector ("
                   ++ selector ++ ")") with
        | Some thrown => (ops, Aborted thrown)
        | None => after ops next
        end in
      match queryAll page selector with
      | Throws error => catch [QueryAll selector] error
      | Ok [] => after [QueryAll selector] next
      | Ok elements =>
          let scan := scanElements knownHashes selector 0 elements in
          let ops := QueryAll selector :: fst scan in
          match snd scan with
          | Found text => (ops, Found text)
          | Aborted error => catch ops error
          | Exhausted => after ops next
          end
      end
  end.

(** The in-page scan of the last resort. *)
Definition docVisible (el : DocElement) : bool :=
  if negb (isConnected el) then false
  else if rectEmpty el then false
  else if styleHidden el then false
  else true.

Definition scanSelectorsOfLastResort : list string :=
  [ "[data-message-author]";
    "[data-message-role]";
    "[data-author]";
    "[data-renderer*='assistant']";
    "[data-testid*='assistant']";
    "[data-automation-id*='response']" ]%string.

(** The body of the inner loop, on the pair of [unique] and [candidates]. *)
Definition scanDocElement (state : gset nat * list jsstring) (el : DocElement)
  : gset nat * list jsstring :=
  let '(unique, candidates) := state in
  if negb (docVisible el) then state
  else if bool_decide (nodeId el ∈ unique) then state
  else
    let unique := {[ nodeId el ]} ∪ unique in
    let text := orElse (docInnerText el) (docTextContent el) in
    if negb (truthy (trim text)) then (unique, candidates)
    else (unique, candidates ++ [trim text]).

Definition lastResortScan (document : string -> list DocElement) : option jsstring :=
  let '(_, candidates) :=
    fold_left (fun state selector => fold_left scanDocElement (document selector) state)
      scanSelectorsOfLastResort (∅, []) in
  last candidates.

Definition lastResortExtraction (page : Page) : Traced (Result (option jsstring)) :=
  ([EvaluateScan],
   match evaluateScan page with
   | Throws error =>
       match throwIfRecoverableBrowserError error
               "Browser page unavailable during JS fallback extraction" with
       | Some thrown => Throws thrown
       | None => Ok None
       end
   | Ok document =>
       match lastResortScan document with
       | Some fallbackText =>
           if truthy (trim fallbackText) then Ok (Some (trim fallbackText)) else Ok None
       | None => Ok None
       end
   end).

(** The fallback selectors and, when they give nothing, the last resort. *)
Definition fallbackExtraction (page : Page) (knownHashes : gset Z)
  : Traced (Result (option jsstring)) :=
  let fallback := scanSelectors page knownHashes RESPONSE_SELECTORS in
  match snd fallback with
  | Found text => (fst fallback, Ok (Some text))
  | Aborted error => (fst fallback, Throws error)
  | Exhausted => after (fst fallback) (lastResortExtraction page)
  end.

Definition extractLatestText (page : Page) (knownHashes : gset Z)
  : Traced (Result (option jsstring)) :=
  let primary := primaryExtraction page knownHashes in
  match snd primary with
  | PrimaryResult text => (fst primary, Ok text)
  | PrimaryThrows error => (fst primary, Throws error)
  | FallThrough => after (fst primary) (fallbackExtraction page knownHashes)
  end.

(** ** The polling loop of waitForLatestAnswer *)

(** What [page.$('div.thinking-message')] and [isVisible()] give. *)
Inductive Thinking : Type :=
| ThinkingQueryFails (error : Thrown)
| NoThinkingElement
| ThinkingElement (visible : Result bool).

(** The race of [assertPageResponsive] between [page.evaluate(() => true)]
    and the timer. *)
Inductive Probe : Type :=
| ProbeAnswers
| ProbeThrows (error : Thrown)
| ProbeTimesOut.

(** What [page.waitForTimeout] does. *)
Inductive Wait : Type :=
| WaitReturns
| WaitThrows (error : Thrown).

(** What the browser does during one iteration of the loop.  Each field is
    the answer to one call site of the loop body; a call site runs at most
    once per iteration. *)
Record Poll : Type := {
  periodicProbe : Probe;   (* the health check of every 10th poll *)
  thinking : Thinking;
  thinkingWait : Wait;     (* the wait of the thinking branch *)
  page : Page;             (* the page extractLatestText reads *)
  pollWait : Wait;         (* the wait of the echo branch or of the end of the body *)
  streakProbe : Probe      (* the health check after a fast-poll streak *)
}.

(** The world outside the call: [clock n] is what the [n]-th call of
    [Date.now()] returns (counted from 0), [polls n] what the browser does
    during the iteration that has [pollCount = n]. *)
Record World : Type := {
  clock : nat -> Z;
  polls : nat -> Poll
}.

Record Options : Type := {
  question : jsstring;
  timeoutMs : Z;
  pollIntervalMs : Z;
  ignoreTexts : list jsstring
}.

(** The variables of the call. [ticks] counts the calls of [Date.now()]. *)
Record PollState : Type := {
  pollCount : nat;
  lastCandidate : option jsstring;
  stableCount : nat;
  fastPollStreak : nat;
  knownHashes : gset Z;
  ticks : nat
}.

(** A settled promise of [waitForLatestAnswer]. *)
Inductive Outcome : Type :=
| Resolved (answer : option jsstring)
| Rejected (error : Thrown).

(** How one iteration of the loop ends. *)
Inductive Step : Type :=
| Continue (state : PollState)
| Return (answer : jsstring)
| Throw (error : Thrown).

Definition requiredStablePolls : nat := 3.

Definition assertPageResponsive (probe : Probe) (timeout : Z) : option Thrown :=
  match probe with
  | ProbeAnswers => None
  | ProbeThrows error => Some (Unresponsive error)
  | ProbeTimesOut => Some (Unresponsive (HealthTimeout timeout))
  end.

Definition tick (st : PollState) : PollState :=
  {| pollCount := pollCount st; lastCandidate := lastCandidate st;
     stableCount := stableCount st; fastPollStreak := fastPollStreak st;
     knownHashes := knownHashes st; ticks := S (ticks st) |}.

Definition withStreak (n : nat) (st : PollState) : PollState :=
  {| pollCount := pollCount st; lastCandidate := lastCandidate st;
     stableCount := stableCount st; fastPollStreak := n;
     knownHashes := knownHashes st; ticks := ticks st |}.

Definition withKnown (known : gset Z) (st : PollState) : PollState :=
  {| pollCount := pollCount st; lastCandidate := lastCandidate st;
     stableCount := stableCount st; fastPollStreak := fastPollStreak st;
     knownHashes := known; ticks := ticks st |}.

Definition withStability (count : nat) (last : option jsstring) (st : PollState)
  : PollState :=
  {| pollCount := pollCount st; lastCandidate := last;
     stableCount := count; fastPollStreak := fastPollStreak st;
     knownHashes := knownHashes st; ticks := ticks st |}.

Definition nextPoll (st : PollState) : PollState :=
  {| pollCount := S (pollCount st); lastCandidate := lastCandidate st;
     stableCount := stableCount st; fastPollStreak := fastPollStreak st;
     knownHashes := knownHashes st; ticks := ticks st |}.

(** [waitForPollInterval]: the state after the call, and the error it throws
    if it throws one. *)
Definition waitForPollInterval (world : World) (wait : Wait) (pollIntervalMs : Z)
    (st : PollState) : PollState * option Thrown :=
  let startedAt := clock world (ticks st) in
  let st := tick st in
  match wait with
  | WaitThrows error =>
      match throwIfRecoverableBrowserError error
              "Browser page unavailable during poll wait" with
      | Some thrown => (st, Some thrown)
      | None => (st, Some error)
      end
  | WaitReturns =>
      let waitedMs := clock world (ticks st) - startedAt in
      let st := tick st in
      let remainingMs := pollIntervalMs - waitedMs in
      if FAST_POLL_DRIFT_THRESHOLD_MS <? remainingMs
      then (withStreak (S (fastPollStreak st)) st, None)
      else (withStreak 0 st, None)
  end.

Definition safePollIntervalMs (options : Options) : Z :=
  Z.max MIN_POLL_INTERVAL_MS (pollIntervalMs options).

(** [Math.ceil(timeoutMs / safePollIntervalMs)], on integer milliseconds. *)
Definition expectedPolls (options : Options) : Z :=
  - ((- timeoutMs options) / safePollIntervalMs options).

Definition maxPolls (options : Options) : nat :=
  Z.to_nat (Z.max MIN_POLL_GUARD (expectedPolls options * POLL_GUARD_MULTIPLIER)).

(** The seeding of [knownHashes] from [ignoreTexts]. *)
Definition seedKnownHashes (texts : list jsstring) : gset Z :=
  fold_left
    (fun known text =>
       if truthy (trim text) then {[ hashString (trim text) ]} ∪ known else known)
    texts ∅.

Definition initialState (options : Options) : PollState :=
  {| pollCount := 0; lastCandidate := None; stableCount := 0;
     fastPollStreak := 0; knownHashes := seedKnownHashes (ignoreTexts options);
     ticks := 1 |}.

Section Polling.

(** [String.prototype.toLowerCase], whose Unicode tables stay outside. *)
Variable toLowerCase : jsstring -> jsstring.

Variable world : World.
Variable options : Options.

Definition deadline : Z := clock world 0 + timeoutMs options.

Definition sanitizedQuestion : jsstring := toLowerCase (trim (question options)).

(** The streaming detection of the loop body, on a non-empty trimmed
    candidate that is not the echo of the question. *)
Definition detectStable (normalized : jsstring) (st : PollState) : PollState :=
  if bool_decide (Some normalized = lastCandidate st)
  then withStability (S (stableCount st)) (lastCandidate st) st
  else withStability 1 (Some normalized) st.

(** The end of the loop body: the wait, then the health check a streak of
    fast polls forces. *)
Definition endOfPoll (st : PollState) : Step :=
  let this := polls world (pollCount st) in
  match waitForPollInterval world (pollWait this) (safePollIntervalMs options) st with
  | (_, Some error) => Throw error
  | (st, None) =>
      if (MAX_FAST_POLL_STREAK <=? fastPollStreak st)%nat
      then match assertPageResponsive (streakProbe this) HEALTH_CHECK_TIMEOUT_MS with
           | Some error => Throw error
           | None => Continue (withStreak 0 st)
           end
      else Continue st
  end.

(** The loop body from the call of [extractLatestText] on.  Next to the way
    the iteration ends stands the candidate the extractor returned. *)
Definition extractAndDetect (st : PollState) : option jsstring * Step :=
  let this := polls world (pollCount st) in
  match snd (extractLatestText (page this) (knownHashes st)) with
  | Throws error => (None, Throw error)
  | Ok None => (None, endOfPoll st)
  | Ok (Some candidate) =>
      (Some candidate,
       if truthy candidate
       then
         let normalized := trim candidate in
         if truthy normalized
         then
           let lower := toLowerCase normalized in
           if strEq lower sanitizedQuestion
           then
             let st := withKnown ({[ hashString normalized ]} ∪ knownHashes st) st in
             match waitForPollInterval world (pollWait this)
                     (safePollIntervalMs options) st with
             | (_, Some error) => Throw error
             | (st, None) => Continue st
             end
           else
             let st := detectStable normalized st in
             if (requiredStablePolls <=? stableCount st)%nat
             then Return normalized
             else endOfPoll st
         else endOfPoll st
       else endOfPoll st)
  end.

Definition thinkingCatch (error : Thrown) (st : PollState) : option jsstring * Step :=
  match throwIfRecoverableBrowserError error
          "Browser page unavailable while checking thinking indicator" with
  | Some thrown => (None, Throw thrown)
  | None => extractAndDetect st
  end.

(** One iteration of the [while] loop. *)
Definition pollBody (st : PollState) : option jsstring * Step :=
  let st := nextPoll st in
  let this := polls world (pollCount st) in
  let health :=
    if (pollCount st mod HEALTH_CHECK_INTERVAL_POLLS =? 0)%nat
    then assertPageResponsive (periodicProbe this) HEALTH_CHECK_TIMEOUT_MS
    else None in
  match health with
  | Some error => (None, Throw error)
  | None =>
      match thinking this with
      | ThinkingQueryFails error => thinkingCatch error st
      | NoThinkingElement => extractAndDetect st
      | ThinkingElement (Throws error) => thinkingCatch error st
      | ThinkingElement (Ok false) => extractAndDetect st
      | ThinkingElement (Ok true) =>
          match waitForPollInterval world (thinkingWait this)
                  (safePollIntervalMs options) st with
          | (st, Some error) => thinkingCatch error st
          | (st, None) => (None, Continue st)
          end
      end
  end.

(** What follows the loop. *)
Definition afterLoop (st : PollState) : Outcome :=
  if (maxPolls options <=? pollCount st)%nat
  then if clock world (ticks st) <? deadline
       then Rejected (PollGuard (pollCount st))
       else Resolved None
  else Resolved None.

(** The [while] loop; [remaining] is [maxPolls - pollCount], so that the
    test [pollCount < maxPolls] is the test that [remaining] is not 0.  The
    loop is written with the list of the candidates its polls extracted,
    one entry per iteration. *)
Fixpoint pollLoop (remaining : nat) (st : PollState)
  : list (option jsstring) * Outcome :=
  let now := clock world (ticks st) in
  let st := tick st in
  if now <? deadline
  then match remaining with
       | O => ([], afterLoop st)
       | S remaining =>
           match pollBody st with
           | (candidate, Continue st) =>
               let rest := pollLoop remaining st in
               (candidate :: fst rest, snd rest)
           | (candidate, Return answer) => ([candidate], Resolved (Some answer))
           | (candidate, Throw error) => ([candidate], Rejected error)
           end
       end
  else ([], afterLoop st).

Definition runPolls : list (option jsstring) * Outcome :=
  pollLoop (maxPolls options) (initialState options).

Definition waitForLatestAnswer : Outcome := snd runPolls.

(** The candidates the polls of the call extracted, in order: [None] for a
    poll that got no candidate from the extractor (or did not reach it). *)
Definition polledCandidates : list (option jsstring) := fst runPolls.

End Polling.

(** ** extractSourcesFromContainer *)

(** The answer container, as the in-page function reads it. An attribute
    that is absent is [None] ([getAttribute] returns null). *)
Record Anchor : Type := {
  anchorHref : jsstring;                 (* anchor.href *)
  anchorHrefAttribute : option jsstring; (* anchor.getAttribute("href") *)
  anchorInnerText : jsstring;
  anchorTextContent : jsstring
}.

Record Marker : Type := {
  markerAriaLabel : option jsstring;
  markerTitle : option jsstring;
  markerDialogLabel : option jsstring;
  markerTriggerDescription : option jsstring;
  markerInnerText : jsstring;
  markerTextContent : jsstring;
  (* the descendants matching "[aria-label], [title]", each with its
     aria-label and its title *)
  markerLabelled : list (option jsstring * option jsstring)
}.

Record SourceElement : Type := {
  tagName : jsstring;
  sourceInnerText : jsstring;
  sourceTextContent : jsstring
}.

Record AnswerNode : Type := {
  anchors : list Anchor;                      (* root.querySelectorAll("a[href]") *)
  markers : list Marker;                      (* the citation markers *)
  sourceLike : string -> list SourceElement   (* root.querySelectorAll(selector) *)
}.

Record SourceReference : Type := {
  title : jsstring;
  url : option jsstring;
  raw_text : jsstring
}.

Definition sourceLikeSelectors : list string :=
  [ "[data-testid*='source']";
    "[data-testid*='citation']";
    "[data-automation-id*='source']";
    "[data-automation-id*='citation']";
    "[aria-label*='Source']";
    "[aria-label*='source']";
    "[title*='Source']";
    "[title*='source']";
    ".source-chip";
    ".citation-chip";
    ".source-item";
    ".citation-item";
    ".citation-marker";
    "button[dialoglabel*='Citation']";
    "button[triggerdescription*='citation']" ]%string.

(** [value || ""] for a value that may be null or undefined. *)
Definition orEmpty (value : option jsstring) : jsstring := default [] value.

(** The matchers below follow the regular expressions of the source from
    left to right; each gives the rest of the input after the match. *)
Fixpoint eatLiteral (literal s : jsstring) {struct literal} : option jsstring :=
  match literal, s with
  | [], _ => Some s
  | _ :: _, [] => None
  | x :: literal', y :: s' => if x =? y then eatLiteral literal' s' else None
  end.

(** [\s+] *)
Definition eatSpaces (s : jsstring) : option jsstring :=
  match s with
  | c :: r => if isSpace c then Some (dropSpaces r) else None
  | [] => None
  end.

Fixpoint dropDigits (s : jsstring) : jsstring :=
  match s with
  | [] => []
  | c :: r => if isDigit c then dropDigits r else s
  end.

(** [\d+] *)
Definition eatDigits (s : jsstring) : option jsstring :=
  match s with
  | c :: r => if isDigit c then Some (dropDigits r) else None
  | [] => None
  end.

(** [value.replace(/^\s*\d+\s*[:.)-]\s*/, "").trim()] *)
Definition stripCitationPrefix (value : jsstring) : jsstring :=
  trim
    match eatDigits (dropSpaces value) with
    | Some rest =>
        match dropSpaces rest with
        | c :: rest' =>
            if (c =? 58) || (c =? 46) || (c =? 41) || (c =? 45)
            then dropSpaces rest'
            else value
        | [] => value
        end
    | None => value
    end.

(** [/^\d+$/.test(value)] *)
Definition isNumericOnly (value : jsstring) : bool :=
  truthy value && forallb isDigit value.

(** [/^https?:/i.test(href)] *)
Definition isHttpUrl (href : jsstring) : bool :=
  let ci (lower c : Z) : bool := (c =? lower) || (c =? lower - 32) in
  match href with
  | h :: t1 :: t2 :: p :: rest =>
      ci 104 h && ci 116 t1 && ci 116 t2 && ci 112 p
      && match rest with
         | c :: rest' =>
             (c =? 58)
             || (ci 115 c && match rest' with c' :: _ => c' =? 58 | [] => false end)
         | [] => false
         end
  | _ => false
  end.

(** [citations?$] *)
Definition endsWithCitations (s : jsstring) : bool :=
  match eatLiteral (js "citation") s with
  | Some rest => strEq rest [] || strEq rest (js "s")
  | None => false
  end.

(** [(show|hide)\s+] *)
Definition eatShowOrHide (s : jsstring) : option jsstring :=
  match eatLiteral (js "show") s with
  | Some rest => eatSpaces rest
  | None =>
      match eatLiteral (js "hide") s with
      | Some rest => eatSpaces rest
      | None => None
      end
  end.

Section Sources.

Variable toLowerCase : jsstring -> jsstring.

Definition isNoiseLabel (value : jsstring) : bool :=
  let normalized := trim (toLowerCase value) in
  if negb (truthy normalized) then true
  else if forallb (fun c => (c =? 46) || (c =? 8230) || (c =? 183) || (c =? 8226))
            normalized
  then true
  else if strEq normalized (js "citation details")
          || strEq normalized (js "click to open citation details")
  then true
  else if match eatShowOrHide normalized with
          | Some rest =>
              match eatLiteral (js "additional") rest with
              | Some rest' =>
                  match eatSpaces rest' with
                  | Some rest'' => endsWithCitations rest''
                  | None => false
                  end
              | None => false
              end
              || endsWithCitations rest
          | None => false
          end
  then true
  else if match eatShowOrHide normalized with
          | Some rest =>
              match eatLiteral (js "more") rest with
              | Some rest' =>
                  match eatSpaces rest' with
                  | Some rest'' => endsWithCitations rest''
                  | None => false
                  end
              | None => false
              end
          | None => false
          end
  then true
  else if match eatLiteral (js "more") normalized with
          | Some rest =>
              match eatSpaces rest with
              | Some rest' => endsWithCitations rest'
              | None => false
              end
          | None => false
          end
  then true
  else false.

(** The key of the [unique] set: the lower-cased title, a bar, the
    lower-cased url. *)
Definition refKey (normalizedTitle normalizedUrl : jsstring) : jsstring :=
  toLowerCase normalizedTitle ++ [124] ++ toLowerCase normalizedUrl.

(** The state of the in-page function: the [unique] set and [refs]. *)
Definition Harvest : Type := (gset jsstring * list SourceReference)%type.

Definition addRef (title : jsstring) (url rawText : option jsstring)
    (state : Harvest) : Harvest :=
  let '(unique, refs) := state in
  let normalizedTitle := stripCitationPrefix (normalizeText title) in
  let normalizedRaw := normalizeText (orElse (orEmpty rawText) normalizedTitle) in
  let normalizedUrl := normalizeText (orEmpty url) in
  if negb (truthy normalizedTitle) && negb (truthy normalizedUrl) then state
  else if negb (truthy normalizedUrl)
          && (isNoiseLabel normalizedTitle || isNumericOnly normalizedTitle)
  then state
  else
    let key := refKey normalizedTitle normalizedUrl in
    if bool_decide (key ∈ unique) then state
    else
      ({[ key ]} ∪ unique,
       refs ++
         [ {| title := orElse normalizedTitle
                         (orElse normalizedUrl (js "Untitled source"));
              url := if truthy normalizedUrl then Some normalizedUrl else None;
              raw_text := orElse normalizedRaw (orElse normalizedTitle normalizedUrl) |} ]).

(** The callback of the loop over the anchors. *)
Definition harvestAnchor (state : Harvest) (anchor : Anchor) : Harvest :=
  let href := orElse (anchorHref anchor) (orEmpty (anchorHrefAttribute anchor)) in
  let text := orElse (anchorInnerText anchor) (anchorTextContent anchor) in
  if negb (truthy href) then state
  else if negb (isHttpUrl href) then state
  else addRef (orElse text href) (Some href) (Some (orElse text href)) state.

(** [pushCandidate] *)
Definition pushCandidate (value : option jsstring) (labelCandidates : list jsstring)
  : list jsstring :=
  let normalized := normalizeText (orEmpty value) in
  if negb (truthy normalized) || isNoiseLabel normalized then labelCandidates
  else labelCandidates ++ [normalized].

Definition markerCandidates (marker : Marker) : list jsstring :=
  let cs := pushCandidate (markerAriaLabel marker) [] in
  let cs := pushCandidate (markerTitle marker) cs in
  let cs := pushCandidate (markerDialogLabel marker) cs in
  let cs := pushCandidate (markerTriggerDescription marker) cs in
  let cs := pushCandidate
              (Some (orElse (markerInnerText marker) (markerTextContent marker))) cs in
  fold_left
    (fun cs child => pushCandidate (snd child) (pushCandidate (fst child) cs))
    (markerLabelled marker) cs.

(** The callback of the loop over the citation markers. *)
Definition harvestMarker (state : Harvest) (marker : Marker) : Harvest :=
  fold_left
    (fun state candidate =>
       let cleanedTitle := stripCitationPrefix candidate in
       if truthy cleanedTitle && negb (isNoiseLabel cleanedTitle)
          && negb (isNumericOnly cleanedTitle)
       then addRef cleanedTitle None (Some candidate) state
       else state)
    (markerCandidates marker) state.

(** The callback of the loops over the source-like elements. *)
Definition harvestSourceElement (state : Harvest) (el : SourceElement) : Harvest :=
  if strEq (toLowerCase (tagName el)) (js "a") then state
  else
    let text := orElse (sourceInnerText el) (sourceTextContent el) in
    let cleaned := normalizeText text in
    if negb (truthy cleaned) then state
    else addRef cleaned None (Some cleaned) state.

(** The function evaluated in the page: [refs.slice(0, 30)] at its end. *)
Definition harvest (root : AnswerNode) : list SourceReference :=
  let state : Harvest := (∅, []) in
  let state := fold_left harvestAnchor (anchors root) state in
  let state := fold_left harvestMarker (markers root) state in
  let state :=
    fold_left
      (fun state selector => fold_left harvestSourceElement (sourceLike root selector) state)
      sourceLikeSelectors state in
  take 30 (snd state).

(** The second pass, outside the page. *)
Definition renormalize (source : SourceReference) : SourceReference :=
  {| title := normalizeText (title source);
     url := match url source with
            | Some u => if truthy u then Some (normalizeText u) else None
            | None => None
            end;
     raw_text := normalizeText (orElse (raw_text source) (title source)) |}.

Definition extractSourcesFromContainer (container : AnswerNode) : list SourceReference :=
  take MAX_EXTRACTED_SOURCES
    (List.filter (fun source => (0 <? length (title source))%nat)
       (List.map renormalize (harvest container))).

(** The lower-cased (title, url) pair of a reference. *)
Definition titleUrlPair (source : SourceReference) : jsstring * option jsstring :=
  (toLowerCase (title source), toLowerCase <$> url source).

End Sources.

(** Lower-casing of the letters A to Z, which is what [toLowerCase] does on
    ASCII text. *)
Definition asciiLower (s : jsstring) : jsstring :=
  List.map (fun c => if (65 <=? c) && (c <=? 90) then c + 32 else c) s.

(** ** The observations the stability rule counts *)

Section Counted.

Variable toLowerCase : jsstring -> jsstring.
Variable world : World.
Variable options : Options.

(** A polled candidate enters the streaming detection when it is not blank
    and is not the echo of the question; it enters it trimmed. *)
Definition counted (candidate : option jsstring) : option jsstring :=
  match candidate with
  | Some c =>
      if truthy c && truthy (trim c)
         && negb (strEq (toLowerCase (trim c)) (sanitizedQuestion toLowerCase options))
      then Some (trim c)
      else None
  | None => None
  end.

(** The candidates of the call that entered the streaming detection. *)
Definition countedCandidates : list jsstring :=
  omap counted (polledCandidates toLowerCase world options).

(** The state at the head of the loop after [n] iterations that all went
    round the loop; [None] when the loop was left before. *)
Fixpoint loopHead (n : nat) : option PollState :=
  match n with
  | O => Some (initialState options)
  | S n =>
      match loopHead n with
      | Some st =>
          if (clock world (ticks st) <? deadline world options)
             && (pollCount st <? maxPolls options)%nat
          then match snd (pollBody toLowerCase world options (tick st)) with
               | Continue st' => Some st'
               | Return _ | Throw _ => None
               end
          else None
      | None => None
      end
  end.

End Counted.

(** ** Pages and worlds used as examples *)

Definition answerContainer (text : string) : Container := TextElement (Ok (js text)).

Definition pageOf (containers : list Container) : Page :=
  {| toUserContainers := Ok containers;
     queryAll := fun _ => Ok [];
     evaluateScan := Ok (fun _ => []) |}.

(** A poll during which every probe and wait behaves and nothing is thinking. *)
Definition calmPoll (p : Page) : Poll :=
  {| periodicProbe := ProbeAnswers; thinking := NoThinkingElement;
     thinkingWait := WaitReturns; page := p; pollWait := WaitReturns;
     streakProbe := ProbeAnswers |}.

(** A clock that advances by half a second between two readings. *)
Definition steadyClock (n : nat) : Z := 500 * Z.of_nat n.

Definition capitalQuestion : Options :=
  {| question := js "What is the capital of France?"; timeoutMs := 120000;
     pollIntervalMs := 1000; ignoreTexts := [] |}.

(** The answer is there, unchanged, at every poll. *)
Definition parisWorld : World :=
  {| clock := steadyClock;
     polls := fun _ => calmPoll (pageOf [answerContainer "Paris is the capital of France."]) |}.

(** The answer is there at the first poll, the second poll sees the question
    echoed instead, the later polls see the answer again. *)
Definition echoBetweenWorld : World :=
  {| clock := steadyClock;
     polls := fun n =>
       match n with
       | 1%nat => calmPoll (pageOf [answerContainer "Paris."])
       | 2%nat => calmPoll (pageOf [answerContainer "What is the capital of France?"])
       | _ => calmPoll (pageOf [answerContainer "What is the capital of France?";
                                answerContainer "Paris."])
       end |}.

(** The answer does not change, but the second poll finds no container. *)
Definition gapWorld : World :=
  {| clock := steadyClock;
     polls := fun n =>
       match n with
       | 2%nat => calmPoll (pageOf [])
       | _ => calmPoll (pageOf [answerContainer "Paris."])
       end |}.

(** The question is echoed at every poll. *)
Definition echoWorld : World :=
  {| clock := steadyClock;
     polls := fun _ => calmPoll (pageOf [answerContainer " what is the capital of France? "]) |}.

(** The primary query fails with an error that is not a browser-state error,
    no fallback selector matches, and the in-page scan sees one visible
    message: an answer of an earlier turn. *)
Definition staleMessage : DocElement :=
  {| nodeId := 0; isConnected := true; rectEmpty := false; styleHidden := false;
     docInnerText := js "Berlin is the capital of Germany."; docTextContent := [] |}.

Definition detachedPage : Page :=
  {| toUserContainers := Throws (PageFailure false "Frame was detached");
     queryAll := fun _ => Ok [];
     evaluateScan := Ok (fun selector =>
       if String.eqb selector "[data-message-author]" then [staleMessage] else []) |}.

Definition detachedWorld : World :=
  {| clock := steadyClock; polls := fun _ => calmPoll detachedPage |}.

Definition afterBerlin : Options :=
  {| question := js "What is the capital of France?"; timeoutMs := 120000;
     pollIntervalMs := 1000; ignoreTexts := [js "Berlin is the capital of Germany."] |}.

(** No container ever appears; two seconds of patience. *)
Definition emptyWorld : World :=
  {| clock := steadyClock; polls := fun _ => calmPoll (pageOf []) |}.

Definition twoSeconds : Options :=
  {| question := []; timeoutMs := 2000; pollIntervalMs := 1000; ignoreTexts := [] |}.

(** The page thinks for ever and the clock moves by a millisecond a reading,
    as when the wait primitive returns at once. *)
Definition thinkingPoll : Poll :=
  {| periodicProbe := ProbeAnswers; thinking := ThinkingElement (Ok true);
     thinkingWait := WaitReturns; page := pageOf []; pollWait := WaitReturns;
     streakProbe := ProbeAnswers |}.

Definition racingWorld : World :=
  {| clock := fun n => Z.of_nat n; polls := fun _ => thinkingPoll |}.

(** Two links to one address inside an answer: one wraps only white space,
    the other wraps nothing the text properties see. *)
Definition blankLink : Anchor :=
  {| anchorHref := js "https://example.com/"; anchorHrefAttribute := Some (js "https://example.com/");
     anchorInnerText := []; anchorTextContent := js " " |}.

Definition emptyLink : Anchor :=
  {| anchorHref := js "https://example.com/"; anchorHrefAttribute := Some (js "https://example.com/");
     anchorInnerText := []; anchorTextContent := [] |}.

Definition twoLinks : AnswerNode :=
  {| anchors := [blankLink; emptyLink]; markers := []; sourceLike := fun _ => [] |}.

(** [p] occurs in [s] as a contiguous block. *)
Definition isSubstringOf (p s : jsstring) : Prop :=
  exists before behind, s = before ++ p ++ behind.

(** The number of elements of a query that report themselves visible. *)
Definition visibleAmong (elements : list Element) : nat :=
  length (List.filter
            (fun el => match isVisible el with Ok true => true | _ => false end)
            elements).

(** The same for a selector of a page; a query that throws shows nothing. *)
Definition visibleFor (page : Page) (selector : string) : nat :=
  match queryAll page selector with
  | Ok elements => visibleAmong elements
  | Throws _ => 0%nat
  end.

(** ** Notions used to state the properties of the loop *)

(** Two states with the same poll count, stability record and known set. *)
Definition sameDetection (st st' : PollState) : Prop :=
  pollCount st' = pollCount st /\ lastCandidate st' = lastCandidate st
  /\ stableCount st' = stableCount st /\ knownHashes st' = knownHashes st.

(** Three equal entries in a row somewhere in a list of candidates. *)
Definition hasTriple (cs : list jsstring) : Prop :=
  exists before x behind, cs = before ++ [x; x; x] ++ behind.

(** The stability record against the candidates counted so far: the counter
    is at most 2, no three equal candidates in a row have been counted, and
    the list ends with a row of exactly [stableCount] copies of
    [lastCandidate]. *)
Definition stabilityInvariant (countedSoFar : list jsstring) (st : PollState) : Prop :=
  (stableCount st <= 2)%nat /\ ~ hasTriple countedSoFar /\
  match lastCandidate st with
  | None => countedSoFar = [] /\ stableCount st = 0%nat
  | Some x =>
      exists before,
        countedSoFar = before ++ replicate (stableCount st) x
        /\ (1 <= stableCount st)%nat /\ last before <> Some x
  end.

(** A text that is not empty, carries no white space at its ends, and whose
    fingerprint the known set does not hold. *)
Definition newText (knownHashes : gset Z) (t : jsstring) : Prop :=
  truthy t = true /\ trim t = t /\ knows knownHashes (hashString t) = false.

(** [t] was the trimmed candidate of three polls in a row. *)
Definition onThreeConsecutivePolls (log : list (option jsstring)) (t : jsstring) : Prop :=
  exists before c1 c2 c3 behind,
    log = before ++ [Some c1; Some c2; Some c3] ++ behind
    /\ trim c1 = t /\ trim c2 = t /\ trim c3 = t.

Section Reaching.

Variable toLowerCase : jsstring -> jsstring.
Variable world : World.
Variable options : Options.

(** [laterHead st st']: from the loop head in state [st] the loop comes to
    its head in state [st'], after any number of iterations. *)
Inductive laterHead (st : PollState) : PollState -> Prop :=
| laterHead_here : laterHead st st
| laterHead_round (st' st'' : PollState) (candidate : option jsstring) :
    laterHead st st' ->
    pollBody toLowerCase world options (tick st') = (candidate, Continue st'') ->
    laterHead st st''.

End Reaching.

(** The loop heads the examples come to. *)
Definition racingHead : PollState :=
  {| pollCount := 120; lastCandidate := None; stableCount := 0;
     fastPollStreak := 120; knownHashes := ∅; ticks := 361 |}.

Definition emptyHead : PollState :=
  {| pollCount := 1; lastCandidate := None; stableCount := 0;
     fastPollStreak := 1; knownHashes := ∅; ticks := 4 |}.

(** A string that does not begin with white space. *)
Definition headClean (s : jsstring) : Prop :=
  match s with [] => True | c :: _ => isSpace c = false end.

(** ** snapshotAllResponses and snapshotLatestResponse *)

(** The loop over the containers; every error of a container is swallowed. *)
Fixpoint snapshotLoop (allTexts : list jsstring) (containers : list Container)
  : list jsstring :=
  match containers with
  | [] => allTexts
  | container :: rest =>
      match container with
      | TextElement (Ok text) =>
          if nonBlank text
          then snapshotLoop (allTexts ++ [trim text]) rest
          else snapshotLoop allTexts rest
      | TextElement (Throws _) | ContainerFails _ | NoTextElement =>
          snapshotLoop allTexts rest
      end
  end.

(** A failing query is logged and gives the empty list. *)
Definition snapshotAllResponses (page : Page) : list jsstring :=
  match toUserContainers page with
  | Throws _ => []
  | Ok containers =>
      if (0 <? length containers)%nat then snapshotLoop [] containers else []
  end.

(** [extractLatestText(page, new Set(), false, 0)] *)
Definition snapshotLatestResponse (page : Page) : Traced (Result (option jsstring)) :=
  extractLatestText page ∅.

(** ** findResponseContainerForAnswer and extractSourcesForAnswer *)

(** A [.to-user-container] at the time the sources are read: its message
    text, and what [container.evaluate] of the harvesting function gives. *)
Record AnswerContainer : Type := {
  messageText : Container;
  evaluated : Result AnswerNode
}.

(** The loop from the last container to the first, on the reversed list. *)
Fixpoint matchFromEnd (answer : jsstring) (reversed : list AnswerContainer)
  : Result (option AnswerContainer) :=
  match reversed with
  | [] => Ok None
  | container :: rest =>
      let catch (error : Thrown) : Result (option AnswerContainer) :=
        match throwIfRecoverableBrowserError error
                "Browser page unavailable while matching answer container for source extraction" with
        | Some thrown => Throws thrown
        | None => matchFromEnd answer rest
        end in
      match messageText container with
      | ContainerFails error => catch error
      | NoTextElement => matchFromEnd answer rest
      | TextElement (Throws error) => catch error
      | TextElement (Ok text) =>
          if negb (truthy text) || negb (truthy (trim text))
          then matchFromEnd answer rest
          else if isLikelySameAnswer text answer
          then Ok (Some container)
          else matchFromEnd answer rest
      end
  end.

(** [containers] is what [page.$$(".to-user-container")] gives. *)
Definition findResponseContainerForAnswer
    (containers : Result (list AnswerContainer)) (answer : jsstring)
  : Result (option AnswerContainer) :=
  match containers with
  | Throws error => Throws error
  | Ok containers => matchFromEnd answer (rev containers)
  end.

Definition sourcesCatch (error : Thrown) : Result (list SourceReference) :=
  match throwIfRecoverableBrowserError error
          "Browser page unavailable while extracting sources from answer container" with
  | Some thrown => Throws thrown
  | None => Ok []
  end.

Definition extractSourcesForAnswer (toLowerCase : jsstring -> jsstring)
    (containers : Result (list AnswerContainer)) (answer : jsstring)
  : Result (list SourceReference) :=
  match findResponseContainerForAnswer containers answer with
  | Throws error => sourcesCatch error
  | Ok None => Ok []
  | Ok (Some container) =>
      match evaluated container with
      | Throws error => sourcesCatch error
      | Ok node => Ok (extractSourcesFromContainer toLowerCase node)
      end
  end.

(** A settled promise of [waitForLatestAnswerWithSources]. *)
Inductive AnswerWithSources : Type :=
| ResolvedWith (answer : option jsstring) (sources : list SourceReference)
| RejectedWith (error : Thrown).

(** [containers] is what the page shows once the answer has been returned. *)
Definition waitForLatestAnswerWithSources (toLowerCase : jsstring -> jsstring)
    (world : World) (options : Options) (containers : Result (list AnswerContainer))
  : AnswerWithSources :=
  match waitForLatestAnswer toLowerCase world options with
  | Rejected error => RejectedWith error
  | Resolved None => ResolvedWith None []
  | Resolved (Some answer) =>
      if negb (truthy answer) then ResolvedWith None []
      else match extractSourcesForAnswer toLowerCase containers answer with
           | Throws error => RejectedWith error
           | Ok sources => ResolvedWith (Some answer) sources
           end
  end.

(** ** Notions used to state the further properties *)

(** Every white-space code unit is a space and is followed by none. *)
Fixpoint collapsed (s : jsstring) : bool :=
  match s with
  | [] => true
  | x :: r =>
      (if isSpace x
       then (x =? 32) && match r with y :: _ => negb (isSpace y) | [] => true end
       else true)
      && collapsed r
  end.

(** A text in the form [normalizeText] gives: single spaces inside, none at
    the ends. *)
Definition inNormalForm (s : jsstring) : Prop :=
  collapsed s = true /\ headClean s /\ headClean (rev s).

(** The polynomial in 31 of the code units, before any wrap-around. *)
Definition polynomial31 (str : jsstring) : Z :=
  fold_left (fun hash char => 31 * hash + char) str 0.

(** The texts of the containers that can be read, in DOM order. *)
Definition readableTexts (containers : list Container) : list jsstring :=
  omap (fun container =>
          match container with
          | TextElement (Ok text) => Some text
          | _ => None
          end) containers.

(** No container fails with a browser-state error. *)
Definition noRecoverableFailure (containers : list Container) : Prop :=
  Forall (fun container =>
            match container with
            | ContainerFails error | TextElement (Throws error) =>
                isRecoverableBrowserError error = false
            | _ => True
            end) containers.

(** The page operations of the primary path. *)
Definition isPrimaryOp (op : PageOp) : bool :=
  match op with
  | QueryAll selector => String.eqb selector primarySelector
  | QueryTextElement _ | ReadInnerText _ => true
  | ResolveClosest _ _ | ReadElementText _ _ | EvaluateScan => false
  end.

(** An error the module throws for a browser-state failure: recognised by
    [isRecoverableBrowserError], with a context in front of its cause. *)
Definition contextualRecoverable (error : Thrown) : Prop :=
  isRecoverableBrowserError error = true
  /\ exists context cause, error = Contextual context cause.

(** The test of the primary path on the text of a container. *)
Definition isNewText (knownHashes : gset Z) (text : jsstring) : bool :=
  nonBlank text && negb (knows knownHashes (textHash text)).

(** The errors that leave the polling loop: browser-state errors, and what
    the wait at the end of a poll throws when it is not one. *)
Definition escapes (world : World) (error : Thrown) : Prop :=
  isRecoverableBrowserError error = true
  \/ exists n, pollWait (polls world n) = WaitThrows error
               /\ isRecoverableBrowserError error = false.

(** Further example worlds: the old answer alone, and the old answer
    followed by the new one, at every poll. *)
Definition berlinPage : Page :=
  pageOf [answerContainer "Berlin is the capital of Germany."].

Definition berlinWorld : World :=
  {| clock := steadyClock; polls := fun _ => calmPoll berlinPage |}.

Definition berlinThenParisWorld : World :=
  {| clock := steadyClock;
     polls := fun _ => calmPoll (pageOf [answerContainer "Berlin is the capital of Germany.";
                                         answerContainer "Paris."]) |}.

Definition noPatience : Options :=
  {| question := []; timeoutMs := 0; pollIntervalMs := 1000; ignoreTexts := [] |}.

(** The test of [findResponseContainerForAnswer] on one container. *)
Definition matchesAnswer (answer : jsstring) (container : AnswerContainer) : bool :=
  match messageText container with
  | TextElement (Ok text) =>
      truthy text && truthy (trim text) && isLikelySameAnswer text answer
  | _ => false
  end.

(** A reference as the harvest builds it: a title that is not empty, every
    field in the form [normalizeText] gives, an address that is present only
    as an http or https address, and without an address a title that is
    neither a number nor one of the noise labels. *)
Definition wellFormedReference (toLowerCase : jsstring -> jsstring)
    (source : SourceReference) : Prop :=
  title source <> [] /\ inNormalForm (title source)
  /\ raw_text source <> [] /\ inNormalForm (raw_text source)
  /\ match url source with
     | Some u => u <> [] /\ inNormalForm u /\ isHttpUrl u = true
     | None =>
         isNoiseLabel toLowerCase (title source) = false
         /\ isNumericOnly (title source) = false
     end.

(** Three containers at the time the sources are read: the answer, another
    text, and the answer again with white space around it. *)
Definition noLinks : AnswerNode :=
  {| anchors := []; markers := []; sourceLike := fun _ => [] |}.

Definition earlierParis : AnswerContainer :=
  {| messageText := answerContainer "Paris."; evaluated := Ok twoLinks |}.

Definition berlinBetween : AnswerContainer :=
  {| messageText := answerContainer "Berlin is the capital of Germany.";
     evaluated := Ok noLinks |}.

Definition latestParis : AnswerContainer :=
  {| messageText := answerContainer " Paris.  "; evaluated := Ok noLinks |}.

(** The reference [addRef] pushes for a normalized title and a normalized
    address filed under [key]. *)
Definition filedUnder (toLowerCase : jsstring -> jsstring)
    (key : jsstring) (source : SourceReference) : Prop :=
  exists normalizedTitle normalizedUrl,
    key = refKey toLowerCase normalizedTitle normalizedUrl
    /\ (truthy normalizedTitle = true \/ truthy normalizedUrl = true)
    /\ title source
       = orElse normalizedTitle (orElse normalizedUrl (js "Untitled source"))
    /\ url source = (if truthy normalizedUrl then Some normalizedUrl else None).

(** The [unique] set and [refs] go together: the references were filed, in
    order, under keys that differ from each other and are all in the set. *)
Definition filed (toLowerCase : jsstring -> jsstring) (state : Harvest) : Prop :=
  exists keys,
    NoDup keys
    /\ Forall (fun key => key ∈ fst state) keys
    /\ Forall2 (filedUnder toLowerCase) keys (snd state).

(** The loop head [echoWorld] comes to after one round. *)
Definition echoHead : PollState :=
  {| pollCount := 1; lastCandidate := None; stableCount := 0;
     fastPollStreak := 1;
     knownHashes := {[ hashString (js "what is the capital of France?") ]} ∪ ∅;
     ticks := 4 |}.

(** [text] is the trimmed, non-blank text of a visible element that one of
    the selectors of the in-page scan matches. *)
Definition shownBy (document : string -> list DocElement) (text : jsstring) : Prop :=
  exists selector el,
    In selector scanSelectorsOfLastResort /\ In el (document selector)
    /\ docVisible el = true
    /\ truthy (trim (orElse (docInnerText el) (docTextContent el))) = true
    /\ text = trim (orElse (docInnerText el) (docTextContent el)).

(** ** The settings manager *)

(** [Settings], as [normalizeSettings] leaves them: a profile name, the
    names of the disabled tools, and the custom setting, which is always a
    boolean there.  The strings are those of the settings file. *)
Record Settings : Type := {
  profile : jsstring;
  disabledTools : list jsstring;
  alwaysIncludeSources : bool
}.

(** The three environment variables [getEffectiveSettings] reads; [None]
    for a variable that is not set. *)
Record Environment : Type := {
  envProfile : option jsstring;              (* NOTEBOOKLM_PROFILE *)
  envDisabled : option jsstring;             (* NOTEBOOKLM_DISABLED_TOOLS *)
  envAlwaysIncludeSources : option jsstring  (* NOTEBOOKLM_ALWAYS_INCLUDE_SOURCES *)
}.

Definition minimalTools : list jsstring :=
  [ js "ask_question"; js "get_health"; js "list_notebooks"; js "select_notebook";
    js "get_notebook" ].

Definition standardTools : list jsstring :=
  [ js "ask_question"; js "get_health"; js "list_notebooks"; js "select_notebook";
    js "get_notebook"; js "setup_auth"; js "list_sessions"; js "add_notebook";
    js "update_notebook"; js "search_notebooks" ].

Definition fullTools : list jsstring := [ js "*" ].

(** The own entries of [PROFILES]; [None] for any other name. *)
Definition PROFILES (name : jsstring) : option (list jsstring) :=
  if strEq name (js "minimal") then Some minimalTools
  else if strEq name (js "standard") then Some standardTools
  else if strEq name (js "full") then Some fullTools
  else None.

(** [list.includes(name)] *)
Definition includesName (names : list jsstring) (name : jsstring) : bool :=
  existsb (strEq name) names.

(** [value.split(",")]: the pieces between the commas, of which there is
    always at least one. *)
Fixpoint splitAtCommas (value : jsstring) : list jsstring :=
  match value with
  | [] => [[]]
  | c :: rest =>
      if c =? 44 then [] :: splitAtCommas rest
      else match splitAtCommas rest with
           | piece :: pieces => (c :: piece) :: pieces
           | [] => [[c]]
           end
  end.

(** [[...new Set(names)]]: each name once, in the order of first
    occurrence. *)
Definition setToArray (names : list jsstring) : list jsstring :=
  fold_left (fun seen name => if includesName seen name then seen else seen ++ [name])
    names [].

Section SettingsManager.

Variable toLowerCase : jsstring -> jsstring.

(** Whether [PROFILES[name]] is truthy for a [name] that is none of the
    three own keys: the lookup then goes to the prototype of the object. *)
Variable inheritedMember : jsstring -> bool.

Definition parseBooleanOverride (value : option jsstring) : option bool :=
  match value with
  | None => None
  | Some value =>
      let lower := toLowerCase (trim value) in
      if strEq lower (js "true") || strEq lower (js "1") then Some true
      else if strEq lower (js "false") || strEq lower (js "0") then Some false
      else None
  end.

(** [envProfile && PROFILES[envProfile]] *)
Definition namesProfile (name : jsstring) : bool :=
  truthy name
  && match PROFILES name with
     | Some _ => true
     | None => inheritedMember name
     end.

Definition getEffectiveSettings (settings : Settings) (env : Environment) : Settings :=
  let effectiveProfile :=
    match envProfile env with
    | Some name => if namesProfile name then name else profile settings
    | None => profile settings
    end in
  let effectiveDisabled :=
    match envDisabled env with
    | Some value =>
        if truthy value
        then setToArray (disabledTools settings ++ List.map trim (splitAtCommas value))
        else disabledTools settings
    | None => disabledTools settings
    end in
  {| profile := effectiveProfile;
     disabledTools := effectiveDisabled;
     alwaysIncludeSources :=
       match parseBooleanOverride (envAlwaysIncludeSources env) with
       | Some override => override
       | None => alwaysIncludeSources settings
       end |}.

Definition getAlwaysIncludeSources (settings : Settings) (env : Environment) : bool :=
  alwaysIncludeSources (getEffectiveSettings settings env).

(** The callback of [allTools.filter], on the name of the tool. *)
Definition exposes (allowedTools disabled : list jsstring) (name : jsstring) : bool :=
  if negb (includesName allowedTools (js "*")) && negb (includesName allowedTools name)
  then false
  else if includesName disabled name then false
  else true.

(** [filterTools], for tools of any type that carry a name.  [None] when the
    effective profile is no own key of [PROFILES]: [allowedTools] is then
    not one of the three lists, and the call of [includes] on it is left
    outside. *)
Definition filterTools {Tool : Type} (toolName : Tool -> jsstring)
    (settings : Settings) (env : Environment) (allTools : list Tool)
  : option (list Tool) :=
  let effective := getEffectiveSettings settings env in
  match PROFILES (profile effective) with
  | Some allowedTools =>
      Some (List.filter
              (fun tool => exposes allowedTools (disabledTools effective) (toolName tool))
              allTools)
  | None => None
  end.

End SettingsManager.

(** The names an environment disables: the trimmed pieces of
    [NOTEBOOKLM_DISABLED_TOOLS], when it is set and not empty. *)
Definition disabledByEnvironment (env : Environment) : list jsstring :=
  match envDisabled env with
  | Some value => if truthy value then List.map trim (splitAtCommas value) else []
  | None => []
  end.

(** Stored settings and an environment for the examples. *)
Definition storedStandard : Settings :=
  {| profile := js "standard"; disabledTools := [js "add_notebook"];
     alwaysIncludeSources := true |}.

Definition disablingEnvironment : Environment :=
  {| envProfile := None;
     envDisabled := Some (js "setup_auth, add_notebook ,list_sessions");
     envAlwaysIncludeSources := None |}.

(** A question with two spaces in a row, and a page that shows it with one
    at every poll. *)
Definition spacedQuestion : Options :=
  {| question := js "What is the  capital of France?"; timeoutMs := 120000;
     pollIntervalMs := 1000; ignoreTexts := [] |}.

Definition collapsedEchoWorld : World :=
  {| clock := steadyClock;
     polls := fun _ => calmPoll (pageOf [answerContainer "What is the capital of France?"]) |}.

(** The primary query fails with an error that is not a browser-state error,
    no fallback selector matches, and the in-page scan sees the echo of the
    question; four seconds of patience. *)
Definition echoMessage : DocElement :=
  {| nodeId := 0; isConnected := true; rectEmpty := false; styleHidden := false;
     docInnerText := js "What is the capital of France?"; docTextContent := [] |}.

Definition echoScanPage : Page :=
  {| toUserContainers := Throws (PageFailure false "Frame was detached");
     queryAll := fun _ => Ok [];
     evaluateScan := Ok (fun selector =>
       if String.eqb selector "[data-message-author]" then [echoMessage] else []) |}.

Definition echoScanWorld : World :=
  {| clock := steadyClock; polls := fun _ => calmPoll echoScanPage |}.

Definition briefQuestion : Options :=
  {| question := js "What is the capital of France?"; timeoutMs := 4000;
     pollIntervalMs := 1000; ignoreTexts := [] |}.

(** ** The calls of the extractor *)

Section ExtractorCalls.

Variable toLowerCase : jsstring -> jsstring.
Variable world : World.
Variable options : Options.

(** The loop body once more, this time with the call of [extractLatestText]
    it makes: [None] when the iteration ends without calling it, and the
    page operations of the call when it does. *)
Definition extractAndDetectCalled (st : PollState)
  : option (list PageOp) * (option jsstring * Step) :=
  (Some (fst (extractLatestText (page (polls world (pollCount st))) (knownHashes st))),
   extractAndDetect toLowerCase world options st).

Definition thinkingCatchCalled (error : Thrown) (st : PollState)
  : option (list PageOp) * (option jsstring * Step) :=
  match throwIfRecoverableBrowserError error
          "Browser page unavailable while checking thinking indicator" with
  | Some thrown => (None, (None, Throw thrown))
  | None => extractAndDetectCalled st
  end.

Definition pollBodyCalled (st : PollState)
  : option (list PageOp) * (option jsstring * Step) :=
  let st := nextPoll st in
  let this := polls world (pollCount st) in
  let health :=
    if (pollCount st mod HEALTH_CHECK_INTERVAL_POLLS =? 0)%nat
    then assertPageResponsive (periodicProbe this) HEALTH_CHECK_TIMEOUT_MS
    else None in
  match health with
  | Some error => (None, (None, Throw error))
  | None =>
      match thinking this with
      | ThinkingQueryFails error => thinkingCatchCalled error st
      | NoThinkingElement => extractAndDetectCalled st
      | ThinkingElement (Throws error) => thinkingCatchCalled error st
      | ThinkingElement (Ok false) => extractAndDetectCalled st
      | ThinkingElement (Ok true) =>
          match waitForPollInterval world (thinkingWait this)
                  (safePollIntervalMs options) st with
          | (st, Some error) => thinkingCatchCalled error st
          | (st, None) => (None, (None, Continue st))
          end
      end
  end.

(** The calls of the extractor during the loop, one entry per iteration. *)
Fixpoint extractorCallsFrom (remaining : nat) (st : PollState)
  : list (option (list PageOp)) :=
  let now := clock world (ticks st) in
  let st := tick st in
  if now <? deadline world options
  then match remaining with
       | O => []
       | S remaining =>
           match pollBodyCalled st with
           | (call, (_, Continue st)) => call :: extractorCallsFrom remaining st
           | (call, _) => [call]
           end
       end
  else [].

Definition extractorCalls : list (option (list PageOp)) :=
  extractorCallsFrom (maxPolls options) (initialState options).

End ExtractorCalls.

(** Two links to one address: one whose text is the address in upper case,
    one whose text is a bare citation number. *)
Definition upperCaseLink : Anchor :=
  {| anchorHref := js "https://example.com/";
     anchorHrefAttribute := Some (js "https://example.com/");
     anchorInnerText := js "HTTPS://EXAMPLE.COM/"; anchorTextContent := js "HTTPS://EXAMPLE.COM/" |}.

Definition numberedLink : Anchor :=
  {| anchorHref := js "https://example.com/";
     anchorHrefAttribute := Some (js "https://example.com/");
     anchorInnerText := js "1."; anchorTextContent := js "1." |}.

Definition namedAndNumbered : AnswerNode :=
  {| anchors := [upperCaseLink; numberedLink]; markers := []; sourceLike := fun _ => [] |}.

Definition numberedReference : SourceReference :=
  {| title := js "https://example.com/";
     url := Some (js "https://example.com/");
     raw_text := js "1." |}.

Definition upperCaseReference : SourceReference :=
  {| title := js "HTTPS://EXAMPLE.COM/";
     url := Some (js "https://example.com/");
     raw_text := js "HTTPS://EXAMPLE.COM/" |}.

(** * Properties *)

(** ** Text helpers *)

Lemma dropSpaces_split (s : jsstring) :
  exists ws, s = ws ++ dropSpaces s /\ forallb isSpace ws = true.
Proof.
  induction s as [|c r [ws [Hr Hws]]]; simpl.
  - exists []. auto.
  - destruct (isSpace c) eqn:Hc.
    + exists (c :: ws). simpl. rewrite Hc, Hws. split; [congruence | reflexivity].
    + exists []. auto.
Qed.

Lemma dropSpaces_headClean (s : jsstring) : headClean (dropSpaces s).
Proof.
  induction s as [|c r IH]; simpl; [exact I |].
  destruct (isSpace c) eqn:Hc; [exact IH | simpl; exact Hc].
Qed.

Lemma dropSpaces_id (s : jsstring) : headClean s -> dropSpaces s = s.
Proof.
  destruct s as [|c r]; simpl; [reflexivity |].
  intros ->. reflexivity.
Qed.

Lemma trim_headClean (s : jsstring) : headClean (trim s).
Proof.
  unfold trim.
  pose proof (dropSpaces_headClean s) as Hu.
  destruct (dropSpaces_split (rev (dropSpaces s))) as [ws [Hsplit _]].
  set (v := dropSpaces (rev (dropSpaces s))) in *.
  assert (Hu' : dropSpaces s = rev v ++ rev ws).
  { rewrite <- rev_app_distr, <- Hsplit, rev_involutive. reflexivity. }
  destruct (rev v) as [|c t] eqn:Hv; simpl; [exact I |].
  rewrite Hu' in Hu. exact Hu.
Qed.

Lemma trim_lastClean (s : jsstring) : headClean (rev (trim s)).
Proof.
  unfold trim. rewrite rev_involutive. apply dropSpaces_headClean.
Qed.

Lemma trim_idempotent (s : jsstring) : trim (trim s) = trim s.
Proof.
  pose proof (trim_headClean s) as Hhead.
  pose proof (trim_lastClean s) as Hlast.
  unfold trim at 1.
  rewrite (dropSpaces_id _ Hhead), (dropSpaces_id _ Hlast).
  apply rev_involutive.
Qed.

Lemma truthy_nonempty (s : jsstring) : truthy s = true <-> s <> [].
Proof. destruct s; simpl; split; congruence. Qed.

Lemma strEq_true (a b : jsstring) : strEq a b = true <-> a = b.
Proof. unfold strEq. apply bool_decide_eq_true. Qed.

Lemma startsWith_spec (p s : jsstring) :
  startsWith s p = true <-> exists behind, s = p ++ behind.
Proof.
  revert s. induction p as [|x p IH]; intros s; simpl.
  - split; [intros _; exists s; reflexivity | reflexivity].
  - destruct s as [|y s]; simpl.
    + split; [discriminate | intros [behind H]; discriminate].
    + rewrite andb_true_iff, Z.eqb_eq, IH. split.
      * intros [-> [behind ->]]. exists behind. reflexivity.
      * intros [behind H]. injection H as -> ->. eauto.
Qed.

Lemma includes_spec (s p : jsstring) :
  includes s p = true <-> isSubstringOf p s.
Proof.
  unfold isSubstringOf. induction s as [|y s IH].
  - simpl. rewrite orb_false_r, startsWith_spec. split.
    + intros [behind H]. exists [], behind. exact H.
    + intros [before [behind H]]. destruct before; simpl in H.
      * exists behind. exact H.
      * discriminate.
  - cbn [includes]. rewrite orb_true_iff, startsWith_spec, IH. split.
    + intros [[behind H] | [before [behind H]]].
      * exists [], behind. exact H.
      * exists (y :: before), behind. simpl. congruence.
    + intros [before [behind H]]. destruct before as [|z before]; simpl in H.
      * left. exists behind. exact H.
      * right. injection H as _ H. exists before, behind. exact H.
Qed.

(** [C8] [isLikelySameAnswer a b] holds exactly when, for the two
    normalized texts, neither is empty and either they are equal or both have
    at least 80 code units and one occurs inside the other; so when one of
    the two is shorter than 80 code units only equality matches. *)
Theorem isLikelySameAnswer_spec (a b : jsstring) :
  (isLikelySameAnswer a b = true <->
     normalizeText a <> [] /\ normalizeText b <> [] /\
     (normalizeText a = normalizeText b \/
      ((80 <= length (normalizeText a))%nat /\ (80 <= length (normalizeText b))%nat /\
       (isSubstringOf (normalizeText b) (normalizeText a) \/
        isSubstringOf (normalizeText a) (normalizeText b)))))
  /\
  (((length (normalizeText a) < 80)%nat \/ (length (normalizeText b) < 80)%nat) ->
     (isLikelySameAnswer a b = true <->
        normalizeText a <> [] /\ normalizeText a = normalizeText b)).
Proof.
  assert (Hmain : isLikelySameAnswer a b = true <->
     normalizeText a <> [] /\ normalizeText b <> [] /\
     (normalizeText a = normalizeText b \/
      ((80 <= length (normalizeText a))%nat /\ (80 <= length (normalizeText b))%nat /\
       (isSubstringOf (normalizeText b) (normalizeText a) \/
        isSubstringOf (normalizeText a) (normalizeText b))))).
  { unfold isLikelySameAnswer, jsLength.
    set (na := normalizeText a). set (nb := normalizeText b).
    destruct (truthy na) eqn:Ha; simpl.
    2:{ apply not_true_iff_false in Ha. rewrite truthy_nonempty in Ha.
        split; [discriminate | intros [H _]; tauto]. }
    destruct (truthy nb) eqn:Hb; simpl.
    2:{ apply not_true_iff_false in Hb. rewrite truthy_nonempty in Hb.
        split; [discriminate | intros [_ [H _]]; tauto]. }
    apply truthy_nonempty in Ha. apply truthy_nonempty in Hb.
    destruct (strEq na nb) eqn:Heq.
    { apply strEq_true in Heq. split; [intros _ | reflexivity]. auto. }
    assert (Hne : na <> nb).
    { intros H. apply strEq_true in H. congruence. }
    destruct ((80 <=? Z.of_nat (length na)) && (80 <=? Z.of_nat (length nb))) eqn:Hlen.
    - apply andb_true_iff in Hlen as [La Lb].
      apply Z.leb_le in La, Lb.
      rewrite orb_true_iff, !includes_spec. split.
      + intros H. repeat split; auto. right. repeat split; auto; lia.
      + intros [_ [_ [H | [_ [_ H]]]]]; [contradiction | exact H].
    - split; [discriminate |].
      intros [_ [_ [H | [La [Lb _]]]]]; [contradiction |].
      apply andb_false_iff in Hlen as [H | H]; apply Z.leb_gt in H; lia. }
  split; [exact Hmain |].
  intros Hshort. rewrite Hmain. split.
  - intros [Ha [Hb [Heq | [La [Lb _]]]]]; [auto | lia].
  - intros [Ha Heq]. repeat split; auto. congruence.
Qed.

(** ** Fingerprints *)

Lemma toInt32_range (z : Z) : - 2 ^ 31 <= toInt32 z < 2 ^ 31.
Proof.
  unfold toInt32.
  pose proof (Z.mod_pos_bound (z + 2 ^ 31) (2 ^ 32) ltac:(lia)). lia.
Qed.

Lemma toInt32_small (z : Z) : - 2 ^ 31 <= z < 2 ^ 31 -> toInt32 z = z.
Proof.
  intros H. unfold toInt32. rewrite Z.mod_small; lia.
Qed.

Lemma hashStep_range (hash char : Z) : - 2 ^ 31 <= hashStep hash char < 2 ^ 31.
Proof. unfold hashStep. rewrite Z.land_diag. apply toInt32_range. Qed.

(** The hash stays in the range of a signed 32-bit integer. *)
Lemma hashString_range (str : jsstring) : - 2 ^ 31 <= hashString str < 2 ^ 31.
Proof.
  unfold hashString.
  assert (H : forall h, - 2 ^ 31 <= h < 2 ^ 31 -> - 2 ^ 31 <= fold_left hashStep str h < 2 ^ 31).
  { induction str as [|c r IH]; intros h Hh; simpl; [exact Hh |].
    apply IH, hashStep_range. }
  apply H. lia.
Qed.

(** [C4] The fingerprint is taken of the trimmed text, not of the text with
    its inner white space collapsed: two texts that are equal once trimmed
    have the same fingerprint, a 32-bit signed integer, and the known set
    answers alike for both. *)
Theorem textHash_of_trimmed (a b : jsstring) :
  trim a = trim b ->
  textHash a = textHash b
  /\ - 2 ^ 31 <= textHash a < 2 ^ 31
  /\ forall knownHashes, knows knownHashes (textHash a) = knows knownHashes (textHash b).
Proof.
  intros H. unfold textHash. rewrite H.
  split; [reflexivity |]. split; [apply hashString_range | reflexivity].
Qed.

Lemma textHash_of_trimmed_witness :
  trim (js "  a b ") = trim (js "a b") /\ textHash (js "  a b ") = textHash (js "a b").
Proof.
  split; [reflexivity |].
  apply (textHash_of_trimmed (js "  a b ") (js "a b")). reflexivity.
Defined.

(** Texts that differ only in the width of an inner gap are equal after
    [normalizeText] and have different fingerprints. *)
Lemma textHash_not_of_normalized :
  ~ (forall a b : jsstring, normalizeText a = normalizeText b -> textHash a = textHash b).
Proof.
  intros H. specialize (H (js "a b") (js "a  b") eq_refl).
  vm_compute in H. discriminate H.
Qed.

(** ** countResponseElements *)

Lemma countVisible_spec (count : nat) (elements : list Element) :
  countVisible count elements = (count + visibleAmong elements)%nat.
Proof.
  revert count. unfold visibleAmong.
  induction elements as [|el rest IH]; intros count; simpl; [lia |].
  destruct (isVisible el) as [[|] | ?]; rewrite IH; simpl; lia.
Qed.

Lemma countLoop_spec (page : Page) (selectors : list string) :
  countLoop page 0 selectors =
  match List.find (fun selector => (0 <? visibleFor page selector)%nat) selectors with
  | Some selector => visibleFor page selector
  | None => 0%nat
  end.
Proof.
  induction selectors as [|selector rest IH]; [reflexivity |].
  cbn [countLoop List.find].
  destruct (queryAll page selector) as [elements | error] eqn:Hquery.
  - assert (Hvisible : visibleFor page selector = visibleAmong elements)
      by (unfold visibleFor; rewrite Hquery; reflexivity).
    rewrite Hvisible, countVisible_spec, Nat.add_0_l.
    destruct (0 <? visibleAmong elements)%nat eqn:Hvis.
    + destruct (0 <? length elements)%nat eqn:Hlen;
        [cbv iota beta; rewrite Hvisible; reflexivity |].
      apply Nat.ltb_ge in Hlen. destruct elements; [discriminate Hvis | simpl in Hlen; lia].
    + apply Nat.ltb_ge in Hvis.
      replace (visibleAmong elements) with 0%nat by lia.
      destruct (0 <? length elements)%nat; exact IH.
  - assert (Hvisible : visibleFor page selector = 0%nat)
      by (unfold visibleFor; rewrite Hquery; reflexivity).
    rewrite Hvisible. exact IH.
Qed.

(** [C10] [countResponseElements] is the number of visible elements of the
    first selector of [RESPONSE_SELECTORS] that has a visible element, and 0
    when no selector has one; what later selectors match is not counted. *)
Theorem countResponseElements_first_visible (page : Page) :
  countResponseElements page =
  match List.find (fun selector => (0 <? visibleFor page selector)%nat)
          RESPONSE_SELECTORS with
  | Some selector => visibleFor page selector
  | None => 0%nat
  end.
Proof. apply countLoop_spec. Qed.

(** ** extractLatestText *)

(** [C6] When the primary query finds no more containers than the known set
    has fingerprints, the extractor returns no candidate and the query is the
    only page operation it performed: no container is read, no fallback
    selector is tried, the in-page scan is not run. *)
Theorem extractLatestText_early_exit
    (page : Page) (knownHashes : gset Z) (containers : list Container) :
  toUserContainers page = Ok containers ->
  (length containers <= size knownHashes)%nat ->
  extractLatestText page knownHashes = ([QueryAll primarySelector], Ok None).
Proof.
  intros Hquery Hsize.
  unfold extractLatestText, primaryExtraction, after. rewrite Hquery.
  apply Nat.leb_le in Hsize. rewrite Hsize. reflexivity.
Qed.

Lemma extractLatestText_early_exit_witness :
  extractLatestText
    (pageOf [answerContainer "Berlin is the capital of Germany."])
    (seedKnownHashes [js "Berlin is the capital of Germany."])
  = ([QueryAll primarySelector], Ok None).
Proof.
  apply (extractLatestText_early_exit _ _ [answerContainer "Berlin is the capital of Germany."]).
  - reflexivity.
  - vm_compute. lia.
Defined.

(** ** extractSourcesFromContainer *)

Lemma extractSourcesFromContainer_bounded
    (toLowerCase : jsstring -> jsstring) (container : AnswerNode) :
  (length (extractSourcesFromContainer toLowerCase container) <= 30)%nat.
Proof.
  unfold extractSourcesFromContainer, MAX_EXTRACTED_SOURCES.
  rewrite length_take. lia.
Qed.

(** [C7] For an answer holding two links to one address, one around white
    space only and one around no text, the extraction returns two references
    with the same title and the same url. *)
Theorem extractSourcesFromContainer_repeats_pair :
  exists source,
    extractSourcesFromContainer asciiLower twoLinks = [source; source]
    /\ title source = js "https://example.com/"
    /\ url source = Some (js "https://example.com/")
    /\ ~ NoDup (List.map (titleUrlPair asciiLower)
                  (extractSourcesFromContainer asciiLower twoLinks)).
Proof.
  eexists. split; [vm_compute; reflexivity |].
  split; [reflexivity |]. split; [reflexivity |].
  intros Hnodup.
  assert (Heq : List.map (titleUrlPair asciiLower)
                  (extractSourcesFromContainer asciiLower twoLinks)
                = [(js "https://example.com/", Some (js "https://example.com/"));
                   (js "https://example.com/", Some (js "https://example.com/"))])
    by (vm_compute; reflexivity).
  rewrite Heq in Hnodup.
  apply NoDup_cons in Hnodup as [Hnotin _]. apply Hnotin. left.
Qed.

(** ** The polling loop *)

Section PollingFacts.

Variable toLowerCase : jsstring -> jsstring.
Variable world : World.
Variable options : Options.

Local Abbreviation counted := (counted toLowerCase options).
Local Abbreviation pollBody := (pollBody toLowerCase world options).
Local Abbreviation extractAndDetect := (extractAndDetect toLowerCase world options).
Local Abbreviation endOfPoll := (endOfPoll world options).
Local Abbreviation pollLoop := (pollLoop toLowerCase world options).

Lemma sameDetection_refl (st : PollState) : sameDetection st st.
Proof. unfold sameDetection. auto. Qed.

Lemma sameDetection_trans (st1 st2 st3 : PollState) :
  sameDetection st1 st2 -> sameDetection st2 st3 -> sameDetection st1 st3.
Proof. unfold sameDetection. intuition congruence. Qed.

Lemma waitForPollInterval_same (wait : Wait) (interval : Z) (st st' : PollState)
    (thrown : option Thrown) :
  waitForPollInterval world wait interval st = (st', thrown) -> sameDetection st st'.
Proof.
  unfold waitForPollInterval, sameDetection. intros H.
  repeat case_match; simplify_eq; simpl; auto.
Qed.

Lemma endOfPoll_continue (st st' : PollState) :
  endOfPoll st = Continue st' -> sameDetection st st'.
Proof.
  unfold endOfPoll. intros H.
  destruct (waitForPollInterval world _ _ st) as [st1 [e|]] eqn:Hwait; [discriminate |].
  apply waitForPollInterval_same in Hwait.
  repeat case_match; simplify_eq; auto.
Qed.

Lemma endOfPoll_no_return (st : PollState) (answer : jsstring) :
  endOfPoll st <> Return answer.
Proof. unfold endOfPoll. repeat case_match; discriminate. Qed.

(** The two branches of the streaming detection. *)
Lemma detectStable_changed (normalized : jsstring) (st : PollState) :
  Some normalized <> lastCandidate st ->
  stableCount (detectStable normalized st) = 1%nat
  /\ lastCandidate (detectStable normalized st) = Some normalized.
Proof.
  intros H. unfold detectStable. rewrite bool_decide_eq_false_2 by exact H.
  simpl. auto.
Qed.

Lemma detectStable_unchanged (normalized : jsstring) (st : PollState) :
  Some normalized = lastCandidate st ->
  stableCount (detectStable normalized st) = S (stableCount st)
  /\ lastCandidate (detectStable normalized st) = Some normalized.
Proof.
  intros H. unfold detectStable. rewrite bool_decide_eq_true_2 by exact H.
  simpl. auto.
Qed.

Lemma detectStable_rest (normalized : jsstring) (st : PollState) :
  pollCount (detectStable normalized st) = pollCount st
  /\ knownHashes (detectStable normalized st) = knownHashes st.
Proof. unfold detectStable. case_bool_decide; simpl; auto. Qed.

(** What one run of the loop body from the extraction on can be: either the
    candidate is not counted and the stability record stays as it was, or
    it is counted, goes through the streaming detection, and is returned
    exactly when the counter has come to the required number. *)
Lemma extractAndDetect_inv (st : PollState) (candidate : option jsstring) (step : Step) :
  extractAndDetect st = (candidate, step) ->
  (counted candidate = None
   /\ ((exists error, step = Throw error)
       \/ (exists st', step = Continue st'
             /\ pollCount st' = pollCount st
             /\ lastCandidate st' = lastCandidate st
             /\ stableCount st' = stableCount st
             /\ knownHashes st ⊆ knownHashes st')))
  \/ (exists normalized,
        counted candidate = Some normalized
        /\ truthy normalized = true /\ trim normalized = normalized
        /\ if (requiredStablePolls <=? stableCount (detectStable normalized st))%nat
           then step = Return normalized
           else (exists error, step = Throw error)
                \/ (exists st', step = Continue st'
                      /\ sameDetection (detectStable normalized st) st')).
Proof.
  unfold extractAndDetect.
  assert (Hend : forall st0, (exists error, endOfPoll st0 = Throw error)
             \/ (exists st', endOfPoll st0 = Continue st' /\ sameDetection st0 st')).
  { intros st0. destruct (endOfPoll st0) as [st' | answer | error] eqn:Hstep.
    - right. exists st'. split; [reflexivity |]. apply endOfPoll_continue, Hstep.
    - exfalso. exact (endOfPoll_no_return _ _ Hstep).
    - left. eauto. }
  assert (Hskip : (exists error, endOfPoll st = Throw error)
                 \/ (exists st', endOfPoll st = Continue st'
                       /\ pollCount st' = pollCount st
                       /\ lastCandidate st' = lastCandidate st
                       /\ stableCount st' = stableCount st
                       /\ knownHashes st ⊆ knownHashes st')).
{ destruct (Hend st) as [He | [st' [Hst' (H1 & H2 & H3 & H4)]]]; [left; exact He |].
  right. exists st'. rewrite H4. auto. }
destruct (snd (extractLatestText _ _)) as [[c |] | error]; intros H;
  injection H as <- <-.
- unfold counted.
  destruct (truthy c) eqn:Hc; cbn [andb negb];
    [| left; split; [reflexivity | exact Hskip]].
  destruct (truthy (trim c)) eqn:Htrim; cbn [andb negb];
    [| left; split; [reflexivity | exact Hskip]].
  destruct (strEq _ _) eqn:Hecho; cbn [andb negb].
  + left. split; [reflexivity |].
    destruct (waitForPollInterval world _ _ _) as [st1 [e |]] eqn:Hwait;
      [left; eauto |].
    right. exists st1. split; [reflexivity |].
    apply waitForPollInterval_same in Hwait as (H1 & H2 & H3 & H4).
    cbn [pollCount lastCandidate stableCount knownHashes withKnown] in *.
    rewrite H4. repeat split; auto. apply union_subseteq_r.
  + right. exists (trim c). split; [reflexivity |].
    split; [exact Htrim |]. split; [apply trim_idempotent |].
    unfold requiredStablePolls.
    destruct (stableCount (detectStable (trim c) st)) as [|[|[|k]]]; cbn [Nat.leb];
      first [reflexivity | apply Hend].
- left. split; [reflexivity | exact Hskip].
- left. split; [reflexivity |]. left. eauto.
Qed.

(** The loop body before the extraction leaves the detection state alone. *)
Lemma pollBody_inv (st : PollState) (candidate : option jsstring) (step : Step) :
  pollBody st = (candidate, step) ->
  (candidate = None
   /\ ((exists error, step = Throw error)
       \/ (exists st', step = Continue st' /\ sameDetection (nextPoll st) st')))
  \/ (exists st1, sameDetection (nextPoll st) st1
                  /\ extractAndDetect st1 = (candidate, step)).
Proof.
  unfold pollBody, thinkingCatch. intros H.
  destruct (if (_ =? 0)%nat then _ else _) as [error |].
  { injection H as <- <-. left. eauto. }
  assert (Hhere : forall e, extractAndDetect (nextPoll st) = e ->
            exists st1, sameDetection (nextPoll st) st1 /\ extractAndDetect st1 = e).
  { intros e He. exists (nextPoll st). split; [apply sameDetection_refl | exact He]. }
  destruct (thinking _) as [error | | [[|] | error]].
  - destruct (throwIfRecoverableBrowserError error _).
    + injection H as <- <-. left. eauto.
    + right. apply Hhere, H.
  - right. apply Hhere, H.
  - destruct (waitForPollInterval world _ _ _) as [st1 [error |]] eqn:Hwait.
    + apply waitForPollInterval_same in Hwait.
      destruct (throwIfRecoverableBrowserError error _).
      * injection H as <- <-. left. eauto.
      * right. exists st1. auto.
    + apply waitForPollInterval_same in Hwait.
      injection H as <- <-. left. split; [reflexivity |]. right. eauto.
  - right. apply Hhere, H.
  - destruct (throwIfRecoverableBrowserError error _).
    + injection H as <- <-. left. eauto.
    + right. apply Hhere, H.
Qed.

Lemma stabilityInvariant_same (cs : list jsstring) (st st' : PollState) :
  lastCandidate st' = lastCandidate st -> stableCount st' = stableCount st ->
  stabilityInvariant cs st -> stabilityInvariant cs st'.
Proof. unfold stabilityInvariant. intros -> ->. auto. Qed.

Lemma hasTriple_snoc (cs : list jsstring) (n : jsstring) :
  hasTriple (cs ++ [n]) -> hasTriple cs \/ exists before, cs = before ++ [n; n].
Proof.
  intros (before & x & behind & Heq).
  destruct behind as [|y behind _] using rev_ind.
  - rewrite app_nil_r in Heq. change [x; x; x] with ([x; x] ++ [x]) in Heq.
    rewrite app_assoc in Heq. apply app_inj_tail in Heq as [-> ->].
    right. exists before. reflexivity.
  - rewrite !app_assoc in Heq. apply app_inj_tail in Heq as [-> _].
    left. exists before, x, behind. rewrite <- app_assoc. reflexivity.
Qed.

Lemma last_of_row (before : list jsstring) (k : nat) (x : jsstring) :
  (1 <= k)%nat -> last (before ++ replicate k x) = Some x.
Proof.
  destruct k as [|k]; [lia |]. intros _.
  cbn [replicate]. rewrite replicate_cons_app, app_assoc. apply last_snoc.
Qed.

(** The streaming detection on one more counted candidate: the record then
    holds that candidate, the counter is the length of the row of that
    candidate the list now ends with, at most 3, and below 3 the invariant
    holds again. *)
Lemma detectStable_invariant (cs : list jsstring) (normalized : jsstring) (st : PollState) :
  stabilityInvariant cs st ->
  lastCandidate (detectStable normalized st) = Some normalized
  /\ (exists before,
        cs ++ [normalized]
        = before ++ replicate (stableCount (detectStable normalized st)) normalized)
  /\ (stableCount (detectStable normalized st) <= 3)%nat
  /\ ((stableCount (detectStable normalized st) <= 2)%nat ->
      stabilityInvariant (cs ++ [normalized]) (detectStable normalized st)).
Proof.
  intros (Hle & Hno & Hrow). unfold stabilityInvariant.
  destruct (decide (Some normalized = lastCandidate st)) as [Heq | Hne].
  - destruct (detectStable_unchanged _ _ Heq) as [-> ->].
    rewrite <- Heq in Hrow. destruct Hrow as (before & -> & Hone & Hlast).
    assert (Hsnoc : (before ++ replicate (stableCount st) normalized) ++ [normalized]
                    = before ++ replicate (S (stableCount st)) normalized).
    { rewrite <- app_assoc. f_equal. symmetry.
      apply (replicate_cons_app (stableCount st) normalized). }
    split; [reflexivity |]. split; [exists before; exact Hsnoc |]. split; [lia |].
    intros Hle'. split; [exact Hle' |]. split.
    + intros [Htriple | [pre Hpre]]%hasTriple_snoc; [exact (Hno Htriple) |].
      replace (stableCount st) with 1%nat in Hpre by lia. cbn [replicate] in Hpre.
      change [normalized; normalized] with ([normalized] ++ [normalized]) in Hpre.
      rewrite app_assoc in Hpre. apply app_inj_tail in Hpre as [-> _].
      apply Hlast, last_snoc.
    + exists before. split; [exact Hsnoc |]. split; [lia | exact Hlast].
  - destruct (detectStable_changed _ _ Hne) as [-> ->].
    assert (Hlast : last cs <> Some normalized).
    { destruct (lastCandidate st) as [x |].
      - destruct Hrow as (before & -> & Hone & _).
        rewrite (last_of_row _ _ _ Hone). congruence.
      - destruct Hrow as [-> _]. discriminate. }
    split; [reflexivity |]. split; [exists cs; reflexivity |]. split; [lia |].
    intros _. split; [lia |]. split.
    + intros [Htriple | [pre ->]]%hasTriple_snoc; [exact (Hno Htriple) |].
      apply Hlast. change [normalized; normalized] with ([normalized] ++ [normalized]).
      rewrite app_assoc. apply last_snoc.
    + exists cs. split; [reflexivity |]. split; [lia | exact Hlast].
Qed.

(** One iteration against the candidates counted so far: going round the
    loop keeps the invariant, and an answer is returned only as the third of
    three equal counted candidates in a row, trimmed and not empty. *)
Lemma pollBody_stability (cs : list jsstring) (st : PollState)
    (candidate : option jsstring) (step : Step) :
  pollBody st = (candidate, step) ->
  stabilityInvariant cs st ->
  match step with
  | Continue st' => stabilityInvariant (cs ++ option_list (counted candidate)) st'
  | Return t =>
      counted candidate = Some t
      /\ (exists before, cs ++ [t] = before ++ [t; t; t])
      /\ truthy t = true /\ trim t = t
  | Throw _ => True
  end.
Proof.
  intros Hbody Hinv.
  assert (Hnext : stabilityInvariant cs (nextPoll st)) by exact Hinv.
  apply pollBody_inv in Hbody
    as [[-> [[e ->] | [st' [-> (_ & Hl & Hs & _)]]]] | [st1 [(_ & Hl & Hs & _) Hdetect]]].
  - exact I.
  - simpl. rewrite app_nil_r. exact (stabilityInvariant_same _ _ _ Hl Hs Hnext).
  - pose proof (stabilityInvariant_same _ _ _ Hl Hs Hnext) as Hinv1.
    apply extractAndDetect_inv in Hdetect
      as [[-> [[e ->] | [st' [-> (_ & Hl' & Hs' & _)]]]] | [n (-> & Hn & Htrim & Hstep)]].
    + exact I.
    + simpl. rewrite app_nil_r. exact (stabilityInvariant_same _ _ _ Hl' Hs' Hinv1).
    + simpl.
      destruct (detectStable_invariant cs n st1 Hinv1) as (_ & [before Hrow] & Hle & Hinv2).
      destruct (requiredStablePolls <=? _)%nat eqn:Hcount.
      * subst step. apply Nat.leb_le in Hcount. unfold requiredStablePolls in Hcount.
        replace (stableCount (detectStable n st1)) with 3%nat in Hrow by lia.
        split; [reflexivity |]. split; [exists before; exact Hrow | auto].
      * apply Nat.leb_gt in Hcount. unfold requiredStablePolls in Hcount.
        destruct Hstep as [[e ->] | [st' [-> (_ & Hl' & Hs' & _)]]]; [exact I |].
        apply (stabilityInvariant_same _ _ _ Hl' Hs'), Hinv2. lia.
Qed.

Lemma pollLoop_unfold (remaining : nat) (st : PollState) :
  pollLoop remaining st =
  if clock world (ticks st) <? deadline world options
  then match remaining with
       | O => ([], afterLoop world options (tick st))
       | S remaining =>
           match pollBody (tick st) with
           | (candidate, Continue st) =>
               (candidate :: fst (pollLoop remaining st), snd (pollLoop remaining st))
           | (candidate, Return answer) => ([candidate], Resolved (Some answer))
           | (candidate, Throw error) => ([candidate], Rejected error)
           end
       end
  else ([], afterLoop world options (tick st)).
Proof. destruct remaining; reflexivity. Qed.

Lemma afterLoop_no_answer (st : PollState) (t : jsstring) :
  afterLoop world options st <> Resolved (Some t).
Proof. unfold afterLoop. repeat case_match; discriminate. Qed.

(** The loop, from any head that satisfies the invariant: an answer is the
    last counted candidate, it completes a row of three, and no row of three
    was counted before it. *)
Lemma pollLoop_stability (t : jsstring) (remaining : nat) :
  forall (st : PollState) (cs : list jsstring),
    stabilityInvariant cs st ->
    snd (pollLoop remaining st) = Resolved (Some t) ->
    (exists cs', cs ++ omap counted (fst (pollLoop remaining st)) = cs' ++ [t]
                 /\ ~ hasTriple cs'
                 /\ exists before, cs' ++ [t] = before ++ [t; t; t])
    /\ truthy t = true /\ trim t = t.
Proof.
  induction remaining as [|remaining IH]; intros st cs Hinv; rewrite pollLoop_unfold.
  - destruct (_ <? _); cbn [snd]; intros Hres; exfalso;
      exact (afterLoop_no_answer _ _ Hres).
  - destruct (_ <? _);
      [| cbn [snd]; intros Hres; exfalso; exact (afterLoop_no_answer _ _ Hres)].
    destruct (pollBody (tick st)) as [candidate step] eqn:Hbody.
    assert (Hinv' : stabilityInvariant cs (tick st)) by exact Hinv.
    pose proof (pollBody_stability cs _ _ _ Hbody Hinv') as Hstep.
    destruct step as [st' | answer | error]; cbn [fst snd]; intros Hres.
    + destruct (IH st' _ Hstep Hres) as [(cs' & Hcs' & Hrest) Htrim].
      split; [| exact Htrim]. exists cs'. split; [| exact Hrest]. rewrite <- Hcs'.
      cbn [omap list_omap]. destruct (counted candidate); simpl.
      * rewrite <- app_assoc. reflexivity.
      * rewrite app_nil_r. reflexivity.
    + injection Hres as ->. destruct Hstep as (Hcounted & Hrow & Htrim).
      split; [| exact Htrim]. exists cs.
      split; [cbn [omap list_omap]; rewrite Hcounted; reflexivity |].
      split; [exact (proj1 (proj2 Hinv)) | exact Hrow].
    + discriminate Hres.
Qed.

Local Abbreviation headAfter := (loopHead toLowerCase world options).
Local Abbreviation later := (laterHead toLowerCase world options).

(** Going round the loop adds one to the poll count and never removes a
    fingerprint from the known set. *)
Lemma pollBody_continue (st st' : PollState) (candidate : option jsstring) :
  pollBody st = (candidate, Continue st') ->
  pollCount st' = S (pollCount st) /\ knownHashes st ⊆ knownHashes st'.
Proof.
  intros Hbody.
  apply pollBody_inv in Hbody
    as [[_ [[e He] | [st0 [Hst0 (Hp & _ & _ & Hk)]]]] | [st1 [(Hp & _ & _ & Hk) Hdetect]]].
  - discriminate He.
  - injection Hst0 as <-. rewrite Hp, Hk. auto.
  - apply extractAndDetect_inv in Hdetect
      as [[_ [[e He] | [st0 [Hst0 (Hp' & _ & _ & Hk')]]]] | [n (_ & _ & _ & Hstep)]].
    + discriminate He.
    + injection Hst0 as <-. rewrite Hp', Hp. split; [reflexivity |].
      rewrite Hk in Hk'. exact Hk'.
    + destruct (detectStable_rest n st1) as [Hp2 Hk2].
      destruct (_ <=? _)%nat; [discriminate Hstep |].
      destruct Hstep as [[e He] | [st0 [Hst0 (Hp' & _ & _ & Hk')]]]; [discriminate He |].
      injection Hst0 as <-. rewrite Hp', Hp2, Hp, Hk', Hk2, Hk.
      split; reflexivity.
Qed.

Lemma laterHead_known (st st' : PollState) :
  later st st' -> knownHashes st ⊆ knownHashes st'.
Proof.
  induction 1 as [| st' st'' candidate _ IH Hbody]; [reflexivity |].
  apply pollBody_continue in Hbody as [_ Hk]. simpl in Hk.
  etrans; [exact IH | exact Hk].
Qed.

(** The loop head after [n] rounds has made [n] polls, and what the loop
    does from there is what the call does. *)
Lemma loopHead_resumes (n : nat) :
  forall st, headAfter n = Some st ->
    pollCount st = n /\ (n <= maxPolls options)%nat
    /\ snd (pollLoop (maxPolls options - n) st)
       = waitForLatestAnswer toLowerCase world options.
Proof.
  induction n as [|n IH]; intros st'; cbn [loopHead].
  - intros [= <-]. rewrite Nat.sub_0_r. repeat split. lia.
  - destruct (headAfter n) as [st |]; [| discriminate].
    destruct (IH st eq_refl) as (Hcount & Hle & Hrun).
    destruct (_ <? _) eqn:Hclock; [| discriminate]. cbn [andb].
    destruct (_ <? _)%nat eqn:Hguard; [| discriminate].
    apply Nat.ltb_lt in Hguard.
    destruct (pollBody (tick st)) as [candidate step] eqn:Hbody. cbn [snd].
    destruct step as [st0 | |]; [| discriminate | discriminate].
    intros [= ->].
    destruct (pollBody_continue _ _ _ Hbody) as [Hp _]. cbn [pollCount tick] in Hp.
    split; [lia |]. split; [lia |].
    rewrite <- Hrun.
    replace (maxPolls options - n)%nat with (S (maxPolls options - S n)) by lia.
    rewrite (pollLoop_unfold (S _) st), Hclock, Hbody. reflexivity.
Qed.

End PollingFacts.

(** ** What the extractor returns *)

Lemma nonBlank_trimmed (text : jsstring) :
  nonBlank text = true -> truthy (trim text) = true /\ trim (trim text) = trim text.
Proof.
  unfold nonBlank. intros [_ H]%andb_true_iff. split; [exact H | apply trim_idempotent].
Qed.

Lemma scanContainers_found (knownHashes : gset Z) (t : jsstring)
    (containers : list Container) :
  forall idx, snd (scanContainers knownHashes idx containers) = Found t ->
              newText knownHashes t.
Proof.
  induction containers as [|container rest IH]; intros idx; cbn [scanContainers].
  - discriminate.
  - specialize (IH (S idx)).
    destruct container as [error | | [text | error]];
      unfold throwIfRecoverableBrowserError;
      repeat case_match; cbn [snd after]; try discriminate; try exact IH.
    intros [= <-].
    destruct (nonBlank_trimmed text) as [Ht Hi]; [assumption |].
    repeat split; [exact Ht | exact Hi |].
    apply negb_true_iff. assumption.
Qed.

Lemma scanElements_found (knownHashes : gset Z) (selector : string) (t : jsstring)
    (elements : list Element) :
  forall idx, snd (scanElements knownHashes selector idx elements) = Found t ->
              newText knownHashes t.
Proof.
  induction elements as [|element rest IH]; intros idx; cbn [scanElements].
  - discriminate.
  - specialize (IH (S idx)).
    assert (Hread : forall container,
      snd (match container with
           | Throws error =>
               match throwIfRecoverableBrowserError error
                       "Browser page unavailable while reading fallback response element" with
               | Some thrown =>
                   ([ResolveClosest selector idx; ReadElementText selector idx],
                    Aborted thrown)
               | None =>
                   after [ResolveClosest selector idx; ReadElementText selector idx]
                     (scanElements knownHashes selector (S idx) rest)
               end
           | Ok text =>
               if nonBlank text && negb (knows knownHashes (textHash text))
               then ([ResolveClosest selector idx; ReadElementText selector idx],
                     Found (trim text))
               else after [ResolveClosest selector idx; ReadElementText selector idx]
                      (scanElements knownHashes selector (S idx) rest)
           end) = Found t -> newText knownHashes t).
    { intros [text | error].
      - destruct (nonBlank text && _) eqn:Hnew; cbn [snd after]; [| exact IH].
        apply andb_true_iff in Hnew as [Hblank Hknown].
        intros [= <-]. destruct (nonBlank_trimmed text Hblank) as [Ht Hi].
        repeat split; [exact Ht | exact Hi |].
        apply negb_true_iff. exact Hknown.
      - destruct (throwIfRecoverableBrowserError error _); cbn [snd after];
          [discriminate | exact IH]. }
    destruct (closest element) as [[ancestorText |] | error]; try apply Hread.
    destruct (throwIfRecoverableBrowserError error _); [| apply Hread].
    destruct (throwIfRecoverableBrowserError _ _); cbn [snd after];
      [discriminate | exact IH].
Qed.

Lemma scanSelectors_found (page : Page) (knownHashes : gset Z) (t : jsstring)
    (selectors : list string) :
  snd (scanSelectors page knownHashes selectors) = Found t -> newText knownHashes t.
Proof.
  induction selectors as [|selector rest IH]; cbn [scanSelectors].
  - discriminate.
  - destruct (queryAll page selector) as [[|element elements] | error].
    + exact IH.
    + destruct (snd (scanElements knownHashes selector 0 (element :: elements)))
        as [text | error |] eqn:Hscan.
      * intros [= <-]. exact (scanElements_found _ _ _ _ _ Hscan).
      * destruct (throwIfRecoverableBrowserError error _); cbn [snd after];
          [discriminate | exact IH].
      * exact IH.
    + destruct (throwIfRecoverableBrowserError error _); cbn [snd after];
        [discriminate | exact IH].
Qed.

Lemma lastResortExtraction_trimmed (page : Page) (c : jsstring) :
  snd (lastResortExtraction page) = Ok (Some c) -> truthy c = true /\ trim c = c.
Proof.
  unfold lastResortExtraction. cbn [snd].
  destruct (evaluateScan page) as [document | error].
  - destruct (lastResortScan document) as [fallbackText |]; [| discriminate].
    destruct (truthy (trim fallbackText)) eqn:Ht; [| discriminate].
    intros [= <-]. split; [exact Ht | apply trim_idempotent].
  - destruct (throwIfRecoverableBrowserError error _); discriminate.
Qed.

Lemma fallbackExtraction_trimmed (page : Page) (knownHashes : gset Z) (c : jsstring) :
  snd (fallbackExtraction page knownHashes) = Ok (Some c) ->
  truthy c = true /\ trim c = c.
Proof.
  unfold fallbackExtraction.
  destruct (snd (scanSelectors page knownHashes RESPONSE_SELECTORS))
    as [text | error |] eqn:Hscan; cbn [snd after].
  - intros [= <-]. apply scanSelectors_found in Hscan as (H1 & H2 & _). auto.
  - discriminate.
  - apply lastResortExtraction_trimmed.
Qed.

Lemma snd_after {A : Type} (ops : list PageOp) (k : Traced A) :
  snd (after ops k) = snd k.
Proof. reflexivity. Qed.

Lemma scanContainers_aborted (knownHashes : gset Z) (error : Thrown)
    (containers : list Container) :
  forall idx, snd (scanContainers knownHashes idx containers) = Aborted error ->
              isRecoverableBrowserError error = true.
Proof.
  induction containers as [|container rest IH]; intros idx; cbn [scanContainers].
  - discriminate.
  - specialize (IH (S idx)).
    destruct container as [e | | [text | e]];
      unfold throwIfRecoverableBrowserError;
      repeat case_match; cbn [snd after]; try discriminate; try exact IH;
      intros [= <-]; simplify_eq; cbn [isRecoverableBrowserError]; assumption.
Qed.

(** How the primary path ends when its query answers: never by falling
    through, and with a candidate only if the candidate is new. *)
Lemma primaryExtraction_answers (page : Page) (knownHashes : gset Z)
    (containers : list Container) :
  toUserContainers page = Ok containers ->
  match snd (primaryExtraction page knownHashes) with
  | PrimaryResult (Some c) => newText knownHashes c
  | PrimaryResult None => True
  | PrimaryThrows _ => True
  | FallThrough => False
  end.
Proof.
  intros Hquery. unfold primaryExtraction. rewrite Hquery, snd_after.
  destruct (_ <=? _)%nat eqn:Hsize; cbn [snd]; [exact I |].
  apply Nat.leb_gt in Hsize.
  destruct (0 <? _)%nat eqn:Hlen; [| apply Nat.ltb_ge in Hlen; lia].
  cbn [snd].
  destruct (snd (scanContainers knownHashes 0 containers)) as [text | error |] eqn:Hscan.
  - exact (scanContainers_found _ _ _ _ Hscan).
  - apply scanContainers_aborted in Hscan.
    unfold primaryCatch, throwIfRecoverableBrowserError. rewrite Hscan. exact I.
  - exact I.
Qed.

Lemma primaryExtraction_found (page : Page) (knownHashes : gset Z) (c : jsstring) :
  snd (primaryExtraction page knownHashes) = PrimaryResult (Some c) ->
  newText knownHashes c.
Proof.
  unfold primaryExtraction. rewrite snd_after.
  destruct (toUserContainers page) as [containers | error]; cbn [snd].
  - destruct (_ <=? _)%nat; cbn [snd]; [discriminate |].
    destruct (0 <? _)%nat; cbn [snd]; [| discriminate].
    destruct (snd (scanContainers knownHashes 0 containers)) as [text | error |] eqn:Hscan.
    + intros [= <-]. exact (scanContainers_found _ _ _ _ Hscan).
    + unfold primaryCatch. destruct (throwIfRecoverableBrowserError error _); discriminate.
    + discriminate.
  - unfold primaryCatch. destruct (throwIfRecoverableBrowserError error _); discriminate.
Qed.

Lemma extractLatestText_cases (page : Page) (knownHashes : gset Z) :
  snd (extractLatestText page knownHashes) =
  match snd (primaryExtraction page knownHashes) with
  | PrimaryResult text => Ok text
  | PrimaryThrows error => Throws error
  | FallThrough => snd (fallbackExtraction page knownHashes)
  end.
Proof.
  unfold extractLatestText.
  generalize (fallbackExtraction page knownHashes) as fallback. intros fallback.
  destruct (snd (primaryExtraction page knownHashes)); reflexivity.
Qed.

(** Every candidate of the extractor is a trimmed text that is not empty. *)
Lemma extractLatestText_trimmed (page : Page) (knownHashes : gset Z) (c : jsstring) :
  snd (extractLatestText page knownHashes) = Ok (Some c) ->
  truthy c = true /\ trim c = c.
Proof.
  rewrite extractLatestText_cases.
  pose proof (fallbackExtraction_trimmed page knownHashes c) as Hfallback.
  pose proof (primaryExtraction_found page knownHashes c) as Hprimary.
  destruct (snd (primaryExtraction page knownHashes)) as [[text |] | error |].
  - intros [= ->]. destruct (Hprimary eq_refl) as (H1 & H2 & _). auto.
  - discriminate.
  - discriminate.
  - exact Hfallback.
Qed.

(** When the primary query answers, a candidate of the extractor is new to
    the known set. *)
Lemma extractLatestText_primary_new (page : Page) (knownHashes : gset Z)
    (containers : list Container) (c : jsstring) :
  toUserContainers page = Ok containers ->
  snd (extractLatestText page knownHashes) = Ok (Some c) ->
  newText knownHashes c.
Proof.
  intros Hquery. rewrite extractLatestText_cases.
  pose proof (primaryExtraction_answers page knownHashes containers Hquery) as Hprimary.
  destruct (snd (primaryExtraction page knownHashes)) as [[text |] | error |].
  - intros [= ->]. exact Hprimary.
  - discriminate.
  - discriminate.
  - contradiction.
Qed.

(** ** Known texts, when the primary query answers *)

Lemma extractAndDetect_return
    (toLowerCase : jsstring -> jsstring) (world : World) (options : Options)
    (st : PollState) (candidate : option jsstring) (t : jsstring) :
  extractAndDetect toLowerCase world options st = (candidate, Return t) ->
  exists c,
    snd (extractLatestText (page (polls world (pollCount st))) (knownHashes st))
    = Ok (Some c)
    /\ t = trim c.
Proof.
  unfold extractAndDetect.
  destruct (snd (extractLatestText _ _)) as [[c |] | error]; intros Hstep.
  - exists c. split; [reflexivity |]. injection Hstep as _ Hstep.
    pose proof (endOfPoll_no_return world options) as Hend.
    repeat case_match; simplify_eq; try reflexivity; exfalso; eapply Hend; eassumption.
  - injection Hstep as _ Hstep. exfalso. exact (endOfPoll_no_return _ _ _ _ Hstep).
  - discriminate Hstep.
Qed.

(** If the primary query answers at every poll, the answer of the call has a
    fingerprint that was not in the known set when it was extracted, so none
    the ignore texts seeded: only the last resort lets a known text through. *)
Lemma waitForLatestAnswer_new_when_primary_answers
    (toLowerCase : jsstring -> jsstring) (world : World) (options : Options)
    (t : jsstring) :
  (forall n, exists containers, toUserContainers (page (polls world n)) = Ok containers) ->
  waitForLatestAnswer toLowerCase world options = Resolved (Some t) ->
  hashString t ∉ seedKnownHashes (ignoreTexts options).
Proof.
  intros Hprimary. unfold waitForLatestAnswer, runPolls.
  assert (Hloop : forall remaining st,
            snd (pollLoop toLowerCase world options remaining st) = Resolved (Some t) ->
            hashString t ∉ knownHashes st).
  { induction remaining as [|remaining IH]; intros st; rewrite pollLoop_unfold.
    - destruct (_ <? _); cbn [snd]; intros Hres; exfalso;
        exact (afterLoop_no_answer _ _ _ _ Hres).
    - destruct (_ <? _);
        [| cbn [snd]; intros Hres; exfalso; exact (afterLoop_no_answer _ _ _ _ Hres)].
      destruct (pollBody toLowerCase world options (tick st)) as [candidate step] eqn:Hbody.
      destruct step as [st' | answer | error]; cbn [snd]; intros Hres.
      + apply pollBody_continue in Hbody as [_ Hknown]. cbn [tick knownHashes] in Hknown.
        intros Hin. exact (IH st' Hres (Hknown _ Hin)).
      + injection Hres as ->.
        apply pollBody_inv in Hbody as [[_ [[e He] | [st' [He _]]]] | [st1 [Hsame Hdetect]]];
          [discriminate He | discriminate He |].
        destruct Hsame as (_ & _ & _ & Hknown). cbn [nextPoll tick knownHashes] in Hknown.
        apply extractAndDetect_return in Hdetect as (c & Hextract & ->).
        destruct (Hprimary (pollCount st1)) as [containers Hquery].
        destruct (extractLatestText_primary_new _ _ _ _ Hquery Hextract)
          as (_ & Htrim & Hnew).
        rewrite Htrim, <- Hknown. unfold knows in Hnew.
        apply bool_decide_eq_false in Hnew. exact Hnew.
      + discriminate Hres. }
  intros Hres. exact (Hloop _ _ Hres).
Qed.

(** ** waitForLatestAnswer *)

Lemma initialState_invariant (options : Options) :
  stabilityInvariant [] (initialState options).
Proof.
  unfold stabilityInvariant. cbn [initialState stableCount lastCandidate].
  split; [lia |]. split; [| auto].
  intros (before & x & behind & Heq). destruct before; discriminate Heq.
Qed.

Section StabilityFacts.

Variable toLowerCase : jsstring -> jsstring.
Variable world : World.
Variable options : Options.

Local Abbreviation countedOf := (counted toLowerCase options).

(** The counter the streaming detection comes to on the counted candidate
    [c]: one more when [c] is the recorded candidate, 1 when it is not. *)
Lemma detectStable_count (c : jsstring) (st : PollState) :
  stableCount (detectStable c st)
  = (if bool_decide (Some c = lastCandidate st) then S (stableCount st) else 1%nat)
  /\ lastCandidate (detectStable c st) = Some c.
Proof.
  unfold detectStable. case_bool_decide as Hsame; cbn [withStability stableCount lastCandidate];
    auto.
Qed.

(** One iteration, by what it does to the stability record. *)
Lemma pollBody_record (st : PollState) (candidate : option jsstring) (step : Step) :
  pollBody toLowerCase world options st = (candidate, step) ->
  match countedOf candidate with
  | None =>
      (forall answer, step <> Return answer)
      /\ forall st', step = Continue st' ->
           stableCount st' = stableCount st /\ lastCandidate st' = lastCandidate st
  | Some c =>
      let count :=
        if bool_decide (Some c = lastCandidate st) then S (stableCount st) else 1%nat in
      (step = Return c <-> (requiredStablePolls <= count)%nat)
      /\ (forall answer, step = Return answer -> answer = c)
      /\ forall st', step = Continue st' ->
           stableCount st' = count /\ lastCandidate st' = Some c
  end.
Proof.
  intros Hbody.
  apply pollBody_inv in Hbody as [[-> Hstep] | [st1 [(_ & Hl & Hs & _) Hdetect]]].
  - cbn [counted]. split.
    + intros answer ->. destruct Hstep as [[e He] | [st' [He _]]]; discriminate He.
    + intros st' ->. destruct Hstep as [[e He] | [st0 [[= <-] (_ & Hl & Hs & _)]]];
        [discriminate He |]. auto.
  - cbn [nextPoll lastCandidate stableCount] in Hl, Hs.
    apply extractAndDetect_inv in Hdetect
      as [[-> Hstep] | (c & -> & _ & _ & Hstep)].
    + split.
      * intros answer ->. destruct Hstep as [[e He] | [st' [He _]]]; discriminate He.
      * intros st' ->.
        destruct Hstep as [[e He] | [st0 [[= <-] (_ & Hl' & Hs' & _)]]];
          [discriminate He |].
        rewrite Hl', Hs', Hl, Hs. auto.
    + cbn zeta. destruct (detectStable_count c st1) as [Hcount Hlast].
      rewrite Hl, Hs in Hcount.
      destruct (requiredStablePolls <=? stableCount (detectStable c st1))%nat eqn:Hreached.
      * apply Nat.leb_le in Hreached. rewrite Hcount in Hreached. subst step.
        split; [split; auto |]. split; [intros answer [= <-]; reflexivity |].
        discriminate.
      * apply Nat.leb_gt in Hreached. rewrite Hcount in Hreached.
        split; [| split].
        -- split; [| lia]. intros ->.
           destruct Hstep as [[e He] | [st' [He _]]]; discriminate He.
        -- intros answer ->. destruct Hstep as [[e He] | [st' [He _]]]; discriminate He.
        -- intros st' ->.
           destruct Hstep as [[e He] | [st0 [[= <-] (_ & Hl' & Hs' & _)]]];
             [discriminate He |].
           rewrite Hs', Hl', Hcount, Hlast. auto.
Qed.

(** An iteration that throws leaves no row of three behind either. *)
Lemma pollBody_throw_row (cs : list jsstring) (st : PollState)
    (candidate : option jsstring) (error : Thrown) :
  pollBody toLowerCase world options st = (candidate, Throw error) ->
  stabilityInvariant cs st ->
  ~ hasTriple (cs ++ option_list (countedOf candidate)).
Proof.
  intros Hbody Hinv.
  assert (Hnext : stabilityInvariant cs (nextPoll st)) by exact Hinv.
  apply pollBody_inv in Hbody as [[-> _] | [st1 [(_ & Hl & Hs & _) Hdetect]]].
  - cbn [counted option_list]. rewrite app_nil_r. exact (proj1 (proj2 Hinv)).
  - pose proof (stabilityInvariant_same _ _ _ Hl Hs Hnext) as Hinv1.
    apply extractAndDetect_inv in Hdetect as [[-> _] | (c & -> & _ & _ & Hstep)].
    + cbn [option_list]. rewrite app_nil_r. exact (proj1 (proj2 Hinv)).
    + cbn [option_list].
      destruct (detectStable_invariant cs c st1 Hinv1) as (_ & _ & _ & Hbelow).
      destruct (requiredStablePolls <=? _)%nat eqn:Hreached; [discriminate Hstep |].
      apply Nat.leb_gt in Hreached. unfold requiredStablePolls in Hreached.
      exact (proj1 (proj2 (Hbelow ltac:(lia)))).
Qed.

(** The loop, from any head that satisfies the invariant: when it gives no
    answer, no three equal candidates in a row were counted. *)
Lemma pollLoop_no_row (remaining : nat) :
  forall (st : PollState) (cs : list jsstring),
    stabilityInvariant cs st ->
    (forall t, snd (pollLoop toLowerCase world options remaining st) <> Resolved (Some t)) ->
    ~ hasTriple (cs ++ omap countedOf (fst (pollLoop toLowerCase world options remaining st))).
Proof.
  induction remaining as [|remaining IH]; intros st cs Hinv; rewrite pollLoop_unfold.
  - intros _. destruct (_ <? _); cbn [fst omap list_omap]; rewrite app_nil_r;
      exact (proj1 (proj2 Hinv)).
  - destruct (_ <? _);
      [| intros _; cbn [fst omap list_omap]; rewrite app_nil_r; exact (proj1 (proj2 Hinv))].
    destruct (pollBody toLowerCase world options (tick st)) as [candidate step] eqn:Hbody.
    assert (Hinv' : stabilityInvariant cs (tick st)) by exact Hinv.
    assert (Hlog : forall rest,
              cs ++ omap countedOf (candidate :: rest)
              = (cs ++ option_list (countedOf candidate)) ++ omap countedOf rest).
    { intros rest. cbn [omap list_omap]. destruct (countedOf candidate); cbn [option_list].
      - rewrite <- app_assoc. reflexivity.
      - rewrite app_nil_r. reflexivity. }
    destruct step as [st' | answer | error]; cbn [fst snd]; intros Hno.
    + rewrite Hlog. apply IH; [| exact Hno].
      exact (pollBody_stability toLowerCase world options cs _ _ _ Hbody Hinv').
    + exfalso. exact (Hno answer eq_refl).
    + rewrite Hlog. cbn [omap list_omap]. rewrite app_nil_r.
      exact (pollBody_throw_row cs _ _ _ Hbody Hinv').
Qed.

(** Every head of the loop satisfies the invariant, for the candidates
    counted up to it. *)
Lemma loopHead_invariant (n : nat) :
  forall st, loopHead toLowerCase world options n = Some st ->
    exists cs, stabilityInvariant cs st.
Proof.
  induction n as [|n IH]; intros st'; cbn [loopHead].
  - intros [= <-]. exists []. apply initialState_invariant.
  - destruct (loopHead toLowerCase world options n) as [st |]; [| discriminate].
    destruct (IH st eq_refl) as [cs Hinv].
    destruct (_ && _); [| discriminate].
    destruct (pollBody toLowerCase world options (tick st)) as [candidate step] eqn:Hbody.
    cbn [snd]. destruct step as [st0 | |]; [| discriminate | discriminate].
    intros [= ->]. exists (cs ++ option_list (countedOf candidate)).
    assert (Hinv' : stabilityInvariant cs (tick st)) by exact Hinv.
    exact (pollBody_stability toLowerCase world options cs _ _ _ Hbody Hinv').
Qed.

End StabilityFacts.

(** [C1] The call returns the text [t] exactly when the candidates the
    streaming detection counted (the trimmed candidates that are neither
    blank nor the echo of the question) end in [t] three times in a row; that
    row is the first row of three equal counted candidates.  Polls that are
    not counted (no candidate, the thinking indicator, the echo) never
    return and leave the counter and the recorded candidate as they are, so
    they do not interrupt a row.  A counted candidate that differs from the
    recorded one sets the counter to 1 and is recorded, one that equals it
    adds 1 to the counter, and the poll returns that candidate exactly when
    the counter so reached is the required one: 3, as the counter is below 3
    at every head of the loop. *)
Theorem waitForLatestAnswer_stable
    (toLowerCase : jsstring -> jsstring) (world : World) (options : Options) :
  (forall t,
     waitForLatestAnswer toLowerCase world options = Resolved (Some t)
     <-> exists before,
           countedCandidates toLowerCase world options = before ++ [t; t; t])
  /\ (forall t before,
        countedCandidates toLowerCase world options = before ++ [t; t; t] ->
        ~ hasTriple (before ++ [t; t]))
  /\ (forall n st,
        loopHead toLowerCase world options n = Some st ->
        (stableCount st < requiredStablePolls)%nat)
  /\ forall st candidate step,
       pollBody toLowerCase world options st = (candidate, step) ->
       match counted toLowerCase options candidate with
       | None =>
           (forall answer, step <> Return answer)
           /\ forall st', step = Continue st' ->
                stableCount st' = stableCount st /\ lastCandidate st' = lastCandidate st
       | Some c =>
           let count :=
             if bool_decide (Some c = lastCandidate st)
             then S (stableCount st) else 1%nat in
           (step = Return c <-> (requiredStablePolls <= count)%nat)
           /\ (forall answer, step = Return answer -> answer = c)
           /\ forall st', step = Continue st' ->
                stableCount st' = count /\ lastCandidate st' = Some c
       end.
Proof.
  assert (Honly : forall t,
            waitForLatestAnswer toLowerCase world options = Resolved (Some t) ->
            exists before,
              countedCandidates toLowerCase world options = before ++ [t; t; t]
              /\ ~ hasTriple (before ++ [t; t])).
  { intros t Hanswer.
    destruct (pollLoop_stability toLowerCase world options t (maxPolls options)
                (initialState options) [] (initialState_invariant options) Hanswer)
      as [(cs & Hcs & Hno & before & Hrow) _].
    exists before. unfold countedCandidates, polledCandidates, runPolls.
    cbn [app] in Hcs. rewrite Hcs, Hrow. split; [reflexivity |].
    change [t; t; t] with ([t; t] ++ [t]) in Hrow. rewrite app_assoc in Hrow.
    apply app_inj_tail in Hrow as [<- _]. exact Hno. }
  assert (Hwhen : forall t before,
            countedCandidates toLowerCase world options = before ++ [t; t; t] ->
            waitForLatestAnswer toLowerCase world options = Resolved (Some t)).
  { intros t before Hlog.
    destruct (waitForLatestAnswer toLowerCase world options) as [[answer |] | error]
      eqn:Houtcome.
    - destruct (Honly answer eq_refl) as (before' & Hlog' & _).
      rewrite Hlog in Hlog'.
      change [t; t; t] with ([t; t] ++ [t]) in Hlog'.
      change [answer; answer; answer] with ([answer; answer] ++ [answer]) in Hlog'.
      rewrite !app_assoc in Hlog'. apply app_inj_tail in Hlog' as [_ ->]. reflexivity.
    - exfalso.
      apply (pollLoop_no_row toLowerCase world options (maxPolls options)
               (initialState options) [] (initialState_invariant options)).
      + intros answer Hanswer. unfold waitForLatestAnswer, runPolls in Houtcome.
        rewrite Houtcome in Hanswer. discriminate Hanswer.
      + cbn [app]. unfold countedCandidates, polledCandidates, runPolls in Hlog.
        rewrite Hlog. exists before, t, []. rewrite app_nil_r. reflexivity.
    - exfalso.
      apply (pollLoop_no_row toLowerCase world options (maxPolls options)
               (initialState options) [] (initialState_invariant options)).
      + intros answer Hanswer. unfold waitForLatestAnswer, runPolls in Houtcome.
        rewrite Houtcome in Hanswer. discriminate Hanswer.
      + cbn [app]. unfold countedCandidates, polledCandidates, runPolls in Hlog.
        rewrite Hlog. exists before, t, []. rewrite app_nil_r. reflexivity. }
  split; [| split; [| split]].
  - intros t. split.
    + intros Hanswer. destruct (Honly t Hanswer) as (before & Hlog & _). eauto.
    + intros [before Hlog]. exact (Hwhen t before Hlog).
  - intros t before Hlog.
    destruct (Honly t (Hwhen t before Hlog)) as (before' & Hlog' & Hfirst).
    rewrite Hlog in Hlog'. apply app_inv_tail in Hlog'. subst before'. exact Hfirst.
  - intros n st Hhead.
    destruct (loopHead_invariant toLowerCase world options n st Hhead) as [cs (Hle & _)].
    unfold requiredStablePolls. lia.
  - intros st candidate step. apply pollBody_record.
Qed.

Lemma waitForLatestAnswer_stable_witness :
  exists before,
    countedCandidates asciiLower parisWorld capitalQuestion
    = before ++ [js "Paris is the capital of France.";
                 js "Paris is the capital of France.";
                 js "Paris is the capital of France."]
    /\ ~ hasTriple (before ++ [js "Paris is the capital of France.";
                               js "Paris is the capital of France."]).
Proof.
  destruct (waitForLatestAnswer_stable asciiLower parisWorld capitalQuestion)
    as (Hcall & Hfirst & _).
  destruct (proj1 (Hcall (js "Paris is the capital of France."))) as [before Hlog].
  - vm_compute. reflexivity.
  - exists before. split; [exact Hlog | exact (Hfirst _ _ Hlog)].
Defined.

(** With a second poll that finds no container, the answer is returned at
    the fourth poll: the candidates of the four polls are the answer, none,
    the answer, the answer, and no three polls in a row had it. *)
Lemma waitForLatestAnswer_not_consecutive :
  waitForLatestAnswer asciiLower gapWorld capitalQuestion
  = Resolved (Some (js "Paris."))
  /\ polledCandidates asciiLower gapWorld capitalQuestion
     = [Some (js "Paris."); None; Some (js "Paris."); Some (js "Paris.")]
  /\ ~ onThreeConsecutivePolls
         (polledCandidates asciiLower gapWorld capitalQuestion) (js "Paris.").
Proof.
  split; [vm_compute; reflexivity |].
  assert (Hlog : polledCandidates asciiLower gapWorld capitalQuestion
                 = [Some (js "Paris."); None; Some (js "Paris."); Some (js "Paris.")])
    by (vm_compute; reflexivity).
  split; [exact Hlog |].
  rewrite Hlog. clear Hlog.
  intros (before & c1 & c2 & c3 & behind & Hlog & _).
  destruct before as [|x0 [|x1 before]]; cbn [app] in Hlog.
  - discriminate Hlog.
  - discriminate Hlog.
  - injection Hlog as _ _ Hlog.
    destruct before as [|x2 [|x3 [|x4 before]]]; cbn [app] in Hlog; discriminate Hlog.
Qed.

(** The same with the question echoed at the second poll: the candidate of
    that poll differs from the one before and from the one after, and the
    row of counted candidates is not interrupted. *)
Lemma waitForLatestAnswer_echo_between :
  waitForLatestAnswer asciiLower echoBetweenWorld capitalQuestion
  = Resolved (Some (js "Paris."))
  /\ polledCandidates asciiLower echoBetweenWorld capitalQuestion
     = [Some (js "Paris."); Some (js "What is the capital of France?");
        Some (js "Paris."); Some (js "Paris.")]
  /\ countedCandidates asciiLower echoBetweenWorld capitalQuestion
     = [js "Paris."; js "Paris."; js "Paris."].
Proof. repeat split; vm_compute; reflexivity. Qed.

(** [C9] An answer that is returned is not empty and carries no white space
    at either end: it is its own trim. *)
Theorem waitForLatestAnswer_trimmed
    (toLowerCase : jsstring -> jsstring) (world : World) (options : Options)
    (s : jsstring) :
  waitForLatestAnswer toLowerCase world options = Resolved (Some s) ->
  s <> [] /\ trim s = s /\ headClean s /\ headClean (rev s).
Proof.
  intros Hanswer.
  destruct (pollLoop_stability toLowerCase world options s (maxPolls options)
              (initialState options) [] (initialState_invariant options) Hanswer)
    as (_ & Htruthy & Htrim).
  split; [apply truthy_nonempty, Htruthy |].
  split; [exact Htrim |].
  rewrite <- Htrim. split; [apply trim_headClean | apply trim_lastClean].
Qed.

Lemma waitForLatestAnswer_trimmed_witness :
  js "Paris." <> [] /\ trim (js "Paris.") = js "Paris."
  /\ headClean (js "Paris.") /\ headClean (rev (js "Paris.")).
Proof.
  apply (waitForLatestAnswer_trimmed asciiLower gapWorld capitalQuestion).
  vm_compute. reflexivity.
Defined.

(** [C2] With the primary query failing on an error that is not a
    browser-state error and no fallback selector matching, the in-page scan
    hands over the one visible message; it is returned as the answer although
    its fingerprint was seeded into the known set from the ignore texts. *)
Theorem waitForLatestAnswer_returns_known :
  waitForLatestAnswer asciiLower detachedWorld afterBerlin
  = Resolved (Some (js "Berlin is the capital of Germany."))
  /\ textHash (js "Berlin is the capital of Germany.")
     ∈ seedKnownHashes (ignoreTexts afterBerlin)
  /\ ignoreTexts afterBerlin = [js "Berlin is the capital of Germany."].
Proof.
  split; [vm_compute; reflexivity |].
  split; [| reflexivity].
  assert (Hknown : knows (seedKnownHashes (ignoreTexts afterBerlin))
                     (textHash (js "Berlin is the capital of Germany.")) = true)
    by (vm_compute; reflexivity).
  unfold knows in Hknown. apply bool_decide_eq_true in Hknown. exact Hknown.
Qed.

(** [C3] Let the loop come to its head after [n] polls that all went round.
    If these are all the polls the guard allows and the clock is before the
    deadline, both when the loop tests it and when the guard is checked
    after the loop, the call throws the guard error.  If the deadline has
    passed at the head (and the clock does not run backwards), the call
    resolves to null; so it does when the guard is reached and the deadline
    has passed by the time the guard is checked. *)
Theorem waitForLatestAnswer_guard_or_timeout
    (toLowerCase : jsstring -> jsstring) (world : World) (options : Options)
    (n : nat) (st : PollState) :
  loopHead toLowerCase world options n = Some st ->
  (n = maxPolls options ->
   clock world (ticks st) < deadline world options ->
   clock world (S (ticks st)) < deadline world options ->
   waitForLatestAnswer toLowerCase world options = Rejected (PollGuard (maxPolls options)))
  /\ (deadline world options <= clock world (ticks st) ->
      clock world (ticks st) <= clock world (S (ticks st)) ->
      waitForLatestAnswer toLowerCase world options = Resolved None)
  /\ (n = maxPolls options ->
      deadline world options <= clock world (S (ticks st)) ->
      waitForLatestAnswer toLowerCase world options = Resolved None).
Proof.
  intros Hhead.
  destruct (loopHead_resumes toLowerCase world options n st Hhead)
    as (Hcount & Hle & <-).
  rewrite pollLoop_unfold. unfold afterLoop. cbn [pollCount ticks tick snd].
  rewrite Hcount. repeat split.
  - intros -> Hnow Hthen. rewrite Nat.sub_diag.
    apply Z.ltb_lt in Hnow, Hthen. rewrite Hnow, Hthen. cbn [snd].
    rewrite Nat.leb_refl. reflexivity.
  - intros Hnow Hmono.
    assert (Hpast : (clock world (ticks st) <? deadline world options) = false)
      by (apply Z.ltb_ge; lia).
    assert (Hpast' : (clock world (S (ticks st)) <? deadline world options) = false)
      by (apply Z.ltb_ge; lia).
    rewrite Hpast, Hpast'. cbn [snd]. destruct (_ <=? _)%nat; reflexivity.
  - intros -> Hthen. rewrite Nat.sub_diag.
    assert (Hpast' : (clock world (S (ticks st)) <? deadline world options) = false)
      by (apply Z.ltb_ge; lia).
    rewrite Hpast'. clear Hpast'.
    destruct (clock world (ticks st) <? deadline world options); cbn [snd];
      destruct (_ <=? _)%nat; reflexivity.
Qed.

Lemma waitForLatestAnswer_guard_or_timeout_witness :
  waitForLatestAnswer asciiLower racingWorld twoSeconds = Rejected (PollGuard 120)
  /\ waitForLatestAnswer asciiLower emptyWorld twoSeconds = Resolved None.
Proof.
  split.
  - assert (Hhead : loopHead asciiLower racingWorld twoSeconds 120 = Some racingHead)
      by (vm_compute; reflexivity).
    destruct (waitForLatestAnswer_guard_or_timeout _ _ _ _ _ Hhead) as (Hguard & _ & _).
    apply Hguard.
    + reflexivity.
    + apply Z.ltb_lt. vm_compute. reflexivity.
    + apply Z.ltb_lt. vm_compute. reflexivity.
  - assert (Hhead : loopHead asciiLower emptyWorld twoSeconds 1 = Some emptyHead)
      by (vm_compute; reflexivity).
    destruct (waitForLatestAnswer_guard_or_timeout _ _ _ _ _ Hhead) as (_ & Htimeout & _).
    apply Htimeout.
    + apply Z.leb_le. vm_compute. reflexivity.
    + apply Z.leb_le. vm_compute. reflexivity.
Defined.

Lemma waitForPollInterval_throws (world : World) (wait : Wait) (interval : Z)
    (st st' : PollState) (error : Thrown) :
  waitForPollInterval world wait interval st = (st', Some error) ->
  exists cause, wait = WaitThrows cause.
Proof.
  unfold waitForPollInterval. destruct wait as [| cause]; [| eauto].
  destruct (_ <? _); discriminate.
Qed.

(** A candidate whose fingerprint is known comes from the in-page scan, the
    one path that does not consult the known set. *)
Lemma extractLatestText_known_candidate (page : Page) (knownHashes : gset Z)
    (c : jsstring) :
  hashString c ∈ knownHashes ->
  snd (extractLatestText page knownHashes) = Ok (Some c) ->
  (exists error, toUserContainers page = Throws error
                 /\ isRecoverableBrowserError error = false)
  /\ snd (scanSelectors page knownHashes RESPONSE_SELECTORS) = Exhausted
  /\ snd (lastResortExtraction page) = Ok (Some c).
Proof.
  intros Hknown.
  assert (Hold : ~ newText knownHashes c).
  { intros (_ & _ & Hnew). unfold knows in Hnew.
    apply bool_decide_eq_false in Hnew. exact (Hnew Hknown). }
  rewrite extractLatestText_cases.
  destruct (snd (primaryExtraction page knownHashes)) as [text | error |] eqn:Hprimary.
  - intros [= ->]. exfalso. exact (Hold (primaryExtraction_found _ _ _ Hprimary)).
  - discriminate.
  - assert (Hquery : exists error, toUserContainers page = Throws error
                                   /\ isRecoverableBrowserError error = false).
    { destruct (toUserContainers page) as [containers | error] eqn:Hquery.
      - pose proof (primaryExtraction_answers page knownHashes containers Hquery) as Hanswers.
        rewrite Hprimary in Hanswers. contradiction.
      - exists error. split; [reflexivity |].
        unfold primaryExtraction in Hprimary. rewrite Hquery, snd_after in Hprimary.
        cbn [snd] in Hprimary.
        unfold primaryCatch, throwIfRecoverableBrowserError in Hprimary.
        destruct (isRecoverableBrowserError error); [discriminate Hprimary | reflexivity]. }
    unfold fallbackExtraction.
    destruct (snd (scanSelectors page knownHashes RESPONSE_SELECTORS))
      as [text | error |] eqn:Hscan; cbn [snd after].
    + intros [= ->]. exfalso. exact (Hold (scanSelectors_found _ _ _ _ Hscan)).
    + discriminate.
    + intros Hlast. auto.
Qed.

(** [C5] A poll whose candidate is, trimmed and lower-cased, the trimmed and
    lower-cased question (white space inside the text is compared as it is)
    is not counted by the streaming detection and never returns.  Unless its
    wait throws, the poll goes round the loop with the fingerprint of the
    trimmed candidate added to the known set and with the stability counter
    and the recorded candidate as they were.  The fingerprint stays in the
    known set at every later head of the loop, so that the extractor gives
    that text again only from the in-page scan, the path that does not
    consult the known set, reached when the primary query fails and the
    fallback selectors give nothing. *)
Theorem echo_is_fingerprinted_and_skipped
    (toLowerCase : jsstring -> jsstring) (world : World) (options : Options)
    (st : PollState) (c : jsstring) (step : Step) :
  pollBody toLowerCase world options st = (Some c, step) ->
  toLowerCase (trim c) = sanitizedQuestion toLowerCase options ->
  counted toLowerCase options (Some c) = None
  /\ match step with
     | Continue st' =>
         knownHashes st' = {[ hashString (trim c) ]} ∪ knownHashes st
         /\ stableCount st' = stableCount st
         /\ lastCandidate st' = lastCandidate st
         /\ forall st'', laterHead toLowerCase world options st' st'' ->
              hashString (trim c) ∈ knownHashes st''
              /\ forall page,
                   snd (extractLatestText page (knownHashes st'')) = Ok (Some (trim c)) ->
                   (exists error, toUserContainers page = Throws error
                                  /\ isRecoverableBrowserError error = false)
                   /\ snd (scanSelectors page (knownHashes st'') RESPONSE_SELECTORS)
                      = Exhausted
                   /\ snd (lastResortExtraction page) = Ok (Some (trim c))
     | Throw _ => exists cause, pollWait (polls world (S (pollCount st))) = WaitThrows cause
     | Return _ => False
     end.
Proof.
  intros Hbody Hecho.
  assert (Hstr : strEq (toLowerCase (trim c)) (sanitizedQuestion toLowerCase options) = true)
    by (apply strEq_true, Hecho).
  split.
  { unfold counted. rewrite Hstr. cbn [negb]. rewrite andb_false_r. reflexivity. }
  apply pollBody_inv in Hbody as [[Hnone _] | [st1 [(Hp & Hl & Hs & Hk) Hdetect]]];
    [discriminate Hnone |].
  cbn [nextPoll pollCount lastCandidate stableCount knownHashes] in Hp, Hl, Hs, Hk.
  unfold extractAndDetect in Hdetect.
  destruct (snd (extractLatestText _ _)) as [[c' |] | error] eqn:Hextract;
    [| discriminate Hdetect | discriminate Hdetect].
  injection Hdetect as -> Hstep.
  destruct (extractLatestText_trimmed _ _ _ Hextract) as [Hc Htrim].
  assert (Htruthy : truthy (trim c) = true) by (rewrite Htrim; exact Hc).
  rewrite Hc, Htruthy, Hstr in Hstep.
  destruct (waitForPollInterval world _ _ _) as [st2 [error |]] eqn:Hwait; subst step.
  - rewrite <- Hp. exact (waitForPollInterval_throws _ _ _ _ _ _ Hwait).
  - apply waitForPollInterval_same in Hwait as (_ & Hl2 & Hs2 & Hk2).
    cbn [withKnown pollCount lastCandidate stableCount knownHashes] in Hl2, Hs2, Hk2.
    rewrite Hk2, Hl2, Hs2, Hk, Hl, Hs.
    split; [reflexivity |]. split; [reflexivity |]. split; [reflexivity |].
    intros st'' Hlater.
    assert (Hin : hashString (trim c) ∈ knownHashes st'').
    { apply (laterHead_known toLowerCase world options) in Hlater.
      apply Hlater. rewrite Hk2. apply elem_of_union_l, elem_of_singleton. reflexivity. }
    split; [exact Hin |].
    intros page Hagain. exact (extractLatestText_known_candidate _ _ _ Hin Hagain).
Qed.

Lemma echo_is_fingerprinted_and_skipped_witness :
  match snd (pollBody asciiLower echoWorld capitalQuestion
               (tick (initialState capitalQuestion))) with
  | Continue st' =>
      knownHashes st' = {[ hashString (js "what is the capital of France?") ]} ∪ ∅
      /\ stableCount st' = 0%nat /\ lastCandidate st' = None
  | _ => False
  end.
Proof.
  pose proof (echo_is_fingerprinted_and_skipped asciiLower echoWorld capitalQuestion
                (tick (initialState capitalQuestion))
                (js "what is the capital of France?")
                (snd (pollBody asciiLower echoWorld capitalQuestion
                        (tick (initialState capitalQuestion))))) as Hecho.
  destruct Hecho as [_ Hstep].
  - vm_compute. reflexivity.
  - vm_compute. reflexivity.
  - destruct (snd (pollBody asciiLower echoWorld capitalQuestion
                     (tick (initialState capitalQuestion)))) as [st' | |].
    + destruct Hstep as (Hk & Hs & Hl & _). auto.
    + exact Hstep.
    + destruct Hstep as [cause Hwait]. discriminate Hwait.
Defined.

(** The question holds two spaces in a row and the page shows it with one:
    the two are equal once white space is normalized and case is folded, and
    yet the echo is counted, recorded, not fingerprinted, and returned as the
    answer at the third poll. *)
Lemma echo_with_collapsed_space_is_returned :
  asciiLower (normalizeText (js "What is the capital of France?"))
  = asciiLower (normalizeText (question spacedQuestion))
  /\ polledCandidates asciiLower collapsedEchoWorld spacedQuestion
     = [Some (js "What is the capital of France?");
        Some (js "What is the capital of France?");
        Some (js "What is the capital of France?")]
  /\ counted asciiLower spacedQuestion (Some (js "What is the capital of France?"))
     = Some (js "What is the capital of France?")
  /\ match snd (pollBody asciiLower collapsedEchoWorld spacedQuestion
                  (tick (initialState spacedQuestion))) with
     | Continue st' =>
         stableCount st' = 1%nat
         /\ lastCandidate st' = Some (js "What is the capital of France?")
         /\ knownHashes st' = ∅
     | _ => False
     end
  /\ waitForLatestAnswer asciiLower collapsedEchoWorld spacedQuestion
     = Resolved (Some (js "What is the capital of France?")).
Proof.
  split; [vm_compute; reflexivity |]. split; [vm_compute; reflexivity |].
  split; [vm_compute; reflexivity |]. split; [| vm_compute; reflexivity].
  assert (Hstep : exists st',
            snd (pollBody asciiLower collapsedEchoWorld spacedQuestion
                   (tick (initialState spacedQuestion))) = Continue st'
            /\ stableCount st' = 1%nat
            /\ lastCandidate st' = Some (js "What is the capital of France?")
            /\ knownHashes st' = ∅).
  { eexists. split; [vm_compute; reflexivity |].
    split; [reflexivity |]. split; reflexivity. }
  destruct Hstep as (st' & -> & Hrecord). exact Hrecord.
Qed.

(** With the primary query failing and the echo seen by the in-page scan
    alone, every poll extracts the echo again and skips it again. *)
Lemma echo_is_extracted_again_by_scan :
  polledCandidates asciiLower echoScanWorld briefQuestion
  = replicate 3 (Some (js "What is the capital of France?"))
  /\ countedCandidates asciiLower echoScanWorld briefQuestion = []
  /\ waitForLatestAnswer asciiLower echoScanWorld briefQuestion = Resolved None.
Proof.
  split; [vm_compute; reflexivity |]. split; vm_compute; reflexivity.
Qed.

(** * Further properties *)

(** ** normalizeText *)

Lemma collapseSpaces_headClean (s : jsstring) :
  headClean s -> collapseSpaces true s = collapseSpaces false s.
Proof.
  destruct s as [|x r]; [reflexivity |]. cbn [headClean collapseSpaces].
  intros ->. reflexivity.
Qed.

Lemma collapseSpaces_fixed (s : jsstring) :
  collapsed s = true -> collapseSpaces false s = s.
Proof.
  induction s as [|x r IH]; [reflexivity |]. cbn [collapsed collapseSpaces].
  intros [Hx Hr]%andb_true_iff. specialize (IH Hr).
  destruct (isSpace x) eqn:Hspace.
  - apply andb_true_iff in Hx as [->%Z.eqb_eq Hnext]. f_equal.
    rewrite collapseSpaces_headClean; [exact IH |].
    destruct r as [|y r']; [exact I |]. apply negb_true_iff in Hnext. exact Hnext.
  - f_equal. exact IH.
Qed.

Lemma collapseSpaces_collapsed (s : jsstring) :
  forall inRun,
    collapsed (collapseSpaces inRun s) = true
    /\ (inRun = true -> headClean (collapseSpaces inRun s)).
Proof.
  induction s as [|x r IH]; intros inRun; cbn [collapseSpaces].
  - split; [reflexivity | intros _; exact I].
  - destruct (isSpace x) eqn:Hspace.
    + destruct (IH true) as [Hc Hh]. specialize (Hh eq_refl).
      destruct inRun; [split; auto |].
      split; [| discriminate].
      cbn [collapsed]. rewrite Hc, andb_true_r.
      replace (isSpace 32) with true by reflexivity. cbn [Z.eqb Pos.eqb andb].
      destruct (collapseSpaces true r) as [|y r']; [reflexivity |].
      cbn [headClean] in Hh. rewrite Hh. reflexivity.
    + destruct (IH false) as [Hc _].
      split; [| intros _; exact Hspace].
      cbn [collapsed]. rewrite Hspace, Hc. reflexivity.
Qed.

Lemma collapsed_app (a b : jsstring) :
  collapsed (a ++ b) = true -> collapsed a = true /\ collapsed b = true.
Proof.
  induction a as [|x r IH]; cbn [app collapsed]; [auto |].
  intros [Hx Hr]%andb_true_iff. destruct (IH Hr) as [Ha Hb].
  split; [| exact Hb]. rewrite Ha, andb_true_r.
  destruct (isSpace x); [| reflexivity].
  apply andb_true_iff in Hx as [Hx Hnext]. rewrite Hx. cbn [andb].
  destruct r as [|y r']; [reflexivity | exact Hnext].
Qed.

(** [trim] cuts a block out of its argument. *)
Lemma trim_block (s : jsstring) :
  exists before behind, s = before ++ trim s ++ behind.
Proof.
  destruct (dropSpaces_split s) as [ws [Hs _]].
  destruct (dropSpaces_split (rev (dropSpaces s))) as [ws' [Hr _]].
  exists ws, (rev ws'). unfold trim.
  rewrite <- rev_app_distr, <- Hr, rev_involutive. exact Hs.
Qed.

Lemma trim_collapsed (s : jsstring) : collapsed s = true -> collapsed (trim s) = true.
Proof.
  destruct (trim_block s) as (before & behind & Hs). intros Hc.
  rewrite Hs in Hc. apply collapsed_app in Hc as [_ Hc].
  apply collapsed_app in Hc as [Hc _]. exact Hc.
Qed.

Lemma trim_normalized (s : jsstring) : collapsed s = true -> inNormalForm (trim s).
Proof.
  intros Hc. split; [apply trim_collapsed, Hc |].
  split; [apply trim_headClean | apply trim_lastClean].
Qed.

Lemma normalized_fixed (s : jsstring) : inNormalForm s -> normalizeText s = s.
Proof.
  intros (Hc & Hhead & Hlast). unfold normalizeText.
  rewrite (collapseSpaces_fixed _ Hc). unfold trim.
  rewrite (dropSpaces_id _ Hhead), (dropSpaces_id _ Hlast). apply rev_involutive.
Qed.

Lemma normalizeText_normalized (s : jsstring) : inNormalForm (normalizeText s).
Proof. apply trim_normalized, (collapseSpaces_collapsed s false). Qed.

(** [X1] [normalizeText] gives a text whose white space is single spaces
    between other code units, with none at the ends, and leaves such a text
    as it is; so normalizing twice is normalizing once. *)
Theorem normalizeText_idempotent (s : jsstring) :
  inNormalForm (normalizeText s)
  /\ normalizeText (normalizeText s) = normalizeText s
  /\ (forall t, normalizeText t = t <-> inNormalForm t).
Proof.
  split; [apply normalizeText_normalized |].
  split; [apply normalized_fixed, normalizeText_normalized |].
  intros t. split; [| apply normalized_fixed].
  intros <-. apply normalizeText_normalized.
Qed.

(** ** hashString *)

Lemma toInt32_wraps (z : Z) : exists k, toInt32 z = z + k * 2 ^ 32.
Proof.
  exists (- ((z + 2 ^ 31) / 2 ^ 32)). unfold toInt32.
  pose proof (Z.div_mod (z + 2 ^ 31) (2 ^ 32) ltac:(lia)). lia.
Qed.

Lemma toInt32_add_multiple (z k : Z) : toInt32 (z + k * 2 ^ 32) = toInt32 z.
Proof.
  unfold toInt32. replace (z + k * 2 ^ 32 + 2 ^ 31) with (z + 2 ^ 31 + k * 2 ^ 32) by ring.
  rewrite Z_mod_plus_full. reflexivity.
Qed.

Lemma hashStep_polynomial (a char : Z) :
  hashStep (toInt32 a) char = toInt32 (31 * a + char).
Proof.
  unfold hashStep. rewrite Z.land_diag, Z.shiftl_mul_pow2 by lia.
  destruct (toInt32_wraps a) as [k1 Hk1].
  destruct (toInt32_wraps (toInt32 a)) as [k2 Hk2].
  destruct (toInt32_wraps (toInt32 (toInt32 a) * 2 ^ 5)) as [k3 Hk3].
  rewrite Hk3, Hk2, Hk1.
  replace ((a + k1 * 2 ^ 32 + k2 * 2 ^ 32) * 2 ^ 5 + k3 * 2 ^ 32
           - (a + k1 * 2 ^ 32) + char)
    with (31 * a + char + (31 * k1 + 32 * k2 + k3) * 2 ^ 32) by ring.
  apply toInt32_add_multiple.
Qed.

Lemma fold_left_step {A B : Type} (f : A -> B -> A) (x : B) (l : list B) (a : A) :
  fold_left f (x :: l) a = fold_left f l (f a x).
Proof. reflexivity. Qed.

Lemma hashFold_polynomial (str : jsstring) :
  forall a,
    fold_left hashStep str (toInt32 a)
    = toInt32 (fold_left (fun hash char => 31 * hash + char) str a).
Proof.
  induction str as [|c r IH]; intros a; [reflexivity |].
  rewrite !fold_left_step, hashStep_polynomial. apply IH.
Qed.

Lemma toInt32_zero : toInt32 0 = 0.
Proof. vm_compute. reflexivity. Qed.

(** [X2] [hashString] is the polynomial in 31 of the code units (the first
    code unit with the highest power) wrapped to a signed 32-bit integer: the
    wrap-around after every round loses nothing that a single wrap at the end
    would keep. *)
Theorem hashString_polynomial (str : jsstring) :
  hashString str = toInt32 (polynomial31 str)
  /\ - 2 ^ 31 <= hashString str < 2 ^ 31.
Proof.
  split; [| apply hashString_range].
  unfold hashString, polynomial31.
  rewrite <- toInt32_zero at 1. apply hashFold_polynomial.
Qed.

(** ** isLikelySameAnswer *)

Lemma strEq_sym (a b : jsstring) : strEq a b = strEq b a.
Proof.
  unfold strEq. destruct (decide (a = b)) as [-> | Hne]; [reflexivity |].
  rewrite !bool_decide_eq_false_2; [reflexivity | congruence | exact Hne].
Qed.

(** [X3] [isLikelySameAnswer] does not depend on the order of its arguments,
    holds between a text and itself unless the text is blank, and never holds
    for a blank text. *)
Theorem isLikelySameAnswer_symmetric (a b : jsstring) :
  isLikelySameAnswer a b = isLikelySameAnswer b a
  /\ (normalizeText a <> [] -> isLikelySameAnswer a a = true)
  /\ (normalizeText a = [] -> isLikelySameAnswer a b = false).
Proof.
  unfold isLikelySameAnswer.
  generalize (normalizeText a) as na. generalize (normalizeText b) as nb.
  intros nb na. repeat split.
  - rewrite (strEq_sym na), (orb_comm (negb (truthy na))),
      (andb_comm (80 <=? jsLength na)), (orb_comm (includes na nb)).
    reflexivity.
  - intros Hne. apply truthy_nonempty in Hne. rewrite Hne. cbn [negb orb].
    unfold strEq. rewrite bool_decide_eq_true_2; reflexivity.
  - intros Hblank. rewrite Hblank. reflexivity.
Qed.

(** ** The paths of extractLatestText *)

Lemma fst_after {A : Type} (ops : list PageOp) (k : Traced A) :
  fst (after ops k) = ops ++ fst k.
Proof. reflexivity. Qed.

Lemma scanContainers_ops (knownHashes : gset Z) (containers : list Container) :
  forall idx,
    Forall (fun op => isPrimaryOp op = true)
      (fst (scanContainers knownHashes idx containers)).
Proof.
  induction containers as [|container rest IH]; intros idx; cbn [scanContainers].
  - constructor.
  - specialize (IH (S idx)).
    destruct container as [error | | [text | error]];
      unfold throwIfRecoverableBrowserError;
      repeat case_match; rewrite ?fst_after; cbn [fst];
      repeat (first [apply Forall_app; split | apply Forall_cons; split
                    | apply Forall_nil | reflexivity | exact IH]).
Qed.

Lemma primaryExtraction_ops (page : Page) (knownHashes : gset Z) :
  Forall (fun op => isPrimaryOp op = true) (fst (primaryExtraction page knownHashes)).
Proof.
  unfold primaryExtraction. rewrite fst_after.
  apply Forall_app. split; [repeat constructor |].
  destruct (toUserContainers page) as [containers | error]; cbn [fst]; [| constructor].
  destruct (_ <=? _)%nat; cbn [fst]; [constructor |].
  destruct (0 <? _)%nat; cbn [fst]; [apply scanContainers_ops | constructor].
Qed.

Lemma extractLatestText_primary_ops (page : Page) (knownHashes : gset Z)
    (containers : list Container) :
  toUserContainers page = Ok containers ->
  Forall (fun op => isPrimaryOp op = true) (fst (extractLatestText page knownHashes)).
Proof.
  intros Hquery. unfold extractLatestText.
  pose proof (primaryExtraction_answers page knownHashes containers Hquery) as Hends.
  pose proof (primaryExtraction_ops page knownHashes) as Hops.
  generalize (fallbackExtraction page knownHashes) as fallback. intros fallback.
  destruct (snd (primaryExtraction page knownHashes)) as [text | error |];
    [exact Hops | exact Hops | contradiction].
Qed.

(** [X4] When the primary query answers (with any number of containers, none
    included), the extractor stays on the primary path: it queries no
    fallback selector and does not run the in-page scan.  The fallback
    cascade is reached only through a primary query that throws. *)
Theorem extractLatestText_fallback_only_on_failure
    (page : Page) (knownHashes : gset Z) (containers : list Container) :
  toUserContainers page = Ok containers ->
  (forall selector, In selector RESPONSE_SELECTORS ->
     ~ In (QueryAll selector) (fst (extractLatestText page knownHashes)))
  /\ ~ In EvaluateScan (fst (extractLatestText page knownHashes))
  /\ (forall selector idx,
        ~ In (ReadElementText selector idx) (fst (extractLatestText page knownHashes))).
Proof.
  intros Hquery.
  pose proof (extractLatestText_primary_ops page knownHashes containers Hquery) as Hops.
  rewrite List.Forall_forall in Hops.
  repeat split.
  - intros selector Hsel Hin. apply Hops in Hin. cbn [isPrimaryOp] in Hin.
    cbn [RESPONSE_SELECTORS In] in Hsel.
    repeat (destruct Hsel as [<- | Hsel]; [vm_compute in Hin; discriminate Hin |]).
    exact Hsel.
  - intros Hin. apply Hops in Hin. discriminate Hin.
  - intros selector idx Hin. apply Hops in Hin. discriminate Hin.
Qed.

Lemma extractLatestText_fallback_only_on_failure_witness :
  ~ In EvaluateScan
      (fst (extractLatestText (pageOf []) (seedKnownHashes []))).
Proof.
  apply (extractLatestText_fallback_only_on_failure (pageOf []) (seedKnownHashes []) []).
  reflexivity.
Defined.

Lemma throwIfRecoverable_thrown (error thrown : Thrown) (context : string) :
  throwIfRecoverableBrowserError error context = Some thrown ->
  contextualRecoverable thrown.
Proof.
  unfold throwIfRecoverableBrowserError.
  destruct (isRecoverableBrowserError error) eqn:Hrec; [| discriminate].
  intros [= <-]. split; [exact Hrec | eauto].
Qed.

Lemma scanElements_aborted (knownHashes : gset Z) (selector : string) (error : Thrown)
    (elements : list Element) :
  forall idx, snd (scanElements knownHashes selector idx elements) = Aborted error ->
              contextualRecoverable error.
Proof.
  induction elements as [|element rest IH]; intros idx; cbn [scanElements].
  - discriminate.
  - specialize (IH (S idx)).
    destruct (closest element) as [[[text | e] |] | e];
      try destruct (elementText element) as [text' | e'];
      repeat match goal with
             | |- context [throwIfRecoverableBrowserError ?x ?c] =>
                 let H := fresh "Hthrow" in
                 destruct (throwIfRecoverableBrowserError x c) eqn:H;
                 [apply throwIfRecoverable_thrown in H |]
             | |- context [if ?b then _ else _] => destruct b
             end;
      rewrite ?snd_after; cbn [snd]; try discriminate; try exact IH;
      intros [= <-]; assumption.
Qed.

Lemma scanSelectors_aborted (page : Page) (knownHashes : gset Z) (error : Thrown)
    (selectors : list string) :
  snd (scanSelectors page knownHashes selectors) = Aborted error ->
  contextualRecoverable error.
Proof.
  induction selectors as [|selector rest IH]; cbn [scanSelectors].
  - discriminate.
  - destruct (queryAll page selector) as [[|element elements] | e].
    + exact IH.
    + destruct (snd (scanElements knownHashes selector 0 (element :: elements)))
        as [text | e |].
      * discriminate.
      * destruct (throwIfRecoverableBrowserError e _) eqn:Hthrow;
          rewrite ?snd_after; cbn [snd]; [| exact IH].
        intros [= <-]. exact (throwIfRecoverable_thrown _ _ _ Hthrow).
      * exact IH.
    + destruct (throwIfRecoverableBrowserError e _) eqn:Hthrow;
        rewrite ?snd_after; cbn [snd]; [| exact IH].
      intros [= <-]. exact (throwIfRecoverable_thrown _ _ _ Hthrow).
Qed.

Lemma fallbackExtraction_throws (page : Page) (knownHashes : gset Z) (error : Thrown) :
  snd (fallbackExtraction page knownHashes) = Throws error ->
  contextualRecoverable error.
Proof.
  unfold fallbackExtraction.
  destruct (snd (scanSelectors page knownHashes RESPONSE_SELECTORS))
    as [text | e |] eqn:Hscan; rewrite ?snd_after; cbn [snd].
  - discriminate.
  - intros [= <-]. exact (scanSelectors_aborted _ _ _ _ Hscan).
  - unfold lastResortExtraction. cbn [snd].
    destruct (evaluateScan page) as [document | e].
    + destruct (lastResortScan document) as [t |]; [| discriminate].
      destruct (truthy (trim t)); discriminate.
    + destruct (throwIfRecoverableBrowserError e _) eqn:Hthrow; [| discriminate].
      intros [= <-]. exact (throwIfRecoverable_thrown _ _ _ Hthrow).
Qed.

Lemma primaryExtraction_throws (page : Page) (knownHashes : gset Z) (error : Thrown) :
  snd (primaryExtraction page knownHashes) = PrimaryThrows error ->
  contextualRecoverable error.
Proof.
  unfold primaryExtraction, primaryCatch. rewrite snd_after.
  destruct (toUserContainers page) as [containers | e]; cbn [snd].
  - destruct (_ <=? _)%nat; cbn [snd]; [discriminate |].
    destruct (0 <? _)%nat; cbn [snd]; [| discriminate].
    destruct (snd (scanContainers knownHashes 0 containers)) as [text | e |];
      try discriminate.
    destruct (throwIfRecoverableBrowserError e _) eqn:Hthrow; [| discriminate].
    intros [= <-]. exact (throwIfRecoverable_thrown _ _ _ Hthrow).
  - destruct (throwIfRecoverableBrowserError e _) eqn:Hthrow; [| discriminate].
    intros [= <-]. exact (throwIfRecoverable_thrown _ _ _ Hthrow).
Qed.

Lemma extractLatestText_throws_contextual
    (page : Page) (knownHashes : gset Z) (error : Thrown) :
  snd (extractLatestText page knownHashes) = Throws error ->
  contextualRecoverable error.
Proof.
  rewrite extractLatestText_cases.
  pose proof (fallbackExtraction_throws page knownHashes error) as Hfallback.
  pose proof (primaryExtraction_throws page knownHashes error) as Hprimary.
  destruct (snd (primaryExtraction page knownHashes)) as [text | e |].
  - discriminate.
  - intros [= ->]. exact (Hprimary eq_refl).
  - exact Hfallback.
Qed.

(** [X5] Whatever the page does, an error that [extractLatestText] throws is
    a browser-state error with the context of the failing stage in front of
    it; a failure of any other kind, of a query or of one element, is
    swallowed. *)
Theorem extractLatestText_throws_recoverable
    (page : Page) (knownHashes : gset Z) (error : Thrown) :
  snd (extractLatestText page knownHashes) = Throws error ->
  isRecoverableBrowserError error = true
  /\ exists context cause, error = Contextual context cause.
Proof. exact (extractLatestText_throws_contextual page knownHashes error). Qed.

Lemma extractLatestText_throws_recoverable_witness :
  isRecoverableBrowserError
    (Contextual "Browser page unavailable in primary extraction"
       (PageFailure true "Target page, context or browser has been closed")) = true.
Proof.
  apply (extractLatestText_throws_recoverable
           {| toUserContainers :=
                Throws (PageFailure true "Target page, context or browser has been closed");
              queryAll := fun _ => Ok [];
              evaluateScan := Ok (fun _ => []) |} ∅).
  reflexivity.
Defined.

Lemma scanContainers_first (knownHashes : gset Z) (containers : list Container) :
  noRecoverableFailure containers ->
  forall idx,
    snd (scanContainers knownHashes idx containers)
    = match List.find (isNewText knownHashes) (readableTexts containers) with
      | Some text => Found (trim text)
      | None => Exhausted
      end.
Proof.
  unfold noRecoverableFailure, isNewText.
  induction 1 as [|container rest Hhere _ IH]; intros idx; [reflexivity |].
  cbn [scanContainers readableTexts omap list_omap]. specialize (IH (S idx)).
  destruct container as [error | | [text | error]];
    unfold throwIfRecoverableBrowserError; rewrite ?Hhere, ?snd_after; try exact IH.
  cbn [List.find].
  destruct (nonBlank text); cbn [andb]; rewrite ?snd_after; [| exact IH].
  destruct (knows knownHashes (textHash text)); cbn [negb snd]; rewrite ?snd_after;
    [exact IH | reflexivity].
Qed.

Lemma primaryPath_first_new
    (page : Page) (knownHashes : gset Z) (containers : list Container) :
  toUserContainers page = Ok containers ->
  (size knownHashes < length containers)%nat ->
  noRecoverableFailure containers ->
  snd (extractLatestText page knownHashes)
  = Ok (trim <$> List.find (isNewText knownHashes) (readableTexts containers)).
Proof.
  intros Hquery Hsize Hclean.
  rewrite extractLatestText_cases. unfold primaryExtraction.
  rewrite Hquery, snd_after.
  assert (Hgt : (length containers <=? size knownHashes)%nat = false)
    by (apply Nat.leb_gt; exact Hsize).
  assert (Hpos : (0 <? length containers)%nat = true) by (apply Nat.ltb_lt; lia).
  rewrite Hgt, Hpos. cbn [snd].
  rewrite (scanContainers_first knownHashes containers Hclean 0).
  destruct (List.find _ _); reflexivity.
Qed.

(** [X6] On the primary path the first new container wins: when the query
    finds more containers than the known set has fingerprints and no
    container fails with a browser-state error, the candidate is the trimmed
    text of the first container, in DOM order, whose text is not blank and
    has an unknown fingerprint; containers that cannot be read are skipped.
    There is no candidate when no container has such a text. *)
Theorem extractLatestText_first_new
    (page : Page) (knownHashes : gset Z) (containers : list Container) :
  toUserContainers page = Ok containers ->
  (size knownHashes < length containers)%nat ->
  noRecoverableFailure containers ->
  snd (extractLatestText page knownHashes)
  = Ok (trim <$> List.find (isNewText knownHashes) (readableTexts containers)).
Proof. exact (primaryPath_first_new page knownHashes containers). Qed.

Lemma extractLatestText_first_new_witness :
  snd (extractLatestText
         (pageOf [answerContainer "Berlin is the capital of Germany.";
                  NoTextElement;
                  answerContainer " Paris. "])
         (seedKnownHashes [js "Berlin is the capital of Germany."]))
  = Ok (Some (js "Paris.")).
Proof.
  rewrite (extractLatestText_first_new _ _
             [answerContainer "Berlin is the capital of Germany.";
              NoTextElement;
              answerContainer " Paris. "]).
  - vm_compute. reflexivity.
  - reflexivity.
  - vm_compute. lia.
  - repeat constructor.
Defined.

(** ** The snapshots *)

Lemma snapshotLoop_spec (containers : list Container) :
  forall allTexts,
    snapshotLoop allTexts containers
    = allTexts ++ List.map trim (List.filter nonBlank (readableTexts containers)).
Proof.
  induction containers as [|container rest IH]; intros allTexts;
    cbn [snapshotLoop readableTexts omap list_omap].
  - rewrite app_nil_r. reflexivity.
  - destruct container as [error | | [text | error]]; try apply IH.
    cbn [List.filter]. destruct (nonBlank text); [| apply IH].
    rewrite IH, <- app_assoc. reflexivity.
Qed.

Lemma snapshotAllResponses_spec (page : Page) (containers : list Container) :
  toUserContainers page = Ok containers ->
  snapshotAllResponses page
  = List.map trim (List.filter nonBlank (readableTexts containers)).
Proof.
  intros Hquery. unfold snapshotAllResponses. rewrite Hquery.
  destruct containers as [|container rest]; [reflexivity |].
  cbn [length Nat.ltb Nat.leb]. apply (snapshotLoop_spec _ []).
Qed.

Lemma knows_empty (hash : Z) : knows ∅ hash = false.
Proof. unfold knows. apply bool_decide_eq_false_2. set_solver. Qed.

Lemma head_map_filter {A B : Type} (f : A -> B) (p : A -> bool) (l : list A) :
  head (List.map f (List.filter p l)) = f <$> List.find p l.
Proof.
  induction l as [|x l IH]; [reflexivity |]. cbn [List.filter List.find].
  destruct (p x); [reflexivity | exact IH].
Qed.

Lemma find_same {A : Type} (p q : A -> bool) (l : list A) :
  (forall x, p x = q x) -> List.find p l = List.find q l.
Proof.
  intros Hpq. induction l as [|x l IH]; [reflexivity |]. cbn [List.find].
  rewrite Hpq, IH. reflexivity.
Qed.

(** [X7] [snapshotLatestResponse] gives the first text [snapshotAllResponses]
    captures, that is the text of the first container in DOM order that has
    a text, not of the last one (as long as the query answers and no
    container fails with a browser-state error); it gives null exactly when
    [snapshotAllResponses] captures nothing. *)
Theorem snapshotLatestResponse_is_first
    (page : Page) (containers : list Container) :
  toUserContainers page = Ok containers ->
  noRecoverableFailure containers ->
  snd (snapshotLatestResponse page) = Ok (head (snapshotAllResponses page)).
Proof.
  intros Hquery Hclean. unfold snapshotLatestResponse.
  rewrite (snapshotAllResponses_spec _ _ Hquery), head_map_filter.
  destruct containers as [|container rest].
  - rewrite extractLatestText_cases. unfold primaryExtraction.
    rewrite Hquery, snd_after. reflexivity.
  - rewrite (primaryPath_first_new page ∅ _ Hquery); [| | exact Hclean].
    + f_equal. f_equal. apply find_same. intros text.
      unfold isNewText. rewrite knows_empty. apply andb_true_r.
    + rewrite size_empty. cbn [length]. lia.
Qed.

Lemma snapshotLatestResponse_is_first_witness :
  snd (snapshotLatestResponse
         (pageOf [NoTextElement;
                  answerContainer "Berlin is the capital of Germany.";
                  answerContainer "Paris."]))
  = Ok (Some (js "Berlin is the capital of Germany.")).
Proof.
  rewrite (snapshotLatestResponse_is_first _
             [NoTextElement;
              answerContainer "Berlin is the capital of Germany.";
              answerContainer "Paris."]).
  - vm_compute. reflexivity.
  - reflexivity.
  - repeat constructor.
Defined.

(** ** A snapshot as ignore texts *)

Lemma seedFold_elem (hash : Z) (texts : list jsstring) :
  forall known : gset Z,
    hash ∈ known
    \/ (exists text, In text texts /\ truthy (trim text) = true
                     /\ hash = hashString (trim text)) ->
    hash ∈ fold_left
             (fun known text =>
                if truthy (trim text) then {[ hashString (trim text) ]} ∪ known else known)
             texts known.
Proof.
  induction texts as [|text rest IH]; intros known; cbn [fold_left].
  - intros [Hin | (text & [] & _)]. exact Hin.
  - intros [Hin | (text' & [<- | Hin] & Htruthy & ->)]; apply IH.
    + left. destruct (truthy (trim text)); [apply elem_of_union_r |]; exact Hin.
    + left. rewrite Htruthy. apply elem_of_union_l, elem_of_singleton. reflexivity.
    + right. eauto.
Qed.

Lemma seedKnownHashes_elem (texts : list jsstring) (text : jsstring) :
  In text texts -> truthy (trim text) = true ->
  hashString (trim text) ∈ seedKnownHashes texts.
Proof.
  intros Hin Htruthy. unfold seedKnownHashes. apply seedFold_elem. right. eauto.
Qed.

Lemma scanContainers_found_source (knownHashes : gset Z) (t : jsstring)
    (containers : list Container) :
  forall idx, snd (scanContainers knownHashes idx containers) = Found t ->
    exists text, In text (readableTexts containers) /\ nonBlank text = true
                 /\ t = trim text.
Proof.
  induction containers as [|container rest IH]; intros idx;
    cbn [scanContainers readableTexts omap list_omap].
  - discriminate.
  - specialize (IH (S idx)).
    destruct container as [error | | [text | error]];
      unfold throwIfRecoverableBrowserError;
      repeat case_match; rewrite ?snd_after; cbn [snd]; try discriminate;
      try exact IH.
    + intros [= <-]. exists text. split; [left; reflexivity | auto].
    + intros Hfound. destruct (IH Hfound) as (text' & Hin & Hrest).
      exists text'. split; [right; exact Hin | exact Hrest].
    + intros Hfound. destruct (IH Hfound) as (text' & Hin & Hrest).
      exists text'. split; [right; exact Hin | exact Hrest].
Qed.

Lemma primaryPath_candidate_source
    (page : Page) (knownHashes : gset Z) (containers : list Container) (c : jsstring) :
  toUserContainers page = Ok containers ->
  snd (extractLatestText page knownHashes) = Ok (Some c) ->
  exists text, In text (readableTexts containers) /\ nonBlank text = true
               /\ c = trim text.
Proof.
  intros Hquery. rewrite extractLatestText_cases.
  pose proof (primaryExtraction_answers page knownHashes containers Hquery) as Hends.
  revert Hends. unfold primaryExtraction. rewrite Hquery, snd_after.
  destruct (_ <=? _)%nat; cbn [snd]; [discriminate |].
  destruct (0 <? _)%nat; cbn [snd]; [| contradiction].
  destruct (snd (scanContainers knownHashes 0 containers)) as [text | error |] eqn:Hscan.
  - intros _ [= <-]. exact (scanContainers_found_source _ _ _ _ Hscan).
  - unfold primaryCatch. destruct (throwIfRecoverableBrowserError error _);
      [discriminate | contradiction].
  - discriminate.
Qed.

Lemma nothing_new_after_snapshot
    (page : Page) (knownHashes : gset Z) (containers : list Container) (c : jsstring) :
  toUserContainers page = Ok containers ->
  seedKnownHashes (snapshotAllResponses page) ⊆ knownHashes ->
  snd (extractLatestText page knownHashes) <> Ok (Some c).
Proof.
  intros Hquery Hseed Hextract.
  destruct (extractLatestText_primary_new _ _ _ _ Hquery Hextract) as (_ & _ & Hnew).
  destruct (primaryPath_candidate_source _ _ _ _ Hquery Hextract)
    as (text & Hin & Hblank & ->).
  destruct (nonBlank_trimmed text Hblank) as [Htruthy Hidem].
  assert (Hknown : hashString (trim text) ∈ knownHashes).
  { apply Hseed. rewrite <- Hidem. apply seedKnownHashes_elem.
    - rewrite (snapshotAllResponses_spec _ _ Hquery).
      apply in_map, filter_In. split; [exact Hin | exact Hblank].
    - rewrite Hidem. exact Htruthy. }
  unfold knows in Hnew. apply bool_decide_eq_false in Hnew. exact (Hnew Hknown).
Qed.

(** [X8] What [snapshotAllResponses] captured of a page is not new on that
    page: with the known set seeded from the snapshot (and whatever else it
    holds), [extractLatestText] gives no candidate as long as the primary
    query answers with the same containers. *)
Theorem extractLatestText_nothing_new_after_snapshot
    (page : Page) (knownHashes : gset Z) (containers : list Container) :
  toUserContainers page = Ok containers ->
  seedKnownHashes (snapshotAllResponses page) ⊆ knownHashes ->
  forall c, snd (extractLatestText page knownHashes) <> Ok (Some c).
Proof.
  intros Hquery Hseed c.
  exact (nothing_new_after_snapshot page knownHashes containers c Hquery Hseed).
Qed.

Lemma extractLatestText_nothing_new_after_snapshot_witness :
  snd (extractLatestText
         (pageOf [answerContainer "Berlin is the capital of Germany.";
                  answerContainer " "; answerContainer "Madrid."])
         (seedKnownHashes [js "Berlin is the capital of Germany."; js "Madrid."]))
  <> Ok (Some (js "Madrid.")).
Proof.
  apply (extractLatestText_nothing_new_after_snapshot _ _
           [answerContainer "Berlin is the capital of Germany.";
            answerContainer " "; answerContainer "Madrid."]).
  - reflexivity.
  - intros hash Hin. exact Hin.
Defined.

(** ** Further facts about the polling loop *)

Section PollingFurther.

Variable toLowerCase : jsstring -> jsstring.
Variable world : World.
Variable options : Options.

Local Abbreviation body := (pollBody toLowerCase world options).
Local Abbreviation detect := (extractAndDetect toLowerCase world options).
Local Abbreviation loop := (pollLoop toLowerCase world options).

Lemma pollLoop_length (remaining : nat) :
  forall st, (length (fst (loop remaining st)) <= remaining)%nat.
Proof.
  induction remaining as [|remaining IH]; intros st; rewrite pollLoop_unfold.
  - destruct (_ <? _); cbn [fst length]; lia.
  - destruct (_ <? _); [| cbn [fst length]; lia].
    destruct (body (tick st)) as [candidate [st' | answer | error]];
      cbn [fst length]; [specialize (IH st') |..]; lia.
Qed.

(** An answer of the loop was the candidate of the extractor at some poll,
    for a known set that holds at least what the loop started with. *)
Lemma pollLoop_answer_extracted (t : jsstring) (remaining : nat) :
  forall st,
    snd (loop remaining st) = Resolved (Some t) ->
    exists n known,
      knownHashes st ⊆ known
      /\ snd (extractLatestText (page (polls world n)) known) = Ok (Some t).
Proof.
  induction remaining as [|remaining IH]; intros st; rewrite pollLoop_unfold.
  - destruct (_ <? _); cbn [snd]; intros Hres; exfalso;
      exact (afterLoop_no_answer _ _ _ _ Hres).
  - destruct (_ <? _);
      [| cbn [snd]; intros Hres; exfalso; exact (afterLoop_no_answer _ _ _ _ Hres)].
    destruct (body (tick st)) as [candidate step] eqn:Hbody.
    destruct step as [st' | answer | error]; cbn [snd]; intros Hres.
    + apply pollBody_continue in Hbody as [_ Hknown]. cbn [tick knownHashes] in Hknown.
      destruct (IH st' Hres) as (n & known & Hsub & Hextract).
      exists n, known. split; [etrans; eassumption | exact Hextract].
    + injection Hres as ->.
      apply pollBody_inv in Hbody as [[_ [[e He] | [st' [He _]]]] | [st1 [Hsame Hdetect]]];
        [discriminate He | discriminate He |].
      destruct Hsame as (_ & _ & _ & Hknown). cbn [nextPoll tick knownHashes] in Hknown.
      apply extractAndDetect_return in Hdetect as (c & Hextract & ->).
      destruct (extractLatestText_trimmed _ _ _ Hextract) as [_ Htrim].
      exists (pollCount st1), (knownHashes st1).
      split; [rewrite Hknown; reflexivity | rewrite Htrim; exact Hextract].
    + discriminate Hres.
Qed.

Lemma waitForPollInterval_error (wait : Wait) (interval : Z) (st st' : PollState)
    (error : Thrown) :
  waitForPollInterval world wait interval st = (st', Some error) ->
  contextualRecoverable error
  \/ (wait = WaitThrows error /\ isRecoverableBrowserError error = false).
Proof.
  unfold waitForPollInterval. destruct wait as [| cause].
  - destruct (_ <? _); discriminate.
  - destruct (throwIfRecoverableBrowserError cause _) as [thrown |] eqn:Hthrow.
    + intros [= _ <-]. left. exact (throwIfRecoverable_thrown _ _ _ Hthrow).
    + intros [= _ <-]. right. split; [reflexivity |].
      unfold throwIfRecoverableBrowserError in Hthrow.
      destruct (isRecoverableBrowserError cause); [discriminate | reflexivity].
Qed.

Lemma assertPageResponsive_error (probe : Probe) (timeout : Z) (error : Thrown) :
  assertPageResponsive probe timeout = Some error ->
  isRecoverableBrowserError error = true /\ exists cause, error = Unresponsive cause.
Proof.
  destruct probe; cbn [assertPageResponsive]; [discriminate | |];
    intros [= <-]; split; eauto.
Qed.

Lemma endOfPoll_throw (st : PollState) (error : Thrown) :
  endOfPoll world options st = Throw error -> escapes world error.
Proof.
  unfold endOfPoll, escapes.
  destruct (waitForPollInterval world _ _ st) as [st1 [e |]] eqn:Hwait.
  - intros [= <-]. apply waitForPollInterval_error in Hwait as [[Hrec _] | Hraw]; eauto.
  - destruct (_ <=? _)%nat; [| discriminate].
    destruct (assertPageResponsive _ _) as [e |] eqn:Hprobe; [| discriminate].
    intros [= <-]. left. exact (proj1 (assertPageResponsive_error _ _ _ Hprobe)).
Qed.

Lemma extractAndDetect_throw (st : PollState) (candidate : option jsstring)
    (error : Thrown) :
  detect st = (candidate, Throw error) -> escapes world error.
Proof.
  unfold extractAndDetect.
  pose proof (endOfPoll_throw st error) as Hend.
  destruct (snd (extractLatestText _ _)) as [[c |] | e] eqn:Hextract.
  - intros [= _ Hstep]. revert Hstep.
    destruct (truthy c); [| exact Hend].
    destruct (truthy (trim c)); [| exact Hend].
    destruct (strEq _ _).
    + destruct (waitForPollInterval world _ _ _) as [st1 [e |]] eqn:Hwait;
        [| discriminate].
      intros [= <-].
      apply waitForPollInterval_error in Hwait as [[Hrec _] | Hraw];
        [left; exact Hrec | right; eauto].
    + repeat case_match; try discriminate; apply endOfPoll_throw.
  - intros [= _ Hstep]. exact (Hend Hstep).
  - intros [= _ <-]. left.
    exact (proj1 (extractLatestText_throws_contextual _ _ _ Hextract)).
Qed.

Lemma pollBody_throw (st : PollState) (candidate : option jsstring) (error : Thrown) :
  body st = (candidate, Throw error) -> escapes world error.
Proof.
  unfold pollBody, thinkingCatch.
  destruct (if (_ =? 0)%nat then _ else _) as [e |] eqn:Hhealth.
  { intros [= _ <-]. left.
    destruct (_ =? 0)%nat; [| discriminate].
    exact (proj1 (assertPageResponsive_error _ _ _ Hhealth)). }
  assert (Hcatch : forall e st1,
            match throwIfRecoverableBrowserError e
                    "Browser page unavailable while checking thinking indicator" with
            | Some thrown => (None, Throw thrown)
            | None => detect st1
            end = (candidate, Throw error) -> escapes world error).
  { intros e st1.
    destruct (throwIfRecoverableBrowserError e _) as [thrown |] eqn:Hthrow.
    - intros [= _ <-]. left. exact (proj1 (throwIfRecoverable_thrown _ _ _ Hthrow)).
    - apply extractAndDetect_throw. }
  destruct (thinking _) as [e | | [[|] | e]];
    try apply Hcatch; try apply extractAndDetect_throw.
  destruct (waitForPollInterval world _ _ _) as [st1 [e |]];
    [apply Hcatch | discriminate].
Qed.

Lemma pollLoop_rejected (error : Thrown) (remaining : nat) :
  forall st, snd (loop remaining st) = Rejected error -> escapes world error.
Proof.
  assert (Hafter : forall st, afterLoop world options st = Rejected error -> escapes world error).
  { intros st. unfold afterLoop.
    repeat case_match; try discriminate. intros [= <-]. left. reflexivity. }
  induction remaining as [|remaining IH]; intros st; rewrite pollLoop_unfold.
  - destruct (_ <? _); cbn [snd]; apply Hafter.
  - destruct (_ <? _); [| cbn [snd]; apply Hafter].
    destruct (body (tick st)) as [candidate step] eqn:Hbody.
    destruct step as [st' | answer | e]; cbn [snd].
    + apply IH.
    + discriminate.
    + intros [= <-]. exact (pollBody_throw _ _ _ Hbody).
Qed.

End PollingFurther.

(** [X9] A call makes at most [maxPolls] polls, whatever the page and the
    clock do; [maxPolls] is at least 120 and at least five times the expected
    number of polls, and the expected polls at the effective interval cover
    the timeout. *)
Theorem waitForLatestAnswer_polls_bounded
    (toLowerCase : jsstring -> jsstring) (world : World) (options : Options) :
  (length (polledCandidates toLowerCase world options) <= maxPolls options)%nat
  /\ (120 <= maxPolls options)%nat
  /\ POLL_GUARD_MULTIPLIER * expectedPolls options <= Z.of_nat (maxPolls options)
  /\ timeoutMs options <= expectedPolls options * safePollIntervalMs options.
Proof.
  split; [apply pollLoop_length |].
  unfold maxPolls, MIN_POLL_GUARD, POLL_GUARD_MULTIPLIER.
  split; [lia |]. split; [lia |].
  unfold expectedPolls, safePollIntervalMs, MIN_POLL_INTERVAL_MS.
  set (interval := Z.max 100 (pollIntervalMs options)).
  assert (Hpos : 0 < interval) by (unfold interval; lia).
  pose proof (Z.div_mod (- timeoutMs options) interval ltac:(lia)) as Hdiv.
  pose proof (Z.mod_pos_bound (- timeoutMs options) interval Hpos) as Hmod.
  nia.
Qed.

(** [X10] With a timeout that is not positive (and a clock that does not run
    backwards between its first two readings) the call resolves to null
    without a single poll. *)
Theorem waitForLatestAnswer_no_patience
    (toLowerCase : jsstring -> jsstring) (world : World) (options : Options) :
  timeoutMs options <= 0 ->
  clock world 0 <= clock world 1 ->
  waitForLatestAnswer toLowerCase world options = Resolved None
  /\ polledCandidates toLowerCase world options = [].
Proof.
  intros Htimeout Hclock.
  assert (Hpast : (clock world 1 <? deadline world options) = false)
    by (apply Z.ltb_ge; unfold deadline; lia).
  assert (Hguard : (maxPolls options <=? 0)%nat = false).
  { apply Nat.leb_gt. unfold maxPolls, MIN_POLL_GUARD. lia. }
  assert (Hrun : runPolls toLowerCase world options = ([], Resolved None)).
  { unfold runPolls. rewrite pollLoop_unfold.
    change (ticks (initialState options)) with 1%nat. rewrite Hpast.
    unfold afterLoop.
    change (pollCount (tick (initialState options))) with 0%nat.
    rewrite Hguard. reflexivity. }
  unfold waitForLatestAnswer, polledCandidates. rewrite Hrun. split; reflexivity.
Qed.

Lemma waitForLatestAnswer_no_patience_witness :
  waitForLatestAnswer asciiLower parisWorld noPatience = Resolved None
  /\ polledCandidates asciiLower parisWorld noPatience = [].
Proof.
  apply (waitForLatestAnswer_no_patience asciiLower parisWorld noPatience).
  - apply Z.leb_le. reflexivity.
  - apply Z.leb_le. reflexivity.
Defined.

(** [X11] An error the call rejects with is a browser-state error (this
    takes in the health check and the polling guard), or it is the error,
    not a browser-state one, that [page.waitForTimeout] threw in the wait at
    the end of a poll, passed on as it came.  A failure of another kind in
    the thinking check, in the wait of the thinking branch or in the
    extraction never ends the call. *)
Theorem waitForLatestAnswer_rejections
    (toLowerCase : jsstring -> jsstring) (world : World) (options : Options)
    (error : Thrown) :
  waitForLatestAnswer toLowerCase world options = Rejected error ->
  isRecoverableBrowserError error = true
  \/ exists n, pollWait (polls world n) = WaitThrows error
               /\ isRecoverableBrowserError error = false.
Proof. apply pollLoop_rejected. Qed.

Lemma waitForLatestAnswer_rejections_witness :
  isRecoverableBrowserError (PollGuard 120) = true
  \/ exists n, pollWait (polls racingWorld n) = WaitThrows (PollGuard 120)
               /\ isRecoverableBrowserError (PollGuard 120) = false.
Proof.
  apply (waitForLatestAnswer_rejections asciiLower racingWorld twoSeconds).
  vm_compute. reflexivity.
Defined.

Lemma pollBody_thinking
    (toLowerCase : jsstring -> jsstring) (world : World) (options : Options)
    (st : PollState) :
  thinking (polls world (S (pollCount st))) = ThinkingElement (Ok true) ->
  thinkingWait (polls world (S (pollCount st))) = WaitReturns ->
  fst (pollBody toLowerCase world options st) = None
  /\ forall answer, snd (pollBody toLowerCase world options st) <> Return answer.
Proof.
  intros Hthinking Hwait. unfold pollBody. cbn [nextPoll pollCount].
  destruct (if (_ =? 0)%nat then _ else _) as [e |]; [split; [reflexivity | discriminate] |].
  rewrite Hthinking, Hwait. unfold waitForPollInterval.
  destruct (_ <? _); split; first [reflexivity | discriminate].
Qed.

(** The loop body with its call of the extractor does what the loop body
    does. *)
Lemma pollBodyCalled_result
    (toLowerCase : jsstring -> jsstring) (world : World) (options : Options)
    (st : PollState) :
  snd (pollBodyCalled toLowerCase world options st) = pollBody toLowerCase world options st.
Proof.
  unfold pollBodyCalled, pollBody, thinkingCatchCalled, thinkingCatch, extractAndDetectCalled.
  destruct (if (_ =? 0)%nat then _ else _) as [error |]; [reflexivity |].
  destruct (thinking _) as [error | | [[|] | error]].
  - destruct (throwIfRecoverableBrowserError error _); reflexivity.
  - reflexivity.
  - destruct (waitForPollInterval world _ _ _) as [st1 [error |]]; [| reflexivity].
    destruct (throwIfRecoverableBrowserError error _); reflexivity.
  - reflexivity.
  - destruct (throwIfRecoverableBrowserError error _); reflexivity.
Qed.

Lemma extractorCallsFrom_length
    (toLowerCase : jsstring -> jsstring) (world : World) (options : Options)
    (remaining : nat) :
  forall st,
    length (extractorCallsFrom toLowerCase world options remaining st)
    = length (fst (pollLoop toLowerCase world options remaining st)).
Proof.
  induction remaining as [|remaining IH]; intros st; rewrite pollLoop_unfold;
    cbn [extractorCallsFrom].
  - destruct (_ <? _); reflexivity.
  - destruct (_ <? _); [| reflexivity].
    pose proof (pollBodyCalled_result toLowerCase world options (tick st)) as Hsame.
    destruct (pollBodyCalled toLowerCase world options (tick st)) as [call [candidate step]].
    cbn [snd] in Hsame. rewrite <- Hsame.
    destruct step as [st' | answer | error]; cbn [fst length]; [| reflexivity | reflexivity].
    rewrite IH. reflexivity.
Qed.

Lemma pollBodyCalled_thinking
    (toLowerCase : jsstring -> jsstring) (world : World) (options : Options)
    (st : PollState) :
  thinking (polls world (S (pollCount st))) = ThinkingElement (Ok true) ->
  thinkingWait (polls world (S (pollCount st))) = WaitReturns ->
  fst (pollBodyCalled toLowerCase world options st) = None.
Proof.
  intros Hthinking Hwait. unfold pollBodyCalled. cbn [nextPoll pollCount].
  destruct (if (_ =? 0)%nat then _ else _) as [e |]; [reflexivity |].
  rewrite Hthinking, Hwait. unfold waitForPollInterval.
  destruct (_ <? _); reflexivity.
Qed.

(** [X12] While the thinking indicator is visible at every poll (and the
    wait of the thinking branch returns), no poll calls the extractor: every
    iteration of the loop, of which the list of calls has one entry each,
    ends without the call.  No poll has a candidate, and the call returns no
    answer: it ends in null, at the deadline, or in an error. *)
Theorem waitForLatestAnswer_never_while_thinking
    (toLowerCase : jsstring -> jsstring) (world : World) (options : Options) :
  (forall n, thinking (polls world n) = ThinkingElement (Ok true)) ->
  (forall n, thinkingWait (polls world n) = WaitReturns) ->
  Forall (fun call => call = None) (extractorCalls toLowerCase world options)
  /\ length (extractorCalls toLowerCase world options)
     = length (polledCandidates toLowerCase world options)
  /\ Forall (fun candidate => candidate = None) (polledCandidates toLowerCase world options)
  /\ forall t, waitForLatestAnswer toLowerCase world options <> Resolved (Some t).
Proof.
  intros Hthinking Hwait.
  split; [| split; [apply extractorCallsFrom_length |]].
  - unfold extractorCalls.
    generalize (initialState options) as st. generalize (maxPolls options) as remaining.
    induction remaining as [|remaining IH]; intros st; cbn [extractorCallsFrom].
    + destruct (_ <? _); constructor.
    + destruct (_ <? _); [| constructor].
      pose proof (pollBodyCalled_thinking toLowerCase world options (tick st)
                    (Hthinking _) (Hwait _)) as Hnone.
      destruct (pollBodyCalled toLowerCase world options (tick st))
        as [call [candidate step]].
      cbn [fst] in Hnone. subst call.
      destruct step as [st' | answer | error]; repeat constructor. apply IH.
  - unfold polledCandidates, waitForLatestAnswer, runPolls.
    generalize (initialState options) as st. generalize (maxPolls options) as remaining.
    induction remaining as [|remaining IH]; intros st; rewrite pollLoop_unfold.
    + destruct (_ <? _); cbn [fst snd];
        (split; [constructor | intros t; apply afterLoop_no_answer]).
    + destruct (_ <? _); cbn [fst snd];
        [| split; [constructor | intros t; apply afterLoop_no_answer]].
      destruct (pollBody_thinking toLowerCase world options (tick st)
                  (Hthinking _) (Hwait _)) as [Hnone Hstep].
      destruct (pollBody toLowerCase world options (tick st)) as [candidate step].
      cbn [fst snd] in Hnone, Hstep. subst candidate.
      destruct step as [st' | answer | error]; cbn [fst snd].
      * destruct (IH st') as [Hall Hno].
        split; [constructor; [reflexivity | exact Hall] | exact Hno].
      * exfalso. exact (Hstep answer eq_refl).
      * split; [repeat constructor | discriminate].
Qed.

Lemma waitForLatestAnswer_never_while_thinking_witness :
  Forall (fun call => call = None) (extractorCalls asciiLower racingWorld twoSeconds)
  /\ length (extractorCalls asciiLower racingWorld twoSeconds)
     = length (polledCandidates asciiLower racingWorld twoSeconds)
  /\ Forall (fun candidate => candidate = None)
       (polledCandidates asciiLower racingWorld twoSeconds)
  /\ forall t, waitForLatestAnswer asciiLower racingWorld twoSeconds <> Resolved (Some t).
Proof.
  apply (waitForLatestAnswer_never_while_thinking asciiLower racingWorld twoSeconds).
  - intros n. reflexivity.
  - intros n. reflexivity.
Defined.

(** A poll that calls the extractor and gets no candidate shows in the list
    of calls, with the one query the call made. *)
Lemma extractorCalls_without_candidate :
  extractorCalls asciiLower emptyWorld twoSeconds = [Some [QueryAll primarySelector]]
  /\ polledCandidates asciiLower emptyWorld twoSeconds = [None].
Proof. split; vm_compute; reflexivity. Qed.

Lemma counted_not_echo
    (toLowerCase : jsstring -> jsstring) (options : Options)
    (candidate : option jsstring) (t : jsstring) :
  counted toLowerCase options candidate = Some t ->
  toLowerCase t <> sanitizedQuestion toLowerCase options.
Proof.
  unfold counted. destruct candidate as [c |]; [| discriminate].
  destruct (truthy c && truthy (trim c)); cbn [andb]; [| discriminate].
  destruct (strEq _ _) eqn:Hecho; cbn [negb]; [discriminate |].
  intros [= <-] Heq. apply strEq_true in Heq. congruence.
Qed.

(** [X13] The answer of a call is never the echo of the question: its
    lower-cased form differs from the trimmed, lower-cased question. *)
Theorem waitForLatestAnswer_never_the_question
    (toLowerCase : jsstring -> jsstring) (world : World) (options : Options)
    (t : jsstring) :
  waitForLatestAnswer toLowerCase world options = Resolved (Some t) ->
  toLowerCase t <> toLowerCase (trim (question options)).
Proof.
  intros Hanswer.
  destruct (pollLoop_stability toLowerCase world options t (maxPolls options)
              (initialState options) [] (initialState_invariant options) Hanswer)
    as [(cs & Hcs & _) _].
  cbn [app] in Hcs.
  assert (Hin : t ∈ omap (counted toLowerCase options)
                      (fst (pollLoop toLowerCase world options (maxPolls options)
                              (initialState options)))).
  { rewrite Hcs. apply elem_of_app. right. apply list_elem_of_singleton. reflexivity. }
  apply list_elem_of_omap in Hin as (candidate & _ & Hcounted).
  exact (counted_not_echo _ _ _ _ Hcounted).
Qed.

Lemma waitForLatestAnswer_never_the_question_witness :
  asciiLower (js "Paris.") <> asciiLower (trim (question capitalQuestion)).
Proof.
  apply (waitForLatestAnswer_never_the_question asciiLower echoBetweenWorld capitalQuestion).
  vm_compute. reflexivity.
Defined.

(** [X14] If the primary query answers at every poll, the answer of a call
    is none of the ignore texts, trimmed. *)
Theorem waitForLatestAnswer_never_ignored
    (toLowerCase : jsstring -> jsstring) (world : World) (options : Options)
    (t : jsstring) :
  (forall n, exists containers, toUserContainers (page (polls world n)) = Ok containers) ->
  waitForLatestAnswer toLowerCase world options = Resolved (Some t) ->
  forall text, In text (ignoreTexts options) -> trim text <> t.
Proof.
  intros Hprimary Hanswer text Hin Htext.
  destruct (pollLoop_answer_extracted toLowerCase world options t _ _ Hanswer)
    as (n & known & Hsub & Hextract).
  destruct (Hprimary n) as [containers Hquery].
  destruct (extractLatestText_primary_new _ _ _ _ Hquery Hextract)
    as (Htruthy & _ & Hnew).
  unfold knows in Hnew. apply bool_decide_eq_false in Hnew. apply Hnew, Hsub.
  cbn [initialState knownHashes]. rewrite <- Htext.
  apply seedKnownHashes_elem; [exact Hin | rewrite Htext; exact Htruthy].
Qed.

Lemma waitForLatestAnswer_never_ignored_witness :
  trim (js "Berlin is the capital of Germany.") <> js "Paris.".
Proof.
  apply (waitForLatestAnswer_never_ignored asciiLower berlinThenParisWorld afterBerlin).
  - intros n. eexists. reflexivity.
  - vm_compute. reflexivity.
  - left. reflexivity.
Defined.

(** [X15] If the ignore texts are a snapshot of the page and every poll finds
    the containers the snapshot saw, the call returns no answer: it ends in
    null or in an error. *)
Theorem waitForLatestAnswer_unchanged_page
    (toLowerCase : jsstring -> jsstring) (world : World) (options : Options)
    (snapshotPage : Page) (containers : list Container) :
  toUserContainers snapshotPage = Ok containers ->
  ignoreTexts options = snapshotAllResponses snapshotPage ->
  (forall n, toUserContainers (page (polls world n)) = Ok containers) ->
  forall t, waitForLatestAnswer toLowerCase world options <> Resolved (Some t).
Proof.
  intros Hsnapshot Hignore Hsame t Hanswer.
  destruct (pollLoop_answer_extracted toLowerCase world options t _ _ Hanswer)
    as (n & known & Hsub & Hextract).
  apply (nothing_new_after_snapshot _ _ _ _ (Hsame n)) in Hextract; [exact Hextract |].
  rewrite (snapshotAllResponses_spec _ _ (Hsame n)),
    <- (snapshotAllResponses_spec _ _ Hsnapshot), <- Hignore.
  exact Hsub.
Qed.

Lemma waitForLatestAnswer_unchanged_page_witness :
  waitForLatestAnswer asciiLower berlinWorld afterBerlin
  <> Resolved (Some (js "Berlin is the capital of Germany.")).
Proof.
  apply (waitForLatestAnswer_unchanged_page asciiLower berlinWorld afterBerlin berlinPage
           [answerContainer "Berlin is the capital of Germany."]).
  - reflexivity.
  - reflexivity.
  - intros n. reflexivity.
Defined.

(** ** The sources of an answer *)

Lemma dropDigits_split (s : jsstring) : exists ds, s = ds ++ dropDigits s.
Proof.
  induction s as [|c r [ds Hr]]; cbn [dropDigits]; [exists []; reflexivity |].
  destruct (isDigit c); [| exists []; reflexivity].
  exists (c :: ds). cbn [app]. congruence.
Qed.

Lemma collapsed_suffix (a b : jsstring) : collapsed (a ++ b) = true -> collapsed b = true.
Proof. intros H. exact (proj2 (collapsed_app a b H)). Qed.

Lemma stripCitationPrefix_normalForm (value : jsstring) :
  collapsed value = true -> inNormalForm (stripCitationPrefix value).
Proof.
  intros Hc. unfold stripCitationPrefix. apply trim_normalized.
  destruct (dropSpaces_split value) as [ws [Hvalue _]].
  destruct (eatDigits (dropSpaces value)) as [rest |] eqn:Hdigits; [| exact Hc].
  unfold eatDigits in Hdigits.
  destruct (dropSpaces value) as [|c r] eqn:Hdrop; [discriminate |].
  destruct (isDigit c); [| discriminate]. injection Hdigits as <-.
  destruct (dropDigits_split r) as [ds Hr].
  destruct (dropSpaces_split (dropDigits r)) as [ws' [Hrest _]].
  destruct (dropSpaces (dropDigits r)) as [|c' rest'] eqn:Hdrop'; [exact Hc |].
  destruct ((c' =? 58) || (c' =? 46) || (c' =? 41) || (c' =? 45)); [| exact Hc].
  destruct (dropSpaces_split rest') as [ws'' [Hrest' _]].
  rewrite Hvalue, Hr, Hrest, Hrest' in Hc.
  apply collapsed_suffix in Hc.
  change (c :: ds ++ ws' ++ c' :: ws'' ++ dropSpaces rest')
    with ((c :: ds) ++ ws' ++ (c' :: ws'') ++ dropSpaces rest') in Hc.
  apply collapsed_suffix, collapsed_suffix, collapsed_suffix in Hc. exact Hc.
Qed.

Lemma normalizeText_collapsed (s : jsstring) : collapsed (normalizeText s) = true.
Proof. exact (proj1 (normalizeText_normalized s)). Qed.

Lemma empty_normalForm : inNormalForm [].
Proof. repeat split. Qed.

Lemma collapseSpaces_prefix (p r : jsstring) :
  forallb (fun c => negb (isSpace c)) p = true ->
  collapseSpaces false (p ++ r) = p ++ collapseSpaces false r.
Proof.
  induction p as [|c p IH]; cbn [forallb app collapseSpaces]; [reflexivity |].
  intros [Hc Hp]%andb_true_iff. apply negb_true_iff in Hc. rewrite Hc, IH by exact Hp.
  reflexivity.
Qed.

Lemma dropSpaces_app_clean (a b : jsstring) :
  headClean b -> b <> [] -> dropSpaces (a ++ b) = dropSpaces a ++ b.
Proof.
  intros Hb Hne. induction a as [|c a IH]; cbn [app dropSpaces].
  - apply dropSpaces_id, Hb.
  - destruct (isSpace c); [exact IH | reflexivity].
Qed.

(** A first block without white space survives [normalizeText]. *)
Lemma normalizeText_prefix (p r : jsstring) :
  forallb (fun c => negb (isSpace c)) p = true -> p <> [] ->
  exists r', normalizeText (p ++ r) = p ++ r'.
Proof.
  intros Hp Hne. unfold normalizeText. rewrite (collapseSpaces_prefix _ _ Hp).
  set (q := collapseSpaces false r).
  assert (Hhead : headClean (p ++ q)).
  { destruct p as [|c p']; [contradiction |]. cbn [app headClean forallb] in *.
    apply andb_true_iff in Hp as [Hc _]. apply negb_true_iff in Hc. exact Hc. }
  assert (Hlast : headClean (rev p)).
  { destruct (rev p) as [|c t] eqn:Hrev; [exact I |]. cbn [headClean].
    assert (Hin : In c p) by (apply in_rev; rewrite Hrev; left; reflexivity).
    rewrite forallb_forall in Hp. specialize (Hp c Hin).
    apply negb_true_iff in Hp. exact Hp. }
  exists (rev (dropSpaces (rev q))). unfold trim.
  rewrite (dropSpaces_id _ Hhead), rev_app_distr, dropSpaces_app_clean.
  - rewrite rev_app_distr, rev_involutive. reflexivity.
  - exact Hlast.
  - intros Hrev. apply Hne. rewrite <- (rev_involutive p), Hrev. reflexivity.
Qed.

Lemma isHttpUrl_normalizeText (href : jsstring) :
  isHttpUrl href = true ->
  isHttpUrl (normalizeText href) = true /\ truthy (normalizeText href) = true.
Proof.
  intros Hhttp.
  assert (Hprefix : exists p r,
            href = p ++ r /\ forallb (fun c => negb (isSpace c)) p = true /\ p <> []
            /\ forall r', isHttpUrl (p ++ r') = true /\ truthy (p ++ r') = true).
  { unfold isHttpUrl in Hhttp.
    destruct href as [|h [|t1 [|t2 [|p [|c rest]]]]]; try discriminate Hhttp;
      try (rewrite !andb_false_r in Hhttp; discriminate Hhttp).
    apply andb_true_iff in Hhttp as [Hhttp Hend].
    apply andb_true_iff in Hhttp as [Hhttp Hp].
    apply andb_true_iff in Hhttp as [Hhttp Ht2].
    apply andb_true_iff in Hhttp as [Hh Ht1].
    assert (Hletter : forall lower x,
              (97 <= lower <= 122) ->
              (x =? lower) || (x =? lower - 32) = true -> isSpace x = false).
    { intros lower x Hrange [->%Z.eqb_eq | ->%Z.eqb_eq]%orb_true_iff;
        unfold isSpace;
        repeat match goal with
               | |- context [?a <=? ?b] => destruct (Z.leb_spec a b); try lia
               | |- context [?a =? ?b] => destruct (Z.eqb_spec a b); try lia
               end; reflexivity. }
    pose proof (Hletter 104 h ltac:(lia) Hh) as Sh.
    pose proof (Hletter 116 t1 ltac:(lia) Ht1) as St1.
    pose proof (Hletter 116 t2 ltac:(lia) Ht2) as St2.
    pose proof (Hletter 112 p ltac:(lia) Hp) as Sp.
    apply orb_true_iff in Hend as [Hcolon | Hs].
    - apply Z.eqb_eq in Hcolon. subst c.
      exists [h; t1; t2; p; 58], rest. split; [reflexivity |].
      split; [cbn [forallb]; rewrite Sh, St1, St2, Sp; reflexivity |].
      split; [discriminate |].
      intros r'. cbn [app isHttpUrl truthy]. rewrite Hh, Ht1, Ht2, Hp. auto.
    - apply andb_true_iff in Hs as [Hs Hcolon].
      destruct rest as [|c' rest']; [discriminate Hcolon |].
      apply Z.eqb_eq in Hcolon. subst c'.
      pose proof (Hletter 115 c ltac:(lia) Hs) as Sc.
      exists [h; t1; t2; p; c; 58], rest'. split; [reflexivity |].
      split; [cbn [forallb]; rewrite Sh, St1, St2, Sp, Sc; reflexivity |].
      split; [discriminate |].
      intros r'. cbn [app isHttpUrl truthy]. rewrite Hh, Ht1, Ht2, Hp, Hs.
      rewrite orb_true_r. auto. }
  destruct Hprefix as (p & r & -> & Hclean & Hne & Hany).
  destruct (normalizeText_prefix p r Hclean Hne) as [r' ->]. apply Hany.
Qed.

Lemma orElse_cases (a b : jsstring) :
  (truthy a = true /\ orElse a b = a) \/ (a = [] /\ orElse a b = b).
Proof. destruct a; [right | left]; split; reflexivity. Qed.

Lemma fold_left_keeps {A B : Type} (P : A -> Prop) (f : A -> B -> A) (l : list B) :
  (forall a x, P a -> P (f a x)) -> forall a, P a -> P (fold_left f l a).
Proof.
  intros Hstep. induction l as [|x l IH]; intros a Ha; [exact Ha |].
  cbn [fold_left]. apply IH, Hstep, Ha.
Qed.

Section SourceFacts.

Variable toLowerCase : jsstring -> jsstring.

Local Abbreviation wellFormed := (wellFormedReference toLowerCase).

Lemma addRef_wellFormed (t : jsstring) (u raw : option jsstring)
    (state : Harvest) :
  (forall h, u = Some h -> isHttpUrl h = true) ->
  Forall wellFormed (snd state) ->
  Forall wellFormed (snd (addRef toLowerCase t u raw state)).
Proof.
  intros Hhttp Hstate. destruct state as [unique refs]. unfold addRef.
  set (nt := stripCitationPrefix (normalizeText t)).
  set (nraw := normalizeText (orElse (orEmpty raw) nt)).
  set (nu := normalizeText (orEmpty u)).
  assert (Hnt : inNormalForm nt)
    by (apply stripCitationPrefix_normalForm, normalizeText_collapsed).
  assert (Hnraw : inNormalForm nraw) by apply normalizeText_normalized.
  assert (Hnu : inNormalForm nu) by apply normalizeText_normalized.
  assert (Hurl : (truthy nu = true /\ isHttpUrl nu = true) \/ nu = []).
  { destruct u as [h |]; [left | right; reflexivity].
    destruct (isHttpUrl_normalizeText h (Hhttp h eq_refl)). auto. }
  destruct (negb (truthy nt) && negb (truthy nu)) eqn:Hboth; [exact Hstate |].
  destruct (negb (truthy nu) && (isNoiseLabel toLowerCase nt || isNumericOnly nt))
    eqn:Hnoise; [exact Hstate |].
  destruct (bool_decide (refKey toLowerCase nt nu ∈ unique)); [exact Hstate |].
  cbn [snd]. apply Forall_app. split; [exact Hstate |].
  constructor; [| constructor].
  assert (Hsome : truthy nt = true \/ truthy nu = true).
  { destruct (truthy nt); [auto |]. destruct (truthy nu); [auto | discriminate Hboth]. }
  assert (Htitle : orElse nt (orElse nu (js "Untitled source")) <> []
                   /\ inNormalForm (orElse nt (orElse nu (js "Untitled source")))).
  { destruct (orElse_cases nt (orElse nu (js "Untitled source"))) as [[H ->] | [H ->]].
    - split; [apply truthy_nonempty, H | exact Hnt].
    - destruct Hsome as [Hs | Hs]; [rewrite H in Hs; discriminate Hs |].
      unfold orElse. rewrite Hs. split; [apply truthy_nonempty, Hs | exact Hnu]. }
  assert (Hraw : orElse nraw (orElse nt nu) <> [] /\ inNormalForm (orElse nraw (orElse nt nu))).
  { destruct (orElse_cases nraw (orElse nt nu)) as [[H ->] | [_ ->]].
    - split; [apply truthy_nonempty, H | exact Hnraw].
    - destruct (orElse_cases nt nu) as [[H ->] | [H ->]].
      + split; [apply truthy_nonempty, H | exact Hnt].
      + destruct Hsome as [Hs | Hs]; [rewrite H in Hs; discriminate Hs |].
        split; [apply truthy_nonempty, Hs | exact Hnu]. }
  unfold wellFormedReference. cbn [title url raw_text].
  split; [apply Htitle |]. split; [apply Htitle |].
  split; [apply Hraw |]. split; [apply Hraw |].
  destruct Hurl as [[Htruthy Hh] | Hempty].
  - rewrite Htruthy. split; [apply truthy_nonempty, Htruthy | auto].
  - destruct Hsome as [Hs | Hs]; [| rewrite Hempty in Hs; discriminate Hs].
    rewrite Hempty in *. cbn [truthy negb andb] in Hnoise |- *.
    apply orb_false_iff in Hnoise as [Hn Hd].
    destruct (orElse_cases nt (orElse [] (js "Untitled source"))) as [[_ ->] | [H _]];
      [auto | rewrite H in Hs; discriminate Hs].
Qed.

Lemma harvestAnchor_wellFormed (state : Harvest) (anchor : Anchor) :
  Forall wellFormed (snd state) ->
  Forall wellFormed (snd (harvestAnchor toLowerCase state anchor)).
Proof.
  intros Hstate. unfold harvestAnchor.
  destruct (negb (truthy _)); [exact Hstate |].
  destruct (isHttpUrl _) eqn:Hhttp; cbn [negb]; [| exact Hstate].
  apply addRef_wellFormed; [| exact Hstate]. intros h [= <-]. exact Hhttp.
Qed.

Lemma harvestMarker_wellFormed (state : Harvest) (marker : Marker) :
  Forall wellFormed (snd state) ->
  Forall wellFormed (snd (harvestMarker toLowerCase state marker)).
Proof.
  unfold harvestMarker.
  apply (fold_left_keeps (fun st : Harvest => Forall wellFormed (snd st))).
  intros st candidate Hst.
  destruct (_ && _); [| exact Hst].
  apply addRef_wellFormed; [discriminate | exact Hst].
Qed.

Lemma harvestSourceElement_wellFormed (state : Harvest) (el : SourceElement) :
  Forall wellFormed (snd state) ->
  Forall wellFormed (snd (harvestSourceElement toLowerCase state el)).
Proof.
  intros Hstate. unfold harvestSourceElement.
  destruct (strEq _ _); [exact Hstate |].
  destruct (negb (truthy _)); [exact Hstate |].
  apply addRef_wellFormed; [discriminate | exact Hstate].
Qed.

Lemma harvest_wellFormed (root : AnswerNode) :
  Forall wellFormed (harvest toLowerCase root).
Proof.
  unfold harvest. apply Forall_take.
  apply (fold_left_keeps (fun st : Harvest => Forall wellFormed (snd st))).
  { intros st selector Hst.
    apply (fold_left_keeps (fun st : Harvest => Forall wellFormed (snd st)));
      [| exact Hst].
    intros st' el. apply harvestSourceElement_wellFormed. }
  apply (fold_left_keeps (fun st : Harvest => Forall wellFormed (snd st)));
    [intros st m; apply harvestMarker_wellFormed |].
  apply (fold_left_keeps (fun st : Harvest => Forall wellFormed (snd st)));
    [intros st a; apply harvestAnchor_wellFormed |].
  constructor.
Qed.

Lemma renormalize_wellFormed (source : SourceReference) :
  wellFormed source -> renormalize source = source.
Proof.
  destruct source as [t u r]. unfold wellFormedReference, renormalize.
  cbn [title url raw_text]. intros (Ht & Htn & Hr & Hrn & Hu).
  f_equal.
  - apply normalized_fixed, Htn.
  - destruct u as [u |]; [| reflexivity]. destruct Hu as (Hne & Hun & _).
    apply truthy_nonempty in Hne. rewrite Hne. f_equal. apply normalized_fixed, Hun.
  - apply truthy_nonempty in Hr. unfold orElse. rewrite Hr. apply normalized_fixed, Hrn.
Qed.

Lemma extractSourcesFromContainer_wellFormed (container : AnswerNode) :
  Forall wellFormed (extractSourcesFromContainer toLowerCase container).
Proof.
  unfold extractSourcesFromContainer. apply Forall_take.
  rewrite List.Forall_forall. intros source [Hin _]%filter_In.
  apply in_map_iff in Hin as (source0 & <- & Hin).
  pose proof (harvest_wellFormed container) as Hall.
  rewrite List.Forall_forall in Hall. specialize (Hall _ Hin).
  rewrite (renormalize_wellFormed _ Hall). exact Hall.
Qed.

End SourceFacts.

(** [X16] Every reference [extractSourcesFromContainer] returns has a title
    and a raw text that are not empty, and each of its fields, the address
    included when there is one, is in the form [normalizeText] gives (and
    an address is not empty). *)
Theorem extractSourcesFromContainer_fields
    (toLowerCase : jsstring -> jsstring) (container : AnswerNode) :
  Forall (fun source =>
            title source <> [] /\ normalizeText (title source) = title source
            /\ raw_text source <> [] /\ normalizeText (raw_text source) = raw_text source
            /\ forall u, url source = Some u -> u <> [] /\ normalizeText u = u)
    (extractSourcesFromContainer toLowerCase container).
Proof.
  eapply Forall_impl; [apply (extractSourcesFromContainer_wellFormed toLowerCase) |].
  intros source (Ht & Htn & Hr & Hrn & Hu). cbn beta.
  split; [exact Ht |]. split; [apply normalized_fixed, Htn |].
  split; [exact Hr |]. split; [apply normalized_fixed, Hrn |].
  intros u Hurl. rewrite Hurl in Hu. destruct Hu as (Hne & Hun & _).
  split; [exact Hne | apply normalized_fixed, Hun].
Qed.

(** [X17] An address in a returned reference is always an http or https
    address: links with another scheme, citation markers and source-like
    elements never put an address into a reference. *)
Theorem extractSourcesFromContainer_http_only
    (toLowerCase : jsstring -> jsstring) (container : AnswerNode) :
  Forall (fun source =>
            match url source with
            | Some u => isHttpUrl u = true
            | None => True
            end)
    (extractSourcesFromContainer toLowerCase container).
Proof.
  eapply Forall_impl; [apply (extractSourcesFromContainer_wellFormed toLowerCase) |].
  intros source (_ & _ & _ & _ & Hu). cbn beta.
  destruct (url source); [apply Hu | exact I].
Qed.

(** [X18] A returned reference without an address has a real label for a
    title: not a bare number and none of the noise labels of the citation
    widgets. *)
Theorem extractSourcesFromContainer_labels
    (toLowerCase : jsstring -> jsstring) (container : AnswerNode) :
  Forall (fun source =>
            url source = None ->
            isNumericOnly (title source) = false
            /\ isNoiseLabel toLowerCase (title source) = false)
    (extractSourcesFromContainer toLowerCase container).
Proof.
  eapply Forall_impl; [apply (extractSourcesFromContainer_wellFormed toLowerCase) |].
  intros source (_ & _ & _ & _ & Hu) Hnone. rewrite Hnone in Hu.
  destruct Hu as [Hnoise Hnumeric]. auto.
Qed.

Lemma extractSourcesFromContainer_unchanged
    (toLowerCase : jsstring -> jsstring) (container : AnswerNode) :
  extractSourcesFromContainer toLowerCase container = harvest toLowerCase container.
Proof.
  unfold extractSourcesFromContainer, MAX_EXTRACTED_SOURCES.
  pose proof (harvest_wellFormed toLowerCase container) as Hall.
  assert (Hlen : (length (harvest toLowerCase container) <= 30)%nat)
    by (unfold harvest; rewrite length_take; lia).
  revert Hall Hlen. generalize (harvest toLowerCase container) as refs.
  intros refs Hall Hlen.
  assert (Hsame : List.filter (fun source => (0 <? length (title source))%nat)
                    (List.map renormalize refs) = refs).
  { clear Hlen. induction Hall as [|source refs Hsource _ IH]; [reflexivity |].
    cbn [List.map List.filter].
    rewrite (renormalize_wellFormed toLowerCase _ Hsource), IH.
    destruct Hsource as [Ht _]. destruct (title source); [contradiction | reflexivity]. }
  rewrite Hsame. apply firstn_all2. exact Hlen.
Qed.

(** [X19] The pass outside the page changes nothing: the result is the list
    the in-page function returned, reference for reference. *)
Theorem extractSourcesFromContainer_second_pass
    (toLowerCase : jsstring -> jsstring) (container : AnswerNode) :
  extractSourcesFromContainer toLowerCase container = harvest toLowerCase container.
Proof. exact (extractSourcesFromContainer_unchanged toLowerCase container). Qed.

(** ** Finding the container of an answer *)

Lemma matchFromEnd_found (answer : jsstring) (reversed : list AnswerContainer)
    (container : AnswerContainer) :
  matchFromEnd answer reversed = Ok (Some container) ->
  exists skipped rest,
    reversed = skipped ++ container :: rest
    /\ matchesAnswer answer container = true
    /\ Forall (fun c => matchesAnswer answer c = false) skipped.
Proof.
  induction reversed as [|c reversed IH]; cbn [matchFromEnd]; [discriminate |].
  assert (Hnext : matchesAnswer answer c = false ->
                  matchFromEnd answer reversed = Ok (Some container) ->
                  exists skipped rest,
                    c :: reversed = skipped ++ container :: rest
                    /\ matchesAnswer answer container = true
                    /\ Forall (fun c => matchesAnswer answer c = false) skipped).
  { intros Hc Hfound. destruct (IH Hfound) as (skipped & rest & -> & Hm & Hs).
    exists (c :: skipped), rest. split; [reflexivity |]. split; [exact Hm |].
    constructor; assumption. }
  unfold matchesAnswer in Hnext |- *.
  destruct (messageText c) as [error | | [text | error]] eqn:Htext.
  - destruct (throwIfRecoverableBrowserError error _); [discriminate | auto].
  - auto.
  - destruct (truthy text) eqn:Ht; cbn [negb orb andb] in *; [| auto].
    destruct (truthy (trim text)) eqn:Htt; cbn [negb orb andb] in *; [| auto].
    destruct (isLikelySameAnswer text answer) eqn:Hsame; [| auto].
    intros [= <-]. exists [], reversed. split; [reflexivity |].
    split; [| constructor]. rewrite Htext, Ht, Htt, Hsame. reflexivity.
  - destruct (throwIfRecoverableBrowserError error _); [discriminate | auto].
Qed.

(** [X20] [findResponseContainerForAnswer] returns the last container, in
    DOM order, whose message text is likely the same answer: the container
    it returns passes the test and no container after it does. *)
Theorem findResponseContainerForAnswer_last_match
    (containers : list AnswerContainer) (answer : jsstring)
    (container : AnswerContainer) :
  findResponseContainerForAnswer (Ok containers) answer = Ok (Some container) ->
  exists before behind,
    containers = before ++ container :: behind
    /\ matchesAnswer answer container = true
    /\ Forall (fun c => matchesAnswer answer c = false) behind.
Proof.
  cbn [findResponseContainerForAnswer]. intros Hfound.
  apply matchFromEnd_found in Hfound as (skipped & rest & Hrev & Hmatch & Hskipped).
  exists (rev rest), (rev skipped).
  split; [| split; [exact Hmatch |]].
  - rewrite <- (rev_involutive containers), Hrev, rev_app_distr. cbn [rev].
    rewrite <- app_assoc. reflexivity.
  - rewrite List.Forall_forall in *. intros c Hin. apply Hskipped, in_rev, Hin.
Qed.

Lemma findResponseContainerForAnswer_last_match_witness :
  exists before behind,
    [earlierParis; berlinBetween; latestParis] = before ++ latestParis :: behind
    /\ matchesAnswer (js "Paris.") latestParis = true
    /\ Forall (fun c => matchesAnswer (js "Paris.") c = false) behind.
Proof.
  apply (findResponseContainerForAnswer_last_match
           [earlierParis; berlinBetween; latestParis] (js "Paris.") latestParis).
  vm_compute. reflexivity.
Defined.

Lemma sourcesCatch_cases (error : Thrown) :
  sourcesCatch error = Ok []
  \/ (sourcesCatch error
      = Throws (Contextual
                  "Browser page unavailable while extracting sources from answer container"
                  error)
      /\ isRecoverableBrowserError error = true).
Proof.
  unfold sourcesCatch, throwIfRecoverableBrowserError.
  destruct (isRecoverableBrowserError error); [right | left]; auto.
Qed.

Lemma extractSourcesForAnswer_cases
    (toLowerCase : jsstring -> jsstring)
    (containers : Result (list AnswerContainer)) (answer : jsstring) :
  match extractSourcesForAnswer toLowerCase containers answer with
  | Ok sources => (length sources <= 30)%nat
  | Throws error =>
      isRecoverableBrowserError error = true
      /\ exists cause,
           error = Contextual
                     "Browser page unavailable while extracting sources from answer container"
                     cause
  end.
Proof.
  unfold extractSourcesForAnswer.
  assert (Hcatch : forall error,
            match sourcesCatch error with
            | Ok sources => (length sources <= 30)%nat
            | Throws thrown =>
                isRecoverableBrowserError thrown = true
                /\ exists cause,
                     thrown = Contextual
                       "Browser page unavailable while extracting sources from answer container"
                       cause
            end).
  { intros error. destruct (sourcesCatch_cases error) as [-> | [-> Hrec]].
    - cbn [length]. lia.
    - split; [exact Hrec | eauto]. }
  destruct (findResponseContainerForAnswer containers answer) as [[container |] | error].
  - destruct (evaluated container) as [node | error]; [| apply Hcatch].
    apply extractSourcesFromContainer_bounded.
  - cbn [length]. lia.
  - apply Hcatch.
Qed.

(** [X21] [extractSourcesForAnswer] either returns at most 30 references or
    throws a browser-state error under the context of the source extraction;
    any other failure, of the query, of a container or of the in-page
    function, gives the empty list or is skipped. *)
Theorem extractSourcesForAnswer_outcomes
    (toLowerCase : jsstring -> jsstring)
    (containers : Result (list AnswerContainer)) (answer : jsstring) :
  match extractSourcesForAnswer toLowerCase containers answer with
  | Ok sources => (length sources <= 30)%nat
  | Throws error =>
      isRecoverableBrowserError error = true
      /\ exists cause,
           error = Contextual
                     "Browser page unavailable while extracting sources from answer container"
                     cause
  end.
Proof. exact (extractSourcesForAnswer_cases toLowerCase containers answer). Qed.

(** [X22] [waitForLatestAnswerWithSources] resolves with the answer of
    [waitForLatestAnswer] and the sources extracted for it; a null answer
    comes with no sources and only from a null answer of
    [waitForLatestAnswer] (the guard against an empty answer never drops an
    answer); it rejects with the error of either of the two. *)
Theorem waitForLatestAnswerWithSources_outcomes
    (toLowerCase : jsstring -> jsstring) (world : World) (options : Options)
    (containers : Result (list AnswerContainer)) :
  match waitForLatestAnswerWithSources toLowerCase world options containers with
  | ResolvedWith None sources =>
      sources = [] /\ waitForLatestAnswer toLowerCase world options = Resolved None
  | ResolvedWith (Some answer) sources =>
      waitForLatestAnswer toLowerCase world options = Resolved (Some answer)
      /\ extractSourcesForAnswer toLowerCase containers answer = Ok sources
      /\ (length sources <= 30)%nat
  | RejectedWith error =>
      waitForLatestAnswer toLowerCase world options = Rejected error
      \/ exists answer,
           waitForLatestAnswer toLowerCase world options = Resolved (Some answer)
           /\ extractSourcesForAnswer toLowerCase containers answer = Throws error
  end.
Proof.
  unfold waitForLatestAnswerWithSources.
  destruct (waitForLatestAnswer toLowerCase world options) as [[answer |] | error] eqn:Hanswer.
  - destruct (pollLoop_stability toLowerCase world options answer (maxPolls options)
                (initialState options) [] (initialState_invariant options) Hanswer)
      as (_ & Htruthy & _).
    rewrite Htruthy. cbn [negb].
    pose proof (extractSourcesForAnswer_cases toLowerCase containers answer) as Hsources.
    destruct (extractSourcesForAnswer toLowerCase containers answer)
      as [sources | error] eqn:Hextract.
    + repeat split; first [reflexivity | exact Hextract | exact Hsources].
    + right. exists answer. split; first [reflexivity | exact Hextract].
  - auto.
  - left. reflexivity.
Qed.

(** ** Repeated references *)

Section RepeatedReferences.

Variable toLowerCase : jsstring -> jsstring.

Lemma addRef_filed (t : jsstring) (u raw : option jsstring) (state : Harvest) :
  filed toLowerCase state -> filed toLowerCase (addRef toLowerCase t u raw state).
Proof.
  intros Hstate. destruct state as [unique refs]. unfold addRef.
  set (nt := stripCitationPrefix (normalizeText t)).
  set (nu := normalizeText (orEmpty u)).
  destruct (negb (truthy nt) && negb (truthy nu)) eqn:Hboth; [exact Hstate |].
  destruct (negb (truthy nu) && (isNoiseLabel toLowerCase nt || isNumericOnly nt));
    [exact Hstate |].
  destruct (bool_decide (refKey toLowerCase nt nu ∈ unique)) eqn:Hknown; [exact Hstate |].
  apply bool_decide_eq_false in Hknown.
  destruct Hstate as (keys & Hnodup & Hin & Hfiled). cbn [fst snd] in *.
  exists (keys ++ [refKey toLowerCase nt nu]). cbn [fst snd]. split; [| split].
  - apply NoDup_app. split; [exact Hnodup |]. split; [| apply NoDup_singleton].
    intros key Hkey Hnew. apply list_elem_of_singleton in Hnew. subst key.
    rewrite Forall_forall in Hin. apply Hknown, Hin, Hkey.
  - apply Forall_app. split.
    + eapply Forall_impl; [exact Hin |]. intros key Hkey. cbn beta in *. set_solver.
    + constructor; [set_solver | constructor].
  - apply Forall2_app; [exact Hfiled |]. constructor; [| constructor].
    exists nt, nu. split; [reflexivity |]. split; [| split; reflexivity].
    destruct (truthy nt); [auto |]. destruct (truthy nu); [auto | discriminate Hboth].
Qed.

Lemma harvest_filed (root : AnswerNode) :
  exists state, filed toLowerCase state /\ harvest toLowerCase root = take 30 (snd state).
Proof.
  unfold harvest. eexists. split; [| reflexivity].
  apply (fold_left_keeps (filed toLowerCase)).
  { intros st selector Hst. apply (fold_left_keeps (filed toLowerCase)); [| exact Hst].
    intros st' el Hst'. unfold harvestSourceElement.
    destruct (strEq _ _); [exact Hst' |].
    destruct (negb (truthy _)); [exact Hst' |]. apply addRef_filed, Hst'. }
  apply (fold_left_keeps (filed toLowerCase)).
  { intros st marker Hst. unfold harvestMarker.
    apply (fold_left_keeps (filed toLowerCase)); [| exact Hst].
    intros st' candidate Hst'. destruct (_ && _); [| exact Hst'].
    apply addRef_filed, Hst'. }
  apply (fold_left_keeps (filed toLowerCase)).
  { intros st anchor Hst. unfold harvestAnchor.
    destruct (negb (truthy _)); [exact Hst |].
    destruct (negb (isHttpUrl _)); [exact Hst |]. apply addRef_filed, Hst. }
  exists []. cbn [fst snd]. split; [apply NoDup_nil_2 |]. split; constructor.
Qed.

(** Two references filed under different keys that show the same title and
    address: each one's title is its address up to case, and for one of the
    two the title is the address itself. *)
Lemma filedUnder_same_pair (key1 key2 : jsstring) (source1 source2 : SourceReference) :
  filedUnder toLowerCase key1 source1 -> filedUnder toLowerCase key2 source2 ->
  key1 <> key2 ->
  titleUrlPair toLowerCase source1 = titleUrlPair toLowerCase source2 ->
  exists u1 u2,
    url source1 = Some u1 /\ url source2 = Some u2
    /\ toLowerCase (title source1) = toLowerCase u1
    /\ toLowerCase (title source2) = toLowerCase u2
    /\ (title source1 = u1 \/ title source2 = u2).
Proof.
  intros (nt1 & nu1 & -> & Hsome1 & Ht1 & Hu1) (nt2 & nu2 & -> & Hsome2 & Ht2 & Hu2)
    Hkeys Hpair.
  unfold titleUrlPair in Hpair. injection Hpair as Htitle Hurl.
  rewrite Ht1, Ht2 in Htitle. rewrite Hu1, Hu2 in Hurl. rewrite Ht1, Hu1, Ht2, Hu2.
  destruct (orElse_cases nt1 (orElse nu1 (js "Untitled source"))) as [[Hnt1 E1] | [Hnt1 E1]];
    rewrite E1 in *; clear E1.
  - destruct (orElse_cases nt2 (orElse nu2 (js "Untitled source")))
      as [[Hnt2 E2] | [Hnt2 E2]]; rewrite E2 in *; clear E2.
    + exfalso. apply Hkeys. unfold refKey. rewrite Htitle. f_equal. f_equal.
      destruct nu1 as [|c1 r1], nu2 as [|c2 r2]; cbn [truthy fmap option_fmap option_map] in Hurl;
        first [reflexivity | discriminate Hurl | injection Hurl as Hurl; exact Hurl].
    + subst nt2. destruct Hsome2 as [H | Hnu2]; [discriminate H |].
      rewrite Hnu2 in Hurl |- *. unfold orElse in Htitle |- *. rewrite Hnu2 in Htitle |- *.
      destruct (truthy nu1); [| discriminate Hurl].
      injection Hurl as Hurl.
      exists nu1, nu2. repeat split; first [reflexivity | congruence | auto].
  - subst nt1. destruct Hsome1 as [H | Hnu1]; [discriminate H |].
    assert (Hor : orElse nu1 (js "Untitled source") = nu1)
      by (unfold orElse; rewrite Hnu1; reflexivity).
    rewrite Hor in Htitle |- *. rewrite Hnu1 in Hurl |- *.
    destruct (truthy nu2); [| discriminate Hurl].
    injection Hurl as Hurl.
    exists nu1, nu2. split; [reflexivity |]. split; [reflexivity |].
    split; [reflexivity |]. split; [congruence |]. left. reflexivity.
Qed.

End RepeatedReferences.

(** [X23] Two returned references at different positions can only show the
    same lower-cased title and address when each one's title is, up to case,
    its address, and the title of at least one of the two is its address
    itself, as in a reference built for a title that normalizes to nothing:
    two references whose titles both differ from their addresses are never
    a repeated pair. *)
Theorem extractSourcesFromContainer_repeats_only_bare_links
    (toLowerCase : jsstring -> jsstring) (container : AnswerNode)
    (i j : nat) (source1 source2 : SourceReference) :
  i <> j ->
  extractSourcesFromContainer toLowerCase container !! i = Some source1 ->
  extractSourcesFromContainer toLowerCase container !! j = Some source2 ->
  titleUrlPair toLowerCase source1 = titleUrlPair toLowerCase source2 ->
  exists u1 u2,
    url source1 = Some u1 /\ url source2 = Some u2
    /\ toLowerCase (title source1) = toLowerCase u1
    /\ toLowerCase (title source2) = toLowerCase u2
    /\ (title source1 = u1 \/ title source2 = u2).
Proof.
  intros Hij H1 H2 Hpair.
  rewrite extractSourcesFromContainer_unchanged in H1, H2.
  destruct (harvest_filed toLowerCase container) as (state & Hfiled & Hharvest).
  rewrite Hharvest in H1, H2.
  apply lookup_take_Some in H1 as [H1 _]. apply lookup_take_Some in H2 as [H2 _].
  destruct Hfiled as (keys & Hnodup & _ & Hfiled).
  destruct (Forall2_lookup_r _ _ _ _ _ Hfiled H1) as (key1 & Hk1 & Hf1).
  destruct (Forall2_lookup_r _ _ _ _ _ Hfiled H2) as (key2 & Hk2 & Hf2).
  apply (filedUnder_same_pair toLowerCase key1 key2 source1 source2 Hf1 Hf2); [| exact Hpair].
  intros ->. apply Hij. exact (NoDup_lookup _ _ _ _ Hnodup Hk1 Hk2).
Qed.

Lemma extractSourcesFromContainer_repeats_only_bare_links_witness :
  exists u1 u2,
    url upperCaseReference = Some u1 /\ url numberedReference = Some u2
    /\ asciiLower (title upperCaseReference) = asciiLower u1
    /\ asciiLower (title numberedReference) = asciiLower u2
    /\ (title upperCaseReference = u1 \/ title numberedReference = u2).
Proof.
  apply (extractSourcesFromContainer_repeats_only_bare_links asciiLower namedAndNumbered 0 1
           upperCaseReference numberedReference).
  - discriminate.
  - vm_compute. reflexivity.
  - vm_compute. reflexivity.
  - vm_compute. reflexivity.
Defined.

(** The pair is repeated although the first of the two links has a text of
    its own: the address in upper case. *)
Lemma extractSourcesFromContainer_repeats_named_link :
  extractSourcesFromContainer asciiLower namedAndNumbered
  = [upperCaseReference; numberedReference]
  /\ titleUrlPair asciiLower upperCaseReference = titleUrlPair asciiLower numberedReference
  /\ title upperCaseReference <> js "https://example.com/".
Proof.
  split; [vm_compute; reflexivity |]. split; [vm_compute; reflexivity |].
  vm_compute. discriminate.
Qed.

(** ** The known set during the polling *)

Lemma seedFold_source (hash : Z) (texts : list jsstring) :
  forall known : gset Z,
    hash ∈ fold_left
             (fun known text =>
                if truthy (trim text) then {[ hashString (trim text) ]} ∪ known else known)
             texts known ->
    hash ∈ known
    \/ (exists text, In text texts /\ truthy (trim text) = true
                     /\ hash = hashString (trim text)).
Proof.
  induction texts as [|text rest IH]; intros known; cbn [fold_left]; [auto |].
  intros [Hin | (text' & Hin & Htruthy & Hhash)]%IH.
  - destruct (truthy (trim text)) eqn:Htruthy; [| auto].
    apply elem_of_union in Hin as [->%elem_of_singleton | Hin]; [| auto].
    right. exists text. split; [left; reflexivity | auto].
  - right. exists text'. split; [right; exact Hin | auto].
Qed.

Section KnownSet.

Variable toLowerCase : jsstring -> jsstring.
Variable world : World.
Variable options : Options.

(** A round of the loop leaves the known set as it was, unless the candidate
    of the round spells the question: then its fingerprint comes in. *)
Lemma pollBody_known (st st' : PollState) (candidate : option jsstring) :
  pollBody toLowerCase world options st = (candidate, Continue st') ->
  knownHashes st' = knownHashes st
  \/ exists c, candidate = Some c
               /\ toLowerCase (trim c) = sanitizedQuestion toLowerCase options
               /\ knownHashes st' = {[ hashString (trim c) ]} ∪ knownHashes st.
Proof.
  intros Hbody.
  apply pollBody_inv in Hbody
    as [[_ [[e He] | [st0 [Hst0 (_ & _ & _ & Hk)]]]] | [st1 [(_ & _ & _ & Hk) Hdetect]]].
  - discriminate He.
  - injection Hst0 as <-. left. exact Hk.
  - cbn [nextPoll knownHashes] in Hk. rewrite <- Hk. clear Hk.
    unfold extractAndDetect in Hdetect.
    assert (Hend : forall st0, endOfPoll world options st0 = Continue st' ->
                               knownHashes st' = knownHashes st0).
    { intros st0 Hstep. apply endOfPoll_continue in Hstep as (_ & _ & _ & Hk). exact Hk. }
    destruct (snd (extractLatestText _ _)) as [[c |] | error];
      [| injection Hdetect as <- Hstep; left; apply Hend, Hstep | discriminate Hdetect].
    injection Hdetect as <- Hstep.
    destruct (truthy c); [| left; apply Hend, Hstep].
    destruct (truthy (trim c)); [| left; apply Hend, Hstep].
    destruct (strEq _ _) eqn:Hecho.
    + right. exists c. split; [reflexivity |].
      split; [apply strEq_true, Hecho |].
      destruct (waitForPollInterval world _ _ _) as [st2 [error |]] eqn:Hwait;
        [discriminate Hstep |].
      injection Hstep as <-.
      apply waitForPollInterval_same in Hwait as (_ & _ & _ & Hk). exact Hk.
    + left.
      match type of Hstep with
      | (if ?reached then _ else _) = _ => destruct reached; [discriminate Hstep |]
      end.
      rewrite (Hend _ Hstep). apply detectStable_rest.
Qed.

Lemma loopHead_known (n : nat) :
  forall st, loopHead toLowerCase world options n = Some st ->
    forall hash, hash ∈ knownHashes st ->
      hash ∈ seedKnownHashes (ignoreTexts options)
      \/ exists text, toLowerCase text = sanitizedQuestion toLowerCase options
                      /\ hash = hashString text.
Proof.
  induction n as [|n IH]; intros st'; cbn [loopHead].
  - intros [= <-] hash Hin. left. exact Hin.
  - destruct (loopHead toLowerCase world options n) as [st |]; [| discriminate].
    destruct (_ && _); [| discriminate].
    destruct (pollBody toLowerCase world options (tick st)) as [candidate step] eqn:Hbody.
    cbn [snd]. destruct step as [st0 | |]; [| discriminate | discriminate].
    intros [= ->] hash Hin.
    apply pollBody_known in Hbody as [Hk | (c & _ & Hecho & Hk)];
      rewrite Hk in Hin; cbn [tick knownHashes] in Hin.
    + exact (IH st eq_refl hash Hin).
    + apply elem_of_union in Hin as [->%elem_of_singleton | Hin].
      * right. eauto.
      * exact (IH st eq_refl hash Hin).
Qed.

End KnownSet.

(** [X24] At every head of the loop the known set holds nothing but the
    fingerprints of the trimmed ignore texts and fingerprints of texts that
    spell the question: no other candidate, returned or not, is ever put
    into it. *)
Theorem waitForLatestAnswer_known_set
    (toLowerCase : jsstring -> jsstring) (world : World) (options : Options)
    (n : nat) (st : PollState) (hash : Z) :
  loopHead toLowerCase world options n = Some st ->
  hash ∈ knownHashes st ->
  (exists text, In text (ignoreTexts options) /\ truthy (trim text) = true
                /\ hash = hashString (trim text))
  \/ (exists text, toLowerCase text = sanitizedQuestion toLowerCase options
                   /\ hash = hashString text).
Proof.
  intros Hhead Hin.
  destruct (loopHead_known toLowerCase world options n st Hhead hash Hin) as [Hseed | Hecho];
    [| right; exact Hecho].
  left. unfold seedKnownHashes in Hseed.
  apply seedFold_source in Hseed as [Hempty | Hsource]; [| exact Hsource].
  apply elem_of_empty in Hempty. contradiction.
Qed.

Lemma waitForLatestAnswer_known_set_witness :
  (exists text, In text (ignoreTexts capitalQuestion) /\ truthy (trim text) = true
                /\ hashString (js "what is the capital of France?")
                   = hashString (trim text))
  \/ (exists text, asciiLower text = sanitizedQuestion asciiLower capitalQuestion
                   /\ hashString (js "what is the capital of France?") = hashString text).
Proof.
  apply (waitForLatestAnswer_known_set asciiLower echoWorld capitalQuestion 1 echoHead).
  - vm_compute. reflexivity.
  - apply elem_of_union_l, elem_of_singleton. reflexivity.
Defined.

(** ** Where a known text can come from *)

Lemma primaryExtraction_fallThrough (page : Page) (knownHashes : gset Z) :
  snd (primaryExtraction page knownHashes) = FallThrough ->
  exists error, toUserContainers page = Throws error
                /\ isRecoverableBrowserError error = false.
Proof.
  intros Hprimary.
  destruct (toUserContainers page) as [containers | error] eqn:Hquery.
  - pose proof (primaryExtraction_answers page knownHashes containers Hquery) as Hanswers.
    rewrite Hprimary in Hanswers. contradiction.
  - exists error. split; [reflexivity |].
    unfold primaryExtraction in Hprimary. rewrite Hquery, snd_after in Hprimary.
    cbn [snd] in Hprimary. unfold primaryCatch, throwIfRecoverableBrowserError in Hprimary.
    destruct (isRecoverableBrowserError error); [discriminate Hprimary | reflexivity].
Qed.

(** [X25] A candidate of [extractLatestText] is a new text: trimmed, not
    empty, with a fingerprint the known set does not hold.  The one way
    around the known set is the in-page scan, reached when the primary query
    failed with an error that is no browser-state error and the fallback
    selectors gave nothing. *)
Theorem extractLatestText_known_only_from_scan
    (page : Page) (knownHashes : gset Z) (c : jsstring) :
  snd (extractLatestText page knownHashes) = Ok (Some c) ->
  newText knownHashes c
  \/ ((exists error, toUserContainers page = Throws error
                     /\ isRecoverableBrowserError error = false)
      /\ snd (scanSelectors page knownHashes RESPONSE_SELECTORS) = Exhausted
      /\ snd (lastResortExtraction page) = Ok (Some c)).
Proof.
  rewrite extractLatestText_cases.
  destruct (snd (primaryExtraction page knownHashes)) as [text | error |] eqn:Hprimary.
  - intros [= ->]. left. exact (primaryExtraction_found _ _ _ Hprimary).
  - discriminate.
  - apply primaryExtraction_fallThrough in Hprimary.
    unfold fallbackExtraction.
    destruct (snd (scanSelectors page knownHashes RESPONSE_SELECTORS))
      as [text | error |] eqn:Hscan; cbn [snd after].
    + intros [= <-]. left. exact (scanSelectors_found _ _ _ _ Hscan).
    + discriminate.
    + intros Hlast. right. auto.
Qed.

Lemma extractLatestText_known_only_from_scan_witness :
  newText (seedKnownHashes [js "Berlin is the capital of Germany."])
    (js "Berlin is the capital of Germany.")
  \/ ((exists error, toUserContainers detachedPage = Throws error
                     /\ isRecoverableBrowserError error = false)
      /\ snd (scanSelectors detachedPage
                (seedKnownHashes [js "Berlin is the capital of Germany."])
                RESPONSE_SELECTORS) = Exhausted
      /\ snd (lastResortExtraction detachedPage)
         = Ok (Some (js "Berlin is the capital of Germany."))).
Proof.
  apply (extractLatestText_known_only_from_scan detachedPage).
  vm_compute. reflexivity.
Defined.

(** ** The in-page scan *)

Lemma scanDocElement_candidates (document : string -> list DocElement)
    (state : gset nat * list jsstring) (el : DocElement) (selector : string) :
  In selector scanSelectorsOfLastResort -> In el (document selector) ->
  Forall (shownBy document) (snd state) ->
  Forall (shownBy document) (snd (scanDocElement state el)).
Proof.
  intros Hselector Hel Hstate. destruct state as [unique candidates].
  unfold scanDocElement.
  destruct (docVisible el) eqn:Hvisible; cbn [negb]; [| exact Hstate].
  destruct (bool_decide _); [exact Hstate |].
  destruct (truthy (trim _)) eqn:Htruthy; cbn [negb snd]; [| exact Hstate].
  apply Forall_app. split; [exact Hstate |]. constructor; [| constructor].
  exists selector, el. auto.
Qed.

Lemma scanDocElements_candidates (document : string -> list DocElement)
    (selector : string) (elements : list DocElement) :
  In selector scanSelectorsOfLastResort ->
  (forall el, In el elements -> In el (document selector)) ->
  forall state, Forall (shownBy document) (snd state) ->
    Forall (shownBy document) (snd (fold_left scanDocElement elements state)).
Proof.
  intros Hselector. induction elements as [|el rest IH]; intros Hsub state Hstate;
    cbn [fold_left]; [exact Hstate |].
  apply IH; [intros el' Hin; apply Hsub; right; exact Hin |].
  apply (scanDocElement_candidates document state el selector Hselector);
    [apply Hsub; left; reflexivity | exact Hstate].
Qed.

Lemma scanDocSelectors_candidates (document : string -> list DocElement)
    (selectors : list string) :
  (forall selector, In selector selectors -> In selector scanSelectorsOfLastResort) ->
  forall state, Forall (shownBy document) (snd state) ->
    Forall (shownBy document)
      (snd (fold_left
              (fun state selector => fold_left scanDocElement (document selector) state)
              selectors state)).
Proof.
  induction selectors as [|selector rest IH]; intros Hsub state Hstate;
    cbn [fold_left]; [exact Hstate |].
  apply IH; [intros s Hin; apply Hsub; right; exact Hin |].
  apply (scanDocElements_candidates document selector);
    [apply Hsub; left; reflexivity | auto | exact Hstate].
Qed.

(** [X26] The text the in-page scan returns is the trimmed text (the
    [innerText], or the [textContent] when that is empty) of an element that
    one of the six selectors of the scan matches and that is visible:
    connected, with a box that is not empty, and not hidden by its style.
    It is never blank. *)
Theorem lastResortScan_visible
    (document : string -> list DocElement) (text : jsstring) :
  lastResortScan document = Some text ->
  exists selector el,
    In selector scanSelectorsOfLastResort /\ In el (document selector)
    /\ isConnected el = true /\ rectEmpty el = false /\ styleHidden el = false
    /\ text = trim (orElse (docInnerText el) (docTextContent el))
    /\ text <> [].
Proof.
  unfold lastResortScan.
  pose proof (scanDocSelectors_candidates document scanSelectorsOfLastResort
                (fun _ H => H) (∅, []) (Forall_nil_2 _)) as Hall.
  revert Hall.
  generalize (fold_left
                (fun state selector => fold_left scanDocElement (document selector) state)
                scanSelectorsOfLastResort (∅, [])) as final.
  intros [unique candidates] Hall Hlast. cbn [snd] in Hall.
  apply last_Some in Hlast as [before ->].
  apply Forall_app in Hall as [_ Hall]. apply Forall_inv in Hall.
  destruct Hall as (selector & el & Hselector & Hel & Hvisible & Htruthy & ->).
  exists selector, el. unfold docVisible in Hvisible.
  destruct (isConnected el); cbn [negb] in Hvisible; [| discriminate Hvisible].
  destruct (rectEmpty el); [discriminate Hvisible |].
  destruct (styleHidden el); [discriminate Hvisible |].
  repeat split; try assumption. apply truthy_nonempty, Htruthy.
Qed.

Lemma lastResortScan_visible_witness :
  exists selector el,
    In selector scanSelectorsOfLastResort
    /\ In el (if String.eqb selector "[data-message-author]" then [staleMessage] else [])
    /\ isConnected el = true /\ rectEmpty el = false /\ styleHidden el = false
    /\ js "Berlin is the capital of Germany."
       = trim (orElse (docInnerText el) (docTextContent el))
    /\ js "Berlin is the capital of Germany." <> [].
Proof.
  apply (lastResortScan_visible
           (fun selector =>
              if String.eqb selector "[data-message-author]" then [staleMessage] else [])).
  vm_compute. reflexivity.
Defined.

(** * The settings manager *)

Lemma includesName_In (names : list jsstring) (name : jsstring) :
  includesName names name = true <-> In name names.
Proof.
  unfold includesName. rewrite existsb_exists. split.
  - intros (x & Hin & ->%strEq_true). exact Hin.
  - intros Hin. exists name. split; [exact Hin | apply strEq_true; reflexivity].
Qed.

Lemma includesName_not_In (names : list jsstring) (name : jsstring) :
  includesName names name = false <-> ~ In name names.
Proof.
  rewrite <- includesName_In. destruct (includesName names name); split; congruence.
Qed.

Lemma setFold_spec (names : list jsstring) :
  forall seen, List.NoDup seen ->
    let result :=
      fold_left (fun seen name => if includesName seen name then seen else seen ++ [name])
        names seen in
    List.NoDup result
    /\ (forall name, In name result <-> In name seen \/ In name names)
    /\ exists added, result = seen ++ added.
Proof.
  induction names as [|x names IH]; intros seen Hseen; cbn [fold_left].
  - split; [exact Hseen |]. split; [| exists []; symmetry; apply app_nil_r].
    intros name. cbn [In]. tauto.
  - destruct (includesName seen x) eqn:Hx.
    + apply includesName_In in Hx.
      destruct (IH seen Hseen) as (Hnodup & Hin & Hprefix).
      split; [exact Hnodup |]. split; [| exact Hprefix].
      intros name. rewrite Hin. cbn [In]. split; [tauto |].
      intros [H | [<- | H]]; auto.
    + apply includesName_not_In in Hx.
      assert (Hnew : List.NoDup (seen ++ [x])).
      { apply NoDup_ListNoDup, NoDup_app. apply NoDup_ListNoDup in Hseen.
        split; [exact Hseen |]. split; [| apply NoDup_singleton].
        intros y Hy ->%list_elem_of_singleton. apply Hx, list_elem_of_In, Hy. }
      destruct (IH (seen ++ [x]) Hnew) as (Hnodup & Hin & [added Hprefix]).
      split; [exact Hnodup |]. split.
      * intros name. rewrite Hin, in_app_iff. cbn [In]. tauto.
      * exists (x :: added). rewrite Hprefix, <- app_assoc. reflexivity.
Qed.

(** Names that are all new and all different are appended as they are. *)
Lemma setFold_fresh (names : list jsstring) :
  forall seen, List.NoDup (seen ++ names) ->
    fold_left (fun seen name => if includesName seen name then seen else seen ++ [name])
      names seen = seen ++ names.
Proof.
  induction names as [|x rest IH]; intros seen Hnd; cbn [fold_left];
    [symmetry; apply app_nil_r |].
  assert (Hx : includesName seen x = false).
  { apply includesName_not_In. intros Hin.
    apply List.NoDup_remove_2 in Hnd. apply Hnd, in_or_app. left. exact Hin. }
  rewrite Hx, IH.
  - rewrite <- app_assoc. reflexivity.
  - rewrite <- app_assoc. exact Hnd.
Qed.

Lemma setToArray_spec (names : list jsstring) :
  List.NoDup (setToArray names)
  /\ forall name, In name (setToArray names) <-> In name names.
Proof.
  destruct (setFold_spec names [] (List.NoDup_nil _)) as (Hnodup & Hin & _).
  split; [exact Hnodup |]. intros name. unfold setToArray. rewrite Hin. cbn [In]. tauto.
Qed.

Lemma splitAtCommas_nonempty (value : jsstring) : splitAtCommas value <> [].
Proof.
  destruct value as [|c rest]; cbn [splitAtCommas]; [discriminate |].
  destruct (c =? 44); [discriminate |]. destruct (splitAtCommas rest); discriminate.
Qed.

Lemma disabledTools_effective (toLowerCase : jsstring -> jsstring)
    (inheritedMember : jsstring -> bool) (settings : Settings) (env : Environment)
    (name : jsstring) :
  In name (disabledTools (getEffectiveSettings toLowerCase inheritedMember settings env))
  <-> In name (disabledTools settings) \/ In name (disabledByEnvironment env).
Proof.
  unfold getEffectiveSettings, disabledByEnvironment. cbn [disabledTools].
  destruct (envDisabled env) as [value |]; [| cbn [In]; tauto].
  destruct (truthy value); [| cbn [In]; tauto].
  rewrite (proj2 (setToArray_spec _)), in_app_iff. reflexivity.
Qed.

(** [X27] The effective list of disabled tools holds exactly the stored
    names and the trimmed pieces of [NOTEBOOKLM_DISABLED_TOOLS].  When the
    variable is unset or empty the list is the stored one as it is; when it
    is set, the list holds every name once, the stored names first. *)
Theorem getEffectiveSettings_disabled
    (toLowerCase : jsstring -> jsstring) (inheritedMember : jsstring -> bool)
    (settings : Settings) (env : Environment) :
  let effective :=
    disabledTools (getEffectiveSettings toLowerCase inheritedMember settings env) in
  (forall name,
     In name effective
     <-> In name (disabledTools settings) \/ In name (disabledByEnvironment env))
  /\ (disabledByEnvironment env = [] -> effective = disabledTools settings)
  /\ (disabledByEnvironment env <> [] ->
      List.NoDup effective
      /\ (List.NoDup (disabledTools settings) ->
          exists added, effective = disabledTools settings ++ added)).
Proof.
  cbn zeta. split; [intros name; apply disabledTools_effective |].
  unfold getEffectiveSettings, disabledByEnvironment. cbn [disabledTools].
  destruct (envDisabled env) as [value |]; [| split; [reflexivity | contradiction]].
  destruct (truthy value); [| split; [reflexivity | contradiction]].
  split.
  - intros Hnone. apply map_eq_nil in Hnone.
    exfalso. exact (splitAtCommas_nonempty value Hnone).
  - intros _. split; [apply setToArray_spec |].
    intros Hstored. unfold setToArray. rewrite fold_left_app.
    destruct (setFold_spec (disabledTools settings) [] (List.NoDup_nil _))
      as (Hnodup & Hin & _). cbn zeta in Hnodup, Hin.
    assert (Hsame : fold_left
                      (fun seen name =>
                         if includesName seen name then seen else seen ++ [name])
                      (disabledTools settings) [] = disabledTools settings)
      by (apply (setFold_fresh (disabledTools settings) []); exact Hstored).
    rewrite Hsame.
    destruct (setFold_spec (List.map trim (splitAtCommas value)) (disabledTools settings)
                Hstored) as (_ & _ & Hprefix).
    exact Hprefix.
Qed.

Lemma filter_sublist {A : Type} (keep : A -> bool) (l : list A) :
  sublist (List.filter keep l) l.
Proof.
  induction l as [|x l IH]; cbn [List.filter]; [constructor |].
  destruct (keep x); [apply sublist_skip | apply sublist_cons]; exact IH.
Qed.

Lemma filter_sublist_mono {A : Type} (keep keep' : A -> bool) (l : list A) :
  (forall x, keep x = true -> keep' x = true) ->
  sublist (List.filter keep l) (List.filter keep' l).
Proof.
  intros Hmono. induction l as [|x l IH]; cbn [List.filter]; [constructor |].
  destruct (keep x) eqn:Hx.
  - rewrite (Hmono x Hx). apply sublist_skip, IH.
  - destruct (keep' x); [apply sublist_cons |]; exact IH.
Qed.

Lemma exposes_spec (allowedTools disabled : list jsstring) (name : jsstring) :
  exposes allowedTools disabled name = true
  <-> (In (js "*") allowedTools \/ In name allowedTools) /\ ~ In name disabled.
Proof.
  unfold exposes. rewrite <- includesName_not_In, <- !includesName_In.
  destruct (includesName allowedTools (js "*")), (includesName allowedTools name),
    (includesName disabled name); cbn [negb andb]; intuition congruence.
Qed.

(** [X28] The tools [filterTools] returns are tools of the list it was
    given, in their order, and a tool is among them exactly when its name is
    allowed by the effective profile (by name, or by the wildcard) and is
    neither a stored disabled name nor a trimmed piece of
    [NOTEBOOKLM_DISABLED_TOOLS]. *)
Theorem filterTools_exposed
    {Tool : Type} (toolName : Tool -> jsstring)
    (toLowerCase : jsstring -> jsstring) (inheritedMember : jsstring -> bool)
    (settings : Settings) (env : Environment) (allTools tools : list Tool) :
  filterTools toLowerCase inheritedMember toolName settings env allTools = Some tools ->
  sublist tools allTools
  /\ exists allowedTools,
       PROFILES (profile (getEffectiveSettings toLowerCase inheritedMember settings env))
       = Some allowedTools
       /\ forall tool,
            In tool tools
            <-> In tool allTools
                /\ (In (js "*") allowedTools \/ In (toolName tool) allowedTools)
                /\ ~ In (toolName tool) (disabledTools settings)
                /\ ~ In (toolName tool) (disabledByEnvironment env).
Proof.
  unfold filterTools.
  destruct (PROFILES _) as [allowedTools |] eqn:Hprofile; [| discriminate].
  intros [= <-]. split; [apply filter_sublist |].
  exists allowedTools. split; [reflexivity |].
  intros tool. rewrite filter_In, exposes_spec.
  pose proof (disabledTools_effective toLowerCase inheritedMember settings env
                (toolName tool)) as Hdisabled.
  tauto.
Qed.

Lemma filterTools_exposed_witness :
  sublist [js "ask_question"]
    [js "ask_question"; js "setup_auth"; js "add_notebook"; js "cleanup_data"]
  /\ exists allowedTools,
       PROFILES (profile (getEffectiveSettings asciiLower (fun _ => false)
                            storedStandard disablingEnvironment))
       = Some allowedTools
       /\ forall tool,
            In tool [js "ask_question"]
            <-> In tool [js "ask_question"; js "setup_auth"; js "add_notebook";
                         js "cleanup_data"]
                /\ (In (js "*") allowedTools \/ In tool allowedTools)
                /\ ~ In tool (disabledTools storedStandard)
                /\ ~ In tool (disabledByEnvironment disablingEnvironment).
Proof.
  apply (filterTools_exposed (fun name : jsstring => name) asciiLower (fun _ => false)
           storedStandard disablingEnvironment).
  vm_compute. reflexivity.
Defined.

Lemma minimalTools_standard (name : jsstring) :
  includesName minimalTools name = true -> includesName standardTools name = true.
Proof.
  rewrite !includesName_In. unfold minimalTools, standardTools. cbn [In]. tauto.
Qed.

(** [X29] The three profiles are nested.  With no profile in the
    environment and the same disabled names, the tools of the minimal
    profile are among those of the standard profile, these are among those
    of the full profile, and the full profile exposes every tool that is not
    disabled. *)
Theorem filterTools_profiles_nested
    {Tool : Type} (toolName : Tool -> jsstring)
    (toLowerCase : jsstring -> jsstring) (inheritedMember : jsstring -> bool)
    (disabled : list jsstring) (always : bool)
    (envNames envAlways : option jsstring) (allTools : list Tool) :
  let stored name :=
    {| profile := js name; disabledTools := disabled; alwaysIncludeSources := always |} in
  let env :=
    {| envProfile := None; envDisabled := envNames;
       envAlwaysIncludeSources := envAlways |} in
  exists small medium large,
    filterTools toLowerCase inheritedMember toolName (stored "minimal"%string) env allTools
    = Some small
    /\ filterTools toLowerCase inheritedMember toolName (stored "standard"%string) env
         allTools = Some medium
    /\ filterTools toLowerCase inheritedMember toolName (stored "full"%string) env allTools
       = Some large
    /\ sublist small medium /\ sublist medium large
    /\ large
       = List.filter
           (fun tool =>
              negb (includesName disabled (toolName tool))
              && negb (includesName (disabledByEnvironment env) (toolName tool)))
           allTools.
Proof.
  cbn zeta. unfold filterTools, getEffectiveSettings.
  cbn [envProfile envDisabled profile disabledTools].
  change (PROFILES (js "minimal")) with (Some minimalTools).
  change (PROFILES (js "standard")) with (Some standardTools).
  change (PROFILES (js "full")) with (Some fullTools).
  set (effective := match envNames with
                    | Some value =>
                        if truthy value
                        then setToArray (disabled ++ List.map trim (splitAtCommas value))
                        else disabled
                    | None => disabled
                    end).
  do 3 eexists. split; [reflexivity |]. split; [reflexivity |]. split; [reflexivity |].
  split; [| split].
  - apply filter_sublist_mono. intros tool. unfold exposes.
    change (includesName minimalTools (js "*")) with false.
    change (includesName standardTools (js "*")) with false.
    cbn [negb andb].
    destruct (includesName minimalTools (toolName tool)) eqn:Hminimal;
      cbn [negb]; [| discriminate].
    rewrite (minimalTools_standard _ Hminimal). cbn [negb]. auto.
  - apply filter_sublist_mono. intros tool. unfold exposes.
    change (includesName fullTools (js "*")) with true.
    change (includesName standardTools (js "*")) with false.
    cbn [negb andb].
    destruct (includesName standardTools (toolName tool)); cbn [negb]; [auto | discriminate].
  - apply filter_ext. intros tool. unfold exposes.
    change (includesName fullTools (js "*")) with true. cbn [negb andb].
    assert (Hsame : includesName effective (toolName tool)
                    = includesName disabled (toolName tool)
                      || includesName
                           (disabledByEnvironment
                              {| envProfile := None; envDisabled := envNames;
                                 envAlwaysIncludeSources := envAlways |})
                           (toolName tool)).
    { apply eq_true_iff_eq. rewrite orb_true_iff, !includesName_In.
      unfold effective, disabledByEnvironment. cbn [envDisabled].
      destruct envNames as [value |]; [| cbn [In]; tauto].
      destruct (truthy value); [| cbn [In]; tauto].
      rewrite (proj2 (setToArray_spec _)), in_app_iff. reflexivity. }
    rewrite Hsame.
    destruct (includesName disabled (toolName tool)),
      (includesName (disabledByEnvironment _) (toolName tool)); reflexivity.
Qed.
